(** * Parrot's generic stacks ([src/stacks.c]) as a shallow embedding

    The stack is a linked list of chunks ([Stack_Chunk_t]); every chunk has
    room for one entry ([Stack_Entry_t]) and a [prev] link to the chunk
    beneath it.  The bottom chunk links to itself.  The functions of
    [stacks.c] are embedded as computations over an explicit interpreter
    state: a store of chunks addressed by pointers, the caller's memory
    cells, and the trace of calls made to external collaborators. *)

From Stdlib Require Import ZArith Lia SpecFloat.
From stdpp Require Import gmap strings list.

Open Scope Z_scope.

(** ** Data model *)

(** [FLOATVAL], a floating-point number; it is only stored and copied
    here, never computed with. *)
Definition FLOATVAL : Set := spec_float.

Definition NULL : Z := 0.

(** The enumeration [Stack_entry_type] of [include/parrot/enums.h], which
    is not part of the sources: the eight tags [stacks.c] names, and the
    value [0] that [stack_pop] takes for "we don't care" (the code tests it
    with [if (type && ...)]). *)
Inductive Stack_entry_type : Type :=
| NO_STACK_ENTRY_TYPE
| STACK_ENTRY_INT
| STACK_ENTRY_FLOAT
| STACK_ENTRY_STRING
| STACK_ENTRY_PMC
| STACK_ENTRY_POINTER
| STACK_ENTRY_DESTINATION
| STACK_ENTRY_MARK
| STACK_ENTRY_ACTION.

Global Instance Stack_entry_type_eq_dec : EqDecision Stack_entry_type.
Proof. solve_decision. Defined.

(** Modelled from the spec: the union [UnionVal] and its accessor macros
    [UVal_int], [UVal_num], [UVal_pmc], [UVal_str], [UVal_ptr] are declared
    in a header that is not part of the sources.  The payload is exactly one
    of an integer, a floating-point number, an object reference, a string
    reference or a raw pointer.  Reading a member other than the one last
    written is not determined by the sources: the accessors answer [None]. *)
Inductive UnionVal : Type :=
| U_int (i : Z)
| U_num (n : FLOATVAL)
| U_pmc (p : Z)
| U_str (s : Z)
| U_ptr (p : Z).

Definition UVal_int (u : UnionVal) : option Z :=
  match u with U_int i => Some i | _ => None end.
Definition UVal_num (u : UnionVal) : option FLOATVAL :=
  match u with U_num n => Some n | _ => None end.
Definition UVal_pmc (u : UnionVal) : option Z :=
  match u with U_pmc p => Some p | _ => None end.
Definition UVal_str (u : UnionVal) : option Z :=
  match u with U_str s => Some s | _ => None end.
Definition UVal_ptr (u : UnionVal) : option Z :=
  match u with U_ptr p => Some p | _ => None end.

(** [Stack_Entry_t]: payload, tag, and the cleanup routine (a function
    pointer; [STACK_CLEANUP_NULL] is the null one). *)
Record Stack_Entry_t : Type := mkEntry {
  entry : UnionVal;
  entry_type : Stack_entry_type;
  cleanup : Z
}.

Definition STACK_CLEANUP_NULL : Z := NULL.

(** [Stack_Chunk_t]: the link to the chunk beneath and the inline entry. *)
Record Stack_Chunk_t : Type := mkChunk {
  prev : Z;
  data : Stack_Entry_t
}.

(** A cell of caller memory: what [stack_push] reads through [thing], what
    [stack_pop] writes through [where], and the variables that hold the top
    of a stack, which the functions get by address ([stack_p]). *)
Inductive Cell : Type :=
| Cell_INTVAL (i : Z)
| Cell_FLOATVAL (n : FLOATVAL)
| Cell_ptr (p : Z).

(** Calls to the collaborators whose code is outside [stacks.c]. *)
Inductive Event : Type :=
| Lives (obj : Z)                     (* pobject_lives(interp, obj) *)
| Cleanup_call (f : Z) (e : Z).       (* the routine f called on (interp, e) *)

Inductive Exception_kind : Type :=
| ERROR_STACK_SHALLOW
| ERROR_BAD_STACK_TYPE.

(** The interpreter state the functions of [stacks.c] act on. *)
Record Interp : Type := mkInterp {
  chunks : gmap Z Stack_Chunk_t;      (* chunk memory *)
  memory : gmap Z Cell;               (* caller memory *)
  user_stack_var : Z;                 (* &CONTEXT(interp->ctx)->user_stack *)
  events : list Event                 (* calls to collaborators, oldest first *)
}.

(** ** Computations *)

(** A call either returns, or leaves through [internal_exception] with the
    state at the moment of the raise, or does something the sources do not
    determine (a pointer that designates no object is dereferenced), or the
    model's loop bound was too small. *)
Inductive Outcome (A : Type) : Type :=
| Returns (a : A) (itp : Interp)
| Raises (kind : Exception_kind) (msg : string) (itp : Interp)
| Undefined
| Out_of_fuel.

Arguments Returns {A} a itp.
Arguments Raises {A} kind msg itp.
Arguments Undefined {A}.
Arguments Out_of_fuel {A}.

Definition M (A : Type) : Type := Interp → Outcome A.

Global Instance M_ret : MRet M := λ A a itp, Returns a itp.

Global Instance M_bind : MBind M := λ A B f m itp,
  match m itp with
  | Returns a itp' => f a itp'
  | Raises k msg itp' => Raises k msg itp'
  | Undefined => Undefined
  | Out_of_fuel => Out_of_fuel
  end.

Definition get_interp : M Interp := λ itp, Returns itp itp.
Definition undefined {A} : M A := λ _, Undefined.
Definition out_of_fuel {A} : M A := λ _, Out_of_fuel.

Definition from_option {A} (o : option A) : M A :=
  match o with Some a => mret a | None => undefined end.

(** Modelled from the spec: [internal_exception] is the fatal-error sink,
    "a non-local, unwinding failure that never returns control to the
    caller". *)
Definition internal_exception {A} (kind : Exception_kind) (msg : string) : M A :=
  λ itp, Raises kind msg itp.

(** Modelled from the spec: [pobject_lives] is the tracer's [reportLive],
    which "registers an object as reachable for the current collection
    cycle". *)
Definition pobject_lives (obj : Z) : M unit :=
  λ itp, Returns tt (mkInterp (chunks itp) (memory itp) (user_stack_var itp)
                              (events itp ++ [Lives obj])).

(** The call of the cleanup routine [f] on [(interp, e)], for a routine that
    returns at once: the call is put on the trace and nothing else changes.
    What a routine does is not part of the sources; [Routines] below takes
    it as a parameter. *)
Definition call_cleanup (f e : Z) : M unit :=
  λ itp, Returns tt (mkInterp (chunks itp) (memory itp) (user_stack_var itp)
                              (events itp ++ [Cleanup_call f e])).

(** The chunk a pointer designates; the null pointer designates none. *)
Definition chunk_at (h : gmap Z Stack_Chunk_t) (p : Z) : option Stack_Chunk_t :=
  if decide (p = NULL) then None else h !! p.

Definition load_chunk (p : Z) : M Stack_Chunk_t :=
  itp ← get_interp; from_option (chunk_at (chunks itp) p).

Definition store_chunk (p : Z) (c : Stack_Chunk_t) : M unit :=
  λ itp, match chunk_at (chunks itp) p with
         | Some _ => Returns tt (mkInterp (<[p := c]> (chunks itp)) (memory itp)
                                          (user_stack_var itp) (events itp))
         | None => Undefined
         end.

(** [STACK_DATAP(chunk)]: the entry lies inside its chunk, so a pointer to
    an entry is represented by the address of the chunk that holds it. *)
Definition STACK_DATAP (chunk : Z) : Z := chunk.

(** [*e] as an rvalue and as an lvalue, for [e] a pointer to an entry. *)
Definition load_entry (e : Z) : M Stack_Entry_t :=
  c ← load_chunk e; mret (data c).

Definition store_entry (e : Z) (v : Stack_Entry_t) : M unit :=
  c ← load_chunk e; store_chunk e (mkChunk (prev c) v).

Definition load_cell (p : Z) : M Cell :=
  itp ← get_interp;
  from_option (if decide (p = NULL) then None else memory itp !! p).

Definition store_cell (p : Z) (v : Cell) : M unit :=
  λ itp, if decide (p = NULL) then Undefined
         else Returns tt (mkInterp (chunks itp) (<[p := v]> (memory itp))
                                   (user_stack_var itp) (events itp)).

Definition load_ptr (p : Z) : M Z :=
  v ← load_cell p;
  match v with Cell_ptr q => mret q | _ => undefined end.

Definition load_INTVAL (p : Z) : M Z :=
  v ← load_cell p;
  match v with Cell_INTVAL i => mret i | _ => undefined end.

Definition load_FLOATVAL (p : Z) : M FLOATVAL :=
  v ← load_cell p;
  match v with Cell_FLOATVAL n => mret n | _ => undefined end.

(** ** The functions of [stacks.c] *)

(** *** [mark_stack] *)

(** The [switch (entry->entry_type)] of [mark_stack]. *)
Definition mark_entry (e : Stack_Entry_t) : M unit :=
  match entry_type e with
  | STACK_ENTRY_PMC =>
      p ← from_option (UVal_pmc (entry e));
      if decide (p ≠ NULL) then pobject_lives p else mret tt
  | STACK_ENTRY_STRING =>
      s ← from_option (UVal_str (entry e));
      if decide (s ≠ NULL) then pobject_lives s else mret tt
  | _ => mret tt
  end.

Fixpoint mark_stack (fuel : nat) (chunk : Z) : M unit :=
  match fuel with
  | O => out_of_fuel
  | S fuel' =>
      pobject_lives chunk;;
      c ← load_chunk chunk;
      if decide (chunk = prev c) then mret tt
      else
        e ← load_entry (STACK_DATAP chunk);
        mark_entry e;;
        mark_stack fuel' (prev c)
  end.

(** *** Machine integers, [stack_height], [stack_entry], [rotate_entries] *)

Section Stacks.

(** [INTVAL] and [size_t] are declared by the configuration headers, which
    are not part of the sources: both are taken [word_bits] wide, [INTVAL]
    signed in two's complement and [size_t] unsigned. *)
Variable word_bits : Z.

Definition INTVAL_MIN : Z := - 2 ^ (word_bits - 1).
Definition INTVAL_MAX : Z := 2 ^ (word_bits - 1) - 1.

(** The casts [(size_t)z] and [(INTVAL)z], and with them the result of an
    arithmetic operation of that type on the exact value [z]. *)
Definition to_size_t (z : Z) : Z := z mod 2 ^ word_bits.
Definition to_INTVAL (z : Z) : Z :=
  (z + 2 ^ (word_bits - 1)) mod 2 ^ word_bits - 2 ^ (word_bits - 1).

(** *** [stack_height] *)

(** The loop [for (; ; chunk = chunk->prev) { if (chunk == chunk->prev)
    break; ++height; }].  It does not end on a chain of chunks that never
    reaches a self-linked one, hence the bound [fuel] on its iterations. *)
Fixpoint stack_height_loop (fuel : nat) (chunk : Z) (height : Z) : M Z :=
  match fuel with
  | O => out_of_fuel
  | S fuel' =>
      c ← load_chunk chunk;
      if decide (chunk = prev c) then mret height
      else stack_height_loop fuel' (prev c) (to_size_t (height + 1))
  end.

Definition stack_height (fuel : nat) (chunk : Z) : M Z :=
  stack_height_loop fuel chunk 0.

(** *** [stack_entry] *)

(** The loop [while (offset) { if (chunk == chunk->prev) break; --offset;
    chunk = chunk->prev; }]; it answers the chunk it stops at.  [offset]
    decreases at every iteration, so the loop is bounded by it. *)
Fixpoint stack_entry_loop (offset : nat) (chunk : Z) : M Z :=
  match offset with
  | O => mret chunk
  | S offset' =>
      c ← load_chunk chunk;
      if decide (chunk = prev c) then mret chunk
      else stack_entry_loop offset' (prev c)
  end.

(** The part of [stack_entry] from [chunk = stack] on. *)
Definition stack_entry_from (stack : Z) (offset : Z) : M Z :=
  chunk ← stack_entry_loop (Z.to_nat offset) stack;
  c ← load_chunk chunk;
  if decide (chunk = prev c) then mret NULL
  else mret (STACK_DATAP chunk).

(** For a negative depth, the sum [stack_height(...) + depth] is assigned
    to [depth], an [INTVAL]. *)
Definition stack_entry (fuel : nat) (stack : Z) (depth : Z) : M Z :=
  let offset := to_size_t depth in
  if decide (depth < 0) then
    itp ← get_interp;
    user_stack ← load_ptr (user_stack_var itp);
    height ← stack_height fuel user_stack;
    let depth := to_INTVAL (height + depth) in
    if decide (depth < 0) then mret NULL
    else
      let offset := to_size_t depth in
      stack_entry_from stack offset
  else stack_entry_from stack offset.

(** *** [rotate_entries] *)

(** [for (i = depth; i > 0; i--) body(i)], bounded by its iteration count. *)
Fixpoint for_down (count : nat) (i : Z) (body : Z → M unit) : M unit :=
  match count with
  | O => mret tt
  | S count' =>
      if decide (i > 0) then
        body i;; for_down count' (to_INTVAL (i - 1)) body
      else mret tt
  end.

(** [for (i = 0; i < depth; i++) body(i)], bounded by its iteration count. *)
Fixpoint for_up (count : nat) (i depth : Z) (body : Z → M unit) : M unit :=
  match count with
  | O => mret tt
  | S count' =>
      if decide (i < depth) then
        body i;; for_up count' (to_INTVAL (i + 1)) depth body
      else mret tt
  end.

(** [*stack_entry(interp, stack, dst) = *stack_entry(interp, stack, src)].
    The two calls only read the state, so their order does not matter. *)
Definition copy_entry (fuel : nat) (stack : Z) (dst src : Z) : M unit :=
  s ← stack_entry fuel stack src;
  v ← load_entry s;
  d ← stack_entry fuel stack dst;
  store_entry d v.

Definition rotate_entries (fuel : nat) (stack_p : Z) (num_entries : Z) : M unit :=
  stack ← load_ptr stack_p;
  let depth := to_INTVAL (num_entries - 1) in
  if decide (num_entries >= -1 ∧ num_entries <= 1) then mret tt
  else if decide (num_entries < 0) then
    let num_entries := to_INTVAL (- num_entries) in
    let depth := to_INTVAL (num_entries - 1) in
    height ← stack_height fuel stack;
    (if decide (height < to_size_t num_entries)
     then internal_exception ERROR_STACK_SHALLOW "Stack too shallow!"
     else mret tt);;
    e ← stack_entry fuel stack depth;
    temp ← load_entry e;
    for_down (Z.to_nat depth) depth
      (λ i, copy_entry fuel stack i (to_INTVAL (i - 1)));;
    e0 ← stack_entry fuel stack 0;
    store_entry e0 temp
  else
    height ← stack_height fuel stack;
    (if decide (height < to_size_t num_entries)
     then internal_exception ERROR_STACK_SHALLOW "Stack too shallow!"
     else mret tt);;
    e0 ← stack_entry fuel stack 0;
    temp ← load_entry e0;
    for_up (Z.to_nat depth) 0 depth
      (λ i, copy_entry fuel stack i (to_INTVAL (i + 1)));;
    e ← stack_entry fuel stack depth;
    store_entry e temp.

End Stacks.

(** *** [stack_push] and [stack_pop] *)

(** What a chunk's entry holds before [stack_push] has filled it. *)
Definition uninitialized : Stack_Entry_t :=
  mkEntry (U_int 0) NO_STACK_ENTRY_TYPE STACK_CLEANUP_NULL.

(** The allocation of a chunk: an address that is not null and holds no
    chunk yet, and the chunk put there. *)
Definition new_chunk (itp : Interp) : Z := fresh (dom (chunks itp) ∪ {[NULL]}).

Definition alloc_chunk (p : Z) (c : Stack_Chunk_t) : M unit :=
  λ itp, Returns tt (mkInterp (<[p := c]> (chunks itp)) (memory itp)
                              (user_stack_var itp) (events itp)).

(** Modelled from the spec: [stack_prepare_push] is the chunk allocator's
    [prepareForPush(stackTop)], which gives a "writable Entry slot on a
    fresh top chunk"; "the slot returned by prepare-for-push is
    uninitialized and ready to be filled".  Its code is in
    [src/stack_common.c], which is not part of the sources. *)
Definition stack_prepare_push (stack_p : Z) : M Z :=
  chunk ← load_ptr stack_p;
  itp ← get_interp;
  let new := new_chunk itp in
  alloc_chunk new (mkChunk chunk uninitialized);;
  store_cell stack_p (Cell_ptr new);;
  mret (STACK_DATAP new).

(** Modelled from the spec: [stack_prepare_pop] is the chunk allocator's
    [prepareForPop(stackTop)], which gives the "detached top Entry, with the
    list already advanced to the next chunk"; "the entry returned by
    prepare-for-pop remains valid for inspection/cleanup until the next push
    reuses its memory".  The spec does not say what it does on a lone base
    chunk.  Its code is in [src/stack_common.c], which is not part of the
    sources. *)
Definition stack_prepare_pop (stack_p : Z) : M Z :=
  chunk ← load_ptr stack_p;
  c ← load_chunk chunk;
  if decide (chunk = prev c) then undefined
  else store_cell stack_p (Cell_ptr (prev c));; mret (STACK_DATAP chunk).

(** The assignments [e->entry_type = t], [e->cleanup = f] and
    [UVal_xxx(e->entry) = u]. *)
Definition store_entry_type (e : Z) (t : Stack_entry_type) : M unit :=
  v ← load_entry e; store_entry e (mkEntry (entry v) t (cleanup v)).
Definition store_cleanup (e : Z) (f : Z) : M unit :=
  v ← load_entry e; store_entry e (mkEntry (entry v) (entry_type v) f).
Definition store_UVal (e : Z) (u : UnionVal) : M unit :=
  v ← load_entry e; store_entry e (mkEntry u (entry_type v) (cleanup v)).

Definition stack_push (stack_p : Z) (thing : Z) (type : Stack_entry_type)
    (cleanup : Z) : M unit :=
  e ← stack_prepare_push stack_p;
  (* Remember the type *)
  store_entry_type e type;;
  (* Remember the cleanup function *)
  store_cleanup e cleanup;;
  (* Store our thing *)
  match type with
  | STACK_ENTRY_INT | STACK_ENTRY_MARK =>
      i ← load_INTVAL thing; store_UVal e (U_int i)
  | STACK_ENTRY_FLOAT =>
      n ← load_FLOATVAL thing; store_UVal e (U_num n)
  | STACK_ENTRY_ACTION | STACK_ENTRY_PMC =>
      store_UVal e (U_pmc thing)
  | STACK_ENTRY_STRING =>
      store_UVal e (U_str thing)
  | STACK_ENTRY_POINTER | STACK_ENTRY_DESTINATION =>
      store_UVal e (U_ptr thing)
  | _ => internal_exception ERROR_BAD_STACK_TYPE "Invalid Stack_Entry_type!"
  end.

Definition wrong_type_msg : string :=
  "Wrong type on top of stack!" +:+ String (Ascii.ascii_of_nat 10) EmptyString.

Definition stack_pop (stack_p : Z) (where_ : Z) (type : Stack_entry_type) : M Z :=
  e ← stack_prepare_pop stack_p;
  (* Types of 0 mean we don't care *)
  v ← load_entry e;
  (if decide (type ≠ NO_STACK_ENTRY_TYPE ∧ entry_type v ≠ type)
   then internal_exception ERROR_BAD_STACK_TYPE wrong_type_msg
   else mret tt);;
  (* Cleanup routine? *)
  v ← load_entry e;
  (if decide (cleanup v ≠ STACK_CLEANUP_NULL)
   then call_cleanup (cleanup v) e
   else mret tt);;
  (* Sometimes the caller doesn't care what the value was *)
  if decide (where_ = NULL) then mret NULL
  else
    (* Snag the value *)
    v ← load_entry e;
    match type with
    | STACK_ENTRY_MARK | STACK_ENTRY_INT =>
        i ← from_option (UVal_int (entry v)); store_cell where_ (Cell_INTVAL i)
    | STACK_ENTRY_FLOAT =>
        n ← from_option (UVal_num (entry v)); store_cell where_ (Cell_FLOATVAL n)
    | STACK_ENTRY_ACTION | STACK_ENTRY_PMC =>
        p ← from_option (UVal_pmc (entry v)); store_cell where_ (Cell_ptr p)
    | STACK_ENTRY_STRING =>
        s ← from_option (UVal_str (entry v)); store_cell where_ (Cell_ptr s)
    | STACK_ENTRY_POINTER | STACK_ENTRY_DESTINATION =>
        p ← from_option (UVal_ptr (entry v)); store_cell where_ (Cell_ptr p)
    | _ => internal_exception ERROR_BAD_STACK_TYPE wrong_type_msg
    end;;
    mret where_.

(** *** [stack_peek] and [get_entry_type] *)

(** The integer a variable of type [Stack_entry_type] holds for an
    enumerator.  The declaration of the enumeration is not part of the
    sources: [0] is the value [stack_pop] tests for, and the eight tags are
    numbered apart from it and from each other; no statement depends on
    which numbers they are. *)
Definition Stack_entry_type_value (t : Stack_entry_type) : Z :=
  match t with
  | NO_STACK_ENTRY_TYPE => 0
  | STACK_ENTRY_INT => 1
  | STACK_ENTRY_FLOAT => 2
  | STACK_ENTRY_STRING => 3
  | STACK_ENTRY_PMC => 4
  | STACK_ENTRY_POINTER => 5
  | STACK_ENTRY_DESTINATION => 6
  | STACK_ENTRY_MARK => 7
  | STACK_ENTRY_ACTION => 8
  end.

(** [type] is the address of a variable of type [Stack_entry_type], or
    null.  [stack_peek] reads the member [UVal_pmc] of the payload whatever
    the tag is, unless the tag is one of the two for which it reads
    [UVal_ptr]; the caller, who knows the tag, takes the result for what it
    is.  How the union lays out its members is not part of the sources:
    [pmc_bits u] and [ptr_bits u] are what these two members read from a
    union [u] whose last written member is another one. *)
Definition stack_peek (word_bits : Z) (pmc_bits ptr_bits : UnionVal → Z)
    (fuel : nat) (stack_base : Z) (type : Z) : M Z :=
  e ← stack_entry word_bits fuel stack_base 0;
  if decide (e = NULL) then mret NULL
  else
    (if decide (type ≠ NULL) then
       v ← load_entry e;
       store_cell type (Cell_INTVAL (Stack_entry_type_value (entry_type v)))
     else mret tt);;
    v ← load_entry e;
    match entry_type v with
    | STACK_ENTRY_POINTER | STACK_ENTRY_DESTINATION =>
        mret (default (ptr_bits (entry v)) (UVal_ptr (entry v)))
    | _ => mret (default (pmc_bits (entry v)) (UVal_pmc (entry v)))
    end.

Definition get_entry_type (e : Z) : M Stack_entry_type :=
  v ← load_entry e; mret (entry_type v).

(** *** The cleanup routines: [stack_pop] and [pop_dest]

    [stack_pop] calls the routine of the detached entry through the pointer
    the entry holds, [entry->cleanup] applied to [(interp, entry)], and
    reads the value from the entry after the call.  The routines are not part of the
    sources, and the interpreter and the entry they are handed are theirs to
    write.  Here they are a parameter: [routine f e] is what the routine at
    [f] does when it is called on [(interp, e)].  The call is put on the
    trace, and the routine starts from there.  [call_cleanup] and
    [stack_pop] above are the case of routines that return at once. *)
Module Routines.

Section Calls.

Variable routine : Z → Z → M unit.

Definition call_cleanup (f e : Z) : M unit :=
  λ itp, routine f e (mkInterp (chunks itp) (memory itp) (user_stack_var itp)
                               (events itp ++ [Cleanup_call f e])).

Definition stack_pop (stack_p : Z) (where_ : Z) (type : Stack_entry_type) : M Z :=
  e ← stack_prepare_pop stack_p;
  (* Types of 0 mean we don't care *)
  v ← load_entry e;
  (if decide (type ≠ NO_STACK_ENTRY_TYPE ∧ entry_type v ≠ type)
   then internal_exception ERROR_BAD_STACK_TYPE wrong_type_msg
   else mret tt);;
  (* Cleanup routine? *)
  v ← load_entry e;
  (if decide (cleanup v ≠ STACK_CLEANUP_NULL)
   then call_cleanup (cleanup v) e
   else mret tt);;
  (* Sometimes the caller doesn't care what the value was *)
  if decide (where_ = NULL) then mret NULL
  else
    (* Snag the value *)
    v ← load_entry e;
    match type with
    | STACK_ENTRY_MARK | STACK_ENTRY_INT =>
        i ← from_option (UVal_int (entry v)); store_cell where_ (Cell_INTVAL i)
    | STACK_ENTRY_FLOAT =>
        n ← from_option (UVal_num (entry v)); store_cell where_ (Cell_FLOATVAL n)
    | STACK_ENTRY_ACTION | STACK_ENTRY_PMC =>
        p ← from_option (UVal_pmc (entry v)); store_cell where_ (Cell_ptr p)
    | STACK_ENTRY_STRING =>
        s ← from_option (UVal_str (entry v)); store_cell where_ (Cell_ptr s)
    | STACK_ENTRY_POINTER | STACK_ENTRY_DESTINATION =>
        p ← from_option (UVal_ptr (entry v)); store_cell where_ (Cell_ptr p)
    | _ => internal_exception ERROR_BAD_STACK_TYPE wrong_type_msg
    end;;
    mret where_.

(** [dynamic_env_var] is [&interp->dynamic_env], and [dest] the address of
    the local variable [dest]. *)
Definition pop_dest (dynamic_env_var : Z) (dest : Z) : M Z :=
  stack_pop dynamic_env_var dest STACK_ENTRY_DESTINATION;;
  load_ptr dest.

End Calls.

End Routines.

(** *** [Parrot_dump_dynamic_environment] *)

(** Modelled from the spec: [PIO_eprintf] is the output of the dump, which
    goes "printing, per chunk: running height index, chunk and entry
    addresses, tag, and cleanup identity; for ObjectRef/Action-tagged
    entries additionally prints the referenced object's type and a string
    rendering; for Mark-tagged entries prints the stored integer".  A line
    is recorded with the values [stacks.c] computes for it: the line of a
    chunk, the line of an object (its type and its string come from calls
    through its vtable, which are not part of the sources), the line of a
    mark, and the line of the base (the name of the chunk is a field the
    sources do not show). *)
Inductive Dump_line : Type :=
| Dump_entry (height : Z) (chunk e : Z) (type : Stack_entry_type) (cleanup : Z)
| Dump_PMC (thing : Z)
| Dump_mark (i : Z)
| Dump_base (height : Z) (chunk : Z).

(** The dump ends with what it has printed, or leaves through
    [internal_exception(1, "Control stack damaged")] with what it has
    printed till then; the exception code [1] is none of the named kinds. *)
Inductive Dump_outcome : Type :=
| Dumped (out : list Dump_line)
| Control_stack_damaged (out : list Dump_line)
| Dump_undefined
| Dump_out_of_fuel.

Section Dump.

(** [int] is taken [int_bits] wide, in two's complement; the conversion
    [(int)z] and the decrement wrap round. *)
Variables (word_bits int_bits : Z).

Definition INT_MAX : Z := 2 ^ (int_bits - 1) - 1.

Definition to_int (z : Z) : Z :=
  (z + 2 ^ (int_bits - 1)) mod 2 ^ int_bits - 2 ^ (int_bits - 1).

(** The loop [while (dynamic_env->prev != dynamic_env) { ... dynamic_env =
    dynamic_env->prev; height--; }] and the line of the base after it.  The
    calls it makes only read the state. *)
Fixpoint dump_loop (fuel : nat) (dynamic_env height : Z) (out : list Dump_line)
    (itp : Interp) : Dump_outcome :=
  match fuel with
  | O => Dump_out_of_fuel
  | S fuel' =>
      match load_chunk dynamic_env itp with
      | Returns c _ =>
          if decide (prev c ≠ dynamic_env) then
            match stack_entry word_bits fuel dynamic_env 0 itp with
            | Returns e _ =>
                if decide (e = NULL) then Control_stack_damaged out
                else
                  match load_entry e itp with
                  | Returns v _ =>
                      let out :=
                        out ++ [Dump_entry height dynamic_env e
                                  (entry_type v) (cleanup v)] in
                      let next out :=
                        dump_loop fuel' (prev c) (to_int (height - 1)) out itp in
                      if decide (entry_type v = STACK_ENTRY_PMC
                                 ∨ entry_type v = STACK_ENTRY_ACTION) then
                        match UVal_pmc (entry v) with
                        | Some thing =>
                            if decide (thing = NULL) then Dump_undefined
                            else next (out ++ [Dump_PMC thing])
                        | None => Dump_undefined
                        end
                      else if decide (entry_type v = STACK_ENTRY_MARK) then
                        match UVal_int (entry v) with
                        | Some i => next (out ++ [Dump_mark i])
                        | None => Dump_undefined
                        end
                      else next out
                  | _ => Dump_undefined
                  end
            | Out_of_fuel => Dump_out_of_fuel
            | _ => Dump_undefined
            end
          else Dumped (out ++ [Dump_base height dynamic_env])
      | _ => Dump_undefined
      end
  end.

Definition Parrot_dump_dynamic_environment (fuel : nat) (dynamic_env : Z)
    (itp : Interp) : Dump_outcome :=
  match stack_height word_bits fuel dynamic_env itp with
  | Returns height _ => dump_loop fuel dynamic_env (to_int height) [] itp
  | Out_of_fuel => Dump_out_of_fuel
  | _ => Dump_undefined
  end.

End Dump.

(** ** Vocabulary of the statements *)

(** [stack_chain h top cs base]: in the chunk memory [h], the chunks from
    [top] down are the non-self-linked chunks [cs], in that order, and then
    the self-linked chunk [base].  [length cs] is the height. *)
Inductive stack_chain (h : gmap Z Stack_Chunk_t) : Z → list Z → Z → Prop :=
| chain_base b c :
    chunk_at h b = Some c → prev c = b → stack_chain h b [] b
| chain_cons a c cs b :
    chunk_at h a = Some c → prev c ≠ a → stack_chain h (prev c) cs b →
    stack_chain h a (a :: cs) b.

(** The entry a pointer designates, if any. *)
Definition entry_of (h : gmap Z Stack_Chunk_t) (e : Z) : option Stack_Entry_t :=
  data <$> chunk_at h e.

(** The contents of the entry [stack_entry] finds at a depth, if it finds one. *)
Definition entry_at (word_bits : Z) (fuel : nat) (stack depth : Z) (itp : Interp)
  : option Stack_Entry_t :=
  match (e ← stack_entry word_bits fuel stack depth; load_entry e) itp with
  | Returns v _ => Some v
  | _ => None
  end.

(** What [rotate_entries] leaves in chunk memory, from [h] to [h'], for the
    stack of chunks [cs]: the links of the chunks, and the chunks that are
    not of the stack, are as before; the entry of the chunk at depth [j] is
    given by [f j]. *)
Definition entries_moved (cs : list Z) (h h' : gmap Z Stack_Chunk_t)
    (f : nat → option Stack_Entry_t) : Prop :=
  (∀ a, prev <$> chunk_at h' a = prev <$> chunk_at h a)
  ∧ (∀ a, a ∉ cs → h' !! a = h !! a)
  ∧ (∀ j a, cs !! j = Some a → entry_of h' a = f j).

(** A computation that never leaves through [internal_exception], and one
    that leaves the state as it found it when it returns. *)
Definition never_raises {A} (m : M A) : Prop :=
  ∀ itp k msg itp', m itp ≠ Raises k msg itp'.

Definition read_only {A} (m : M A) : Prop :=
  ∀ itp a itp', m itp = Returns a itp' → itp' = itp.

(** The state with another chunk memory. *)
Definition with_chunks (itp : Interp) (h : gmap Z Stack_Chunk_t) : Interp :=
  mkInterp h (memory itp) (user_stack_var itp) (events itp).

(** The state with more calls to collaborators on its trace. *)
Definition with_events (itp : Interp) (evs : list Event) : Interp :=
  mkInterp (chunks itp) (memory itp) (user_stack_var itp) (events itp ++ evs).

(** The state with another caller memory. *)
Definition with_memory (itp : Interp) (m : gmap Z Cell) : Interp :=
  mkInterp (chunks itp) m (user_stack_var itp) (events itp).

(** The state in which [stack_pop] has detached the top chunk, [c] at the
    address in the variable [stack_p]: the variable designates the chunk
    beneath. *)
Definition detached (itp : Interp) (stack_p : Z) (c : Stack_Chunk_t) : Interp :=
  with_memory itp (<[stack_p := Cell_ptr (prev c)]> (memory itp)).

(** The state in which, further, the cleanup routine of the detached entry
    (at [s]) has been called if there is one. *)
Definition cleaned (itp : Interp) (stack_p s : Z) (c : Stack_Chunk_t) : Interp :=
  if decide (cleanup (data c) ≠ STACK_CLEANUP_NULL)
  then with_events (detached itp stack_p c) [Cleanup_call (cleanup (data c)) s]
  else detached itp stack_p c.

(** The state in which the cleanup routine of the detached entry (at [s])
    is called: the top chunk is detached and the call is on the trace. *)
Definition called (itp : Interp) (stack_p s : Z) (c : Stack_Chunk_t) : Interp :=
  with_events (detached itp stack_p c) [Cleanup_call (cleanup (data c)) s].

(** The state the cleanup routine of the detached entry, if there is one,
    leaves when it returns. *)
Definition cleanup_returns (routine : Z → Z → M unit) (itp : Interp)
    (stack_p s : Z) (c : Stack_Chunk_t) (itp1 : Interp) : Prop :=
  (if decide (cleanup (data c) ≠ STACK_CLEANUP_NULL)
   then routine (cleanup (data c)) s (called itp stack_p s c)
   else Returns tt (detached itp stack_p c)) = Returns tt itp1.

(** The state in which a chunk with the entry [v] has been pushed on the
    stack of top [s] in the variable [stack_p]. *)
Definition pushed (itp : Interp) (stack_p s : Z) (v : Stack_Entry_t) : Interp :=
  mkInterp (<[new_chunk itp := mkChunk s v]> (chunks itp))
           (<[stack_p := Cell_ptr (new_chunk itp)]> (memory itp))
           (user_stack_var itp) (events itp).

(** The payload [stack_push] stores for [thing] under the tag [type], as
    far as the caller memory [m] determines one. *)
Definition thing_payload (m : gmap Z Cell) (thing : Z) (type : Stack_entry_type)
  : option UnionVal :=
  match type with
  | STACK_ENTRY_INT | STACK_ENTRY_MARK =>
      match (if decide (thing = NULL) then None else m !! thing) with
      | Some (Cell_INTVAL i) => Some (U_int i)
      | _ => None
      end
  | STACK_ENTRY_FLOAT =>
      match (if decide (thing = NULL) then None else m !! thing) with
      | Some (Cell_FLOATVAL n) => Some (U_num n)
      | _ => None
      end
  | STACK_ENTRY_ACTION | STACK_ENTRY_PMC => Some (U_pmc thing)
  | STACK_ENTRY_STRING => Some (U_str thing)
  | STACK_ENTRY_POINTER | STACK_ENTRY_DESTINATION => Some (U_ptr thing)
  | NO_STACK_ENTRY_TYPE => None
  end.

(** The payload member of an entry is the one its tag selects. *)
Definition well_tagged (e : Stack_Entry_t) : bool :=
  match entry_type e, entry e with
  | (STACK_ENTRY_INT | STACK_ENTRY_MARK), U_int _
  | STACK_ENTRY_FLOAT, U_num _
  | (STACK_ENTRY_PMC | STACK_ENTRY_ACTION), U_pmc _
  | STACK_ENTRY_STRING, U_str _
  | (STACK_ENTRY_POINTER | STACK_ENTRY_DESTINATION), U_ptr _ => true
  | _, _ => false
  end.

(** A payload as a value in caller memory. *)
Definition cell_of (u : UnionVal) : Cell :=
  match u with
  | U_int i => Cell_INTVAL i
  | U_num n => Cell_FLOATVAL n
  | U_pmc p | U_str p | U_ptr p => Cell_ptr p
  end.

(** What [mark_stack] reports for a chunk that is not the base: the chunk,
    then the object its entry refers to, if it refers to one. *)
Definition marks_of (h : gmap Z Stack_Chunk_t) (chunk : Z) : list Event :=
  Lives chunk ::
  match entry_of h chunk with
  | Some (mkEntry (U_pmc p) STACK_ENTRY_PMC _) =>
      if decide (p ≠ NULL) then [Lives p] else []
  | Some (mkEntry (U_str s) STACK_ENTRY_STRING _) =>
      if decide (s ≠ NULL) then [Lives s] else []
  | _ => []
  end.

(** The entries of the chunks [cs], from the top down. *)
Definition contents (h : gmap Z Stack_Chunk_t) (cs : list Z)
  : list (option Stack_Entry_t) :=
  entry_of h <$> cs.

(** The pointer [stack_peek] answers for an entry whose tag selects a
    pointer member that the switch of [stack_peek] reads. *)
Definition peeked (e : Stack_Entry_t) : option Z :=
  match entry_type e, entry e with
  | (STACK_ENTRY_POINTER | STACK_ENTRY_DESTINATION), U_ptr p => Some p
  | (STACK_ENTRY_PMC | STACK_ENTRY_ACTION), U_pmc p => Some p
  | _, _ => None
  end.

(** The object [mark_stack] reports for an entry, if any. *)
Definition payload_marks (o : option Stack_Entry_t) : list Event :=
  match o with
  | Some (mkEntry (U_pmc p) STACK_ENTRY_PMC _) =>
      if decide (p ≠ NULL) then [Lives p] else []
  | Some (mkEntry (U_str s) STACK_ENTRY_STRING _) =>
      if decide (s ≠ NULL) then [Lives s] else []
  | _ => []
  end.

(** An event that is a report to the tracer. *)
Definition is_Lives (e : Event) : Prop :=
  match e with Lives _ => True | Cleanup_call _ _ => False end.

(** An entry whose lines [Parrot_dump_dynamic_environment] can print: an
    object reference or an action holds an object that is not null, and a
    mark holds an integer. *)
Definition dumpable (e : Stack_Entry_t) : bool :=
  match entry_type e, entry e with
  | (STACK_ENTRY_PMC | STACK_ENTRY_ACTION), U_pmc p => bool_decide (p ≠ NULL)
  | (STACK_ENTRY_PMC | STACK_ENTRY_ACTION), _ => false
  | STACK_ENTRY_MARK, U_int _ => true
  | STACK_ENTRY_MARK, _ => false
  | _, _ => true
  end.

(** The lines of the chunk [a], printed with the index [height]. *)
Definition dump_lines (h : gmap Z Stack_Chunk_t) (height : Z) (a : Z)
  : list Dump_line :=
  match entry_of h a with
  | Some v =>
      Dump_entry height a (STACK_DATAP a) (entry_type v) (cleanup v) ::
      match entry_type v, entry v with
      | (STACK_ENTRY_PMC | STACK_ENTRY_ACTION), U_pmc p => [Dump_PMC p]
      | STACK_ENTRY_MARK, U_int i => [Dump_mark i]
      | _, _ => []
      end
  | None => []
  end.

(** ** A concrete state

    Two stacks in one chunk memory.  The stack in the variable at address
    [10] holds, from the top down, the integers [3], [2] and [1] (pushed in
    the order [1], [2], [3]) in the chunks [103], [102] and [101] over the
    base [100]; its top entry has the cleanup routine [7].  The user stack
    of the current context, in the variable at address [11], holds a null
    string reference and a reference to the object [900], in the chunks
    [202] and [201] over the base [200].  The cell at address [20] holds
    the integer [42]. *)
Definition int_entry (i : Z) (f : Z) : Stack_Entry_t :=
  mkEntry (U_int i) STACK_ENTRY_INT f.

Definition three_ints : Interp :=
  mkInterp
    (<[103 := mkChunk 102 (int_entry 3 7)]>
     (<[102 := mkChunk 101 (int_entry 2 STACK_CLEANUP_NULL)]>
      (<[101 := mkChunk 100 (int_entry 1 STACK_CLEANUP_NULL)]>
       (<[100 := mkChunk 100 uninitialized]>
        (<[202 := mkChunk 201 (mkEntry (U_str NULL) STACK_ENTRY_STRING STACK_CLEANUP_NULL)]>
         (<[201 := mkChunk 200 (mkEntry (U_pmc 900) STACK_ENTRY_PMC STACK_CLEANUP_NULL)]>
          {[200 := mkChunk 200 uninitialized]}))))))
    (<[10 := Cell_ptr 103]> (<[11 := Cell_ptr 202]> {[20 := Cell_INTVAL 42]}))
    11
    [].

(** For the concrete state: the pointer members of a payload read as the
    integer or the pointer the payload holds; a routine that notes in the
    cell at address [40] the entry it is handed; and a routine that clears
    the payload of the entry it is handed. *)
Definition bits_as_pointer (u : UnionVal) : Z :=
  match u with
  | U_int i => i
  | U_num _ => 0
  | U_pmc p | U_str p | U_ptr p => p
  end.

Definition noting_routine (f e : Z) : M unit := store_cell 40 (Cell_ptr e).

Definition clearing_routine (f e : Z) : M unit := store_UVal e (U_int 0).

(** ** Proofs *)

(** *** The monad *)

Lemma bind_Returns {A B} (m : M A) (f : A → M B) itp a itp' :
  m itp = Returns a itp' → (m ≫= f) itp = f a itp'.
Proof. intros E. unfold mbind, M_bind. by rewrite E. Qed.

Lemma bind_Returns_inv {A B} (m : M A) (f : A → M B) itp b itp' :
  (m ≫= f) itp = Returns b itp' →
  ∃ a itp1, m itp = Returns a itp1 ∧ f a itp1 = Returns b itp'.
Proof.
  unfold mbind, M_bind. destruct (m itp) as [a itp1| | |]; try done. eauto.
Qed.

Lemma with_chunks_id itp : with_chunks itp (chunks itp) = itp.
Proof. by destruct itp. Qed.

Lemma with_chunks_twice itp h h' :
  with_chunks (with_chunks itp h) h' = with_chunks itp h'.
Proof. done. Qed.

Lemma load_chunk_Some itp p c :
  chunk_at (chunks itp) p = Some c → load_chunk p itp = Returns c itp.
Proof. intros E. unfold load_chunk, get_interp, mbind, M_bind. by rewrite E. Qed.

Lemma load_chunk_Returns itp p c itp' :
  load_chunk p itp = Returns c itp' →
  itp' = itp ∧ chunk_at (chunks itp) p = Some c.
Proof.
  unfold load_chunk, get_interp, mbind, M_bind, from_option.
  destruct (chunk_at (chunks itp) p); [|done]. by intros [= -> ->].
Qed.

Lemma load_entry_Some itp p c :
  chunk_at (chunks itp) p = Some c → load_entry p itp = Returns (data c) itp.
Proof.
  intros E. unfold load_entry. by rewrite (bind_Returns _ _ _ _ _ (load_chunk_Some _ _ _ E)).
Qed.

Lemma store_entry_Some itp p c v :
  chunk_at (chunks itp) p = Some c →
  store_entry p v itp
  = Returns tt (with_chunks itp (<[p := mkChunk (prev c) v]> (chunks itp))).
Proof.
  intros E. unfold store_entry.
  rewrite (bind_Returns _ _ _ _ _ (load_chunk_Some _ _ _ E)).
  unfold store_chunk. by rewrite E.
Qed.

(** *** Machine integers *)

Section Words.

Variable word_bits : Z.
Hypothesis word_bits_pos : 0 < word_bits.

Lemma two_pow_word : 2 ^ word_bits = 2 * 2 ^ (word_bits - 1).
Proof.
  rewrite <- Z.pow_succ_r by lia. f_equal. lia.
Qed.

Lemma two_pow_half_pos : 0 < 2 ^ (word_bits - 1).
Proof. apply Z.pow_pos_nonneg; lia. Qed.

Lemma to_size_t_small z :
  0 ≤ z < 2 ^ word_bits → to_size_t word_bits z = z.
Proof. intros. unfold to_size_t. by apply Z.mod_small. Qed.

Lemma to_INTVAL_small z :
  INTVAL_MIN word_bits ≤ z ≤ INTVAL_MAX word_bits → to_INTVAL word_bits z = z.
Proof.
  unfold INTVAL_MIN, INTVAL_MAX, to_INTVAL. intros.
  pose proof two_pow_word. pose proof two_pow_half_pos.
  rewrite Z.mod_small; lia.
Qed.

Lemma to_size_t_INTVAL z :
  0 ≤ z ≤ INTVAL_MAX word_bits → to_size_t word_bits z = z.
Proof.
  unfold INTVAL_MAX. intros. pose proof two_pow_word. pose proof two_pow_half_pos.
  apply to_size_t_small. lia.
Qed.

Lemma to_size_t_range z : 0 ≤ to_size_t word_bits z < 2 ^ word_bits.
Proof.
  unfold to_size_t. apply Z.mod_pos_bound.
  pose proof two_pow_word. pose proof two_pow_half_pos. lia.
Qed.

Lemma to_INTVAL_range z :
  INTVAL_MIN word_bits ≤ to_INTVAL word_bits z ≤ INTVAL_MAX word_bits.
Proof.
  unfold INTVAL_MIN, INTVAL_MAX, to_INTVAL.
  pose proof two_pow_word. pose proof two_pow_half_pos.
  pose proof (Z.mod_pos_bound (z + 2 ^ (word_bits - 1)) (2 ^ word_bits)). lia.
Qed.

Lemma INTVAL_MAX_size_t z :
  z ≤ INTVAL_MAX word_bits → z < 2 ^ word_bits.
Proof.
  unfold INTVAL_MAX. pose proof two_pow_word. pose proof two_pow_half_pos. lia.
Qed.

Lemma INTVAL_MIN_neg : INTVAL_MIN word_bits < 0.
Proof. unfold INTVAL_MIN. pose proof two_pow_half_pos. lia. Qed.

End Words.

(** *** Chains of chunks *)

Lemma stack_chain_top h s cs b :
  stack_chain h s cs b → head (cs ++ [b]) = Some s.
Proof. by destruct 1. Qed.

Lemma stack_chain_det h s cs b cs' b' :
  stack_chain h s cs b → stack_chain h s cs' b' → cs = cs' ∧ b = b'.
Proof.
  intros H. revert cs' b'.
  induction H as [b c Hc Hp | a c cs b Hc Hp H IH]; intros cs' b' H'.
  - inversion H'; subst; [done | congruence].
  - inversion H'; subst; [congruence |].
    assert (c0 = c) as -> by congruence.
    destruct (IH _ _ ltac:(eassumption)) as [-> ->]. done.
Qed.

(** From any chunk of a chain, the rest of the chain is a chain. *)
Lemma stack_chain_suffix h s cs b i a :
  stack_chain h s cs b → (cs ++ [b]) !! i = Some a →
  stack_chain h a (drop i cs) b.
Proof.
  intros H. revert i.
  induction H as [b c Hc Hp | a' c cs b Hc Hp H IH]; intros i Hi.
  - destruct i as [|i]; simpl in *; [|by destruct i].
    injection Hi as <-. by econstructor.
  - destruct i as [|i]; simpl in *.
    + injection Hi as <-. by econstructor.
    + by apply IH.
Qed.

Lemma stack_chain_NoDup h s cs b :
  stack_chain h s cs b → NoDup (cs ++ [b]).
Proof.
  induction 1 as [b c Hc Hp | a c cs b Hc Hp H IH]; simpl.
  - apply NoDup_singleton.
  - apply NoDup_cons. split; [|done].
    intros [i Hi]%list_elem_of_lookup.
    pose proof (stack_chain_suffix _ _ _ _ _ _ H Hi) as Hsuf.
    assert (stack_chain h a (a :: cs) b) as Hfull by by econstructor.
    destruct (stack_chain_det _ _ _ _ _ _ Hfull Hsuf) as [Heq _].
    apply (f_equal length) in Heq. rewrite length_drop in Heq. simpl in Heq. lia.
Qed.

(** The chunk at a depth, and the chunk beneath it. *)
Lemma stack_chain_lookup h s cs b i a :
  stack_chain h s cs b → cs !! i = Some a →
  ∃ c, chunk_at h a = Some c ∧ prev c ≠ a ∧ (cs ++ [b]) !! S i = Some (prev c).
Proof.
  intros H. revert i.
  induction H as [b c Hc Hp | a' c cs b Hc Hp H IH]; intros i Hi; [done|].
  destruct i as [|i]; simpl in *.
  - injection Hi as <-. exists c. repeat split; try done.
    by rewrite <- (stack_chain_top _ _ _ _ H), head_lookup.
  - by apply IH.
Qed.

Lemma stack_chain_base h s cs b :
  stack_chain h s cs b → ∃ c, chunk_at h b = Some c ∧ prev c = b.
Proof. induction 1; eauto. Qed.

(** A chain only depends on the links of its chunks. *)
Lemma stack_chain_links h h' s cs b :
  (∀ a, prev <$> chunk_at h' a = prev <$> chunk_at h a) →
  stack_chain h s cs b → stack_chain h' s cs b.
Proof.
  intros Hl. induction 1 as [b c Hc Hp | a c cs b Hc Hp H IH].
  - specialize (Hl b). rewrite Hc in Hl.
    destruct (chunk_at h' b) as [c'|] eqn:E; [|done].
    injection Hl as Hl. econstructor; [done | congruence].
  - specialize (Hl a). rewrite Hc in Hl.
    destruct (chunk_at h' a) as [c'|] eqn:E; [|done].
    injection Hl as Hl. econstructor; [done | congruence | by rewrite Hl].
Qed.

Lemma chunk_at_insert h p c q :
  p ≠ NULL →
  chunk_at (<[p := c]> h) q = if decide (p = q) then Some c else chunk_at h q.
Proof.
  intros Hp. unfold chunk_at.
  destruct (decide (p = q)) as [<-|Hne].
  - rewrite decide_False by done. by rewrite lookup_insert_eq.
  - destruct (decide (q = NULL)); [done|]. by rewrite lookup_insert_ne.
Qed.

Lemma chunk_at_not_NULL h p c : chunk_at h p = Some c → p ≠ NULL.
Proof. unfold chunk_at. by destruct (decide (p = NULL)). Qed.

(** *** [stack_height] and [stack_entry] on a chain *)

Section Traversal.

Variable word_bits : Z.
Hypothesis word_bits_pos : 0 < word_bits.

Lemma stack_height_loop_chain itp s cs b fuel acc :
  stack_chain (chunks itp) s cs b →
  (length cs < fuel)%nat →
  0 ≤ acc → acc + Z.of_nat (length cs) < 2 ^ word_bits →
  stack_height_loop word_bits fuel s acc itp
  = Returns (acc + Z.of_nat (length cs)) itp.
Proof.
  intros H. revert fuel acc.
  induction H as [b c Hc Hp | a c cs b Hc Hp H IH]; intros fuel acc Hf Ha Hw;
    (destruct fuel as [|fuel]; [simpl in Hf; lia|]); simpl in *.
  - rewrite (bind_Returns _ _ _ _ _ (load_chunk_Some _ _ _ Hc)).
    rewrite decide_True by done. unfold mret, M_ret. f_equal. lia.
  - rewrite (bind_Returns _ _ _ _ _ (load_chunk_Some _ _ _ Hc)).
    rewrite decide_False by done.
    rewrite to_size_t_small by lia.
    rewrite IH by lia. f_equal. lia.
Qed.

Lemma stack_height_chain itp s cs b fuel :
  stack_chain (chunks itp) s cs b →
  (length cs < fuel)%nat →
  Z.of_nat (length cs) < 2 ^ word_bits →
  stack_height word_bits fuel s itp = Returns (Z.of_nat (length cs)) itp.
Proof.
  intros. unfold stack_height.
  by rewrite (stack_height_loop_chain _ _ _ _ _ _ ltac:(eassumption)) by lia.
Qed.

(** Conversely, where [stack_height] returns there is a chain: the chains
    are the stacks the code can measure. *)
Lemma stack_height_loop_returns fuel :
  ∀ itp s acc h itp',
    stack_height_loop word_bits fuel s acc itp = Returns h itp' →
    ∃ cs b, stack_chain (chunks itp) s cs b ∧ (length cs < fuel)%nat.
Proof.
  induction fuel as [|fuel IH]; intros itp s acc h itp'; simpl;
    [by unfold out_of_fuel|].
  intros E. apply bind_Returns_inv in E as (c & itp1 & Hc & E).
  apply load_chunk_Returns in Hc as [-> Hc].
  destruct (decide (s = prev c)) as [Heq|Hne].
  - exists [], s. split; [by econstructor | simpl; lia].
  - destruct (IH _ _ _ _ _ E) as (cs & b & H & Hlen).
    exists (s :: cs), b. split; [by econstructor | simpl; lia].
Qed.

Lemma stack_entry_loop_chain itp s cs b k a :
  stack_chain (chunks itp) s cs b →
  (cs ++ [b]) !! (k `min` length cs)%nat = Some a →
  stack_entry_loop k s itp = Returns a itp.
Proof.
  intros H. revert k.
  induction H as [b c Hc Hp | a' c cs b Hc Hp H IH]; intros k Hk.
  - rewrite Nat.min_0_r in Hk. injection Hk as <-.
    destruct k as [|k]; simpl; [done|].
    rewrite (bind_Returns _ _ _ _ _ (load_chunk_Some _ _ _ Hc)).
    by rewrite decide_True.
  - destruct k as [|k]; simpl in *; [by injection Hk as <-|].
    rewrite (bind_Returns _ _ _ _ _ (load_chunk_Some _ _ _ Hc)).
    rewrite decide_False by done. by apply IH.
Qed.

Lemma stack_entry_from_found itp s cs b offset a :
  stack_chain (chunks itp) s cs b →
  cs !! Z.to_nat offset = Some a →
  stack_entry_from s offset itp = Returns a itp.
Proof.
  intros H Ha. unfold stack_entry_from.
  pose proof (lookup_lt_Some _ _ _ Ha) as Hlt.
  assert (stack_entry_loop (Z.to_nat offset) s itp = Returns a itp) as E.
  { eapply stack_entry_loop_chain; [done|].
    rewrite Nat.min_l by lia. by rewrite lookup_app_l. }
  rewrite (bind_Returns _ _ _ _ _ E).
  destruct (stack_chain_lookup _ _ _ _ _ _ H Ha) as (c & Hc & Hp & _).
  rewrite (bind_Returns _ _ _ _ _ (load_chunk_Some _ _ _ Hc)).
  by rewrite decide_False.
Qed.

Lemma stack_entry_from_beyond itp s cs b offset :
  stack_chain (chunks itp) s cs b →
  (length cs ≤ Z.to_nat offset)%nat →
  stack_entry_from s offset itp = Returns NULL itp.
Proof.
  intros H Hle. unfold stack_entry_from.
  assert (stack_entry_loop (Z.to_nat offset) s itp = Returns b itp) as E.
  { eapply stack_entry_loop_chain; [done|].
    rewrite Nat.min_r by lia. rewrite lookup_app_r by done.
    by rewrite Nat.sub_diag. }
  rewrite (bind_Returns _ _ _ _ _ E).
  destruct (stack_chain_base _ _ _ _ H) as (c & Hc & Hp).
  rewrite (bind_Returns _ _ _ _ _ (load_chunk_Some _ _ _ Hc)).
  by rewrite decide_True.
Qed.

(** For a depth that is not negative, [stack_entry] is its walk. *)
Lemma stack_entry_nonneg fuel stack depth itp :
  0 ≤ depth ≤ INTVAL_MAX word_bits →
  stack_entry word_bits fuel stack depth itp = stack_entry_from stack depth itp.
Proof.
  intros. unfold stack_entry. rewrite decide_False by lia.
  by rewrite to_size_t_INTVAL.
Qed.

Lemma stack_entry_found fuel itp s cs b depth a :
  stack_chain (chunks itp) s cs b →
  0 ≤ depth ≤ INTVAL_MAX word_bits →
  cs !! Z.to_nat depth = Some a →
  stack_entry word_bits fuel s depth itp = Returns a itp.
Proof.
  intros. rewrite stack_entry_nonneg by done. by eapply stack_entry_from_found.
Qed.

Lemma stack_entry_beyond fuel itp s cs b depth :
  stack_chain (chunks itp) s cs b →
  Z.of_nat (length cs) ≤ depth ≤ INTVAL_MAX word_bits →
  stack_entry word_bits fuel s depth itp = Returns NULL itp.
Proof.
  intros. rewrite stack_entry_nonneg by lia.
  eapply stack_entry_from_beyond; [done | lia].
Qed.

(** The entry found at a depth is the entry of the chunk at that depth. *)
Lemma entry_at_chain fuel itp s cs b depth :
  stack_chain (chunks itp) s cs b →
  0 ≤ depth ≤ INTVAL_MAX word_bits →
  entry_at word_bits fuel s depth itp
  = cs !! Z.to_nat depth ≫= entry_of (chunks itp).
Proof.
  intros H Hd. unfold entry_at.
  destruct (cs !! Z.to_nat depth) as [a|] eqn:Ha; simpl.
  - rewrite (bind_Returns _ _ _ _ _ (stack_entry_found _ _ _ _ _ _ _ H Hd Ha)).
    destruct (stack_chain_lookup _ _ _ _ _ _ H Ha) as (c & Hc & _).
    rewrite (load_entry_Some _ _ _ Hc). unfold entry_of. by rewrite Hc.
  - apply lookup_ge_None in Ha.
    assert (Z.of_nat (length cs) ≤ depth ≤ INTVAL_MAX word_bits) as Hb by lia.
    by rewrite (bind_Returns _ _ _ _ _ (stack_entry_beyond fuel _ _ _ _ depth H Hb)).
Qed.

End Traversal.

(** *** [stack_pop] *)

Lemma load_ptr_Some itp p q :
  p ≠ NULL → memory itp !! p = Some (Cell_ptr q) → load_ptr p itp = Returns q itp.
Proof.
  intros Hp E. unfold load_ptr, load_cell, get_interp, mbind, M_bind.
  rewrite decide_False by done. by rewrite E.
Qed.

Lemma store_cell_ok itp p v :
  p ≠ NULL →
  store_cell p v itp = Returns tt (with_memory itp (<[p := v]> (memory itp))).
Proof. intros. unfold store_cell. by rewrite decide_False. Qed.

Lemma stack_prepare_pop_ok itp stack_p s c :
  stack_p ≠ NULL → memory itp !! stack_p = Some (Cell_ptr s) →
  chunk_at (chunks itp) s = Some c → prev c ≠ s →
  stack_prepare_pop stack_p itp
  = Returns s (with_memory itp (<[stack_p := Cell_ptr (prev c)]> (memory itp))).
Proof.
  intros Hp Hm Hc Hl. unfold stack_prepare_pop.
  rewrite (bind_Returns _ _ _ _ _ (load_ptr_Some _ _ _ Hp Hm)).
  rewrite (bind_Returns _ _ _ _ _ (load_chunk_Some _ _ _ Hc)).
  rewrite decide_False by done.
  by rewrite (bind_Returns _ _ _ _ _ (store_cell_ok _ _ _ Hp)).
Qed.

Section Pop.

Variables (itp : Interp) (stack_p s : Z) (c : Stack_Chunk_t).
Hypothesis stack_p_valid : stack_p ≠ NULL.
Hypothesis stack_p_top : memory itp !! stack_p = Some (Cell_ptr s).
Hypothesis top_chunk : chunk_at (chunks itp) s = Some c.
Hypothesis top_not_base : prev c ≠ s.


Lemma stack_pop_mismatch where_ type :
  type ≠ NO_STACK_ENTRY_TYPE → entry_type (data c) ≠ type →
  stack_pop stack_p where_ type itp
  = Raises ERROR_BAD_STACK_TYPE wrong_type_msg (detached itp stack_p c).
Proof.
  intros Ht Hne. unfold stack_pop.
  rewrite (bind_Returns _ _ _ _ _
             (stack_prepare_pop_ok _ _ _ _ stack_p_valid stack_p_top top_chunk top_not_base)).
  assert (chunk_at (chunks (detached itp stack_p c)) s = Some c) as Hc1 by done.
  rewrite (bind_Returns _ _ _ _ _ (load_entry_Some _ _ _ Hc1)).
  destruct (decide (type ≠ NO_STACK_ENTRY_TYPE ∧ entry_type (data c) ≠ type))
    as [_|[]]; [reflexivity | by split].
Qed.

(** After a type check that passes, [stack_pop] goes on from [(cleaned itp stack_p s c)]. *)
Lemma stack_pop_checked where_ type :
  type = NO_STACK_ENTRY_TYPE ∨ entry_type (data c) = type →
  stack_pop stack_p where_ type itp
  = (if decide (where_ = NULL) then mret NULL
     else
       match type with
       | STACK_ENTRY_MARK | STACK_ENTRY_INT =>
           i ← from_option (UVal_int (entry (data c)));
           store_cell where_ (Cell_INTVAL i)
       | STACK_ENTRY_FLOAT =>
           n ← from_option (UVal_num (entry (data c)));
           store_cell where_ (Cell_FLOATVAL n)
       | STACK_ENTRY_ACTION | STACK_ENTRY_PMC =>
           p ← from_option (UVal_pmc (entry (data c)));
           store_cell where_ (Cell_ptr p)
       | STACK_ENTRY_STRING =>
           p ← from_option (UVal_str (entry (data c)));
           store_cell where_ (Cell_ptr p)
       | STACK_ENTRY_POINTER | STACK_ENTRY_DESTINATION =>
           p ← from_option (UVal_ptr (entry (data c)));
           store_cell where_ (Cell_ptr p)
       | _ => internal_exception ERROR_BAD_STACK_TYPE wrong_type_msg
       end;;
       mret where_) (cleaned itp stack_p s c).
Proof.
  intros Ht. unfold stack_pop.
  rewrite (bind_Returns _ _ _ _ _
             (stack_prepare_pop_ok _ _ _ _ stack_p_valid stack_p_top top_chunk top_not_base)).
  assert (chunk_at (chunks (detached itp stack_p c)) s = Some c) as Hc1 by done.
  rewrite (bind_Returns _ _ _ _ _ (load_entry_Some _ _ _ Hc1)).
  destruct (decide (type ≠ NO_STACK_ENTRY_TYPE ∧ entry_type (data c) ≠ type))
    as [[]|_]; [by destruct Ht|].
  rewrite (bind_Returns (mret tt) _ (detached itp stack_p c) tt (detached itp stack_p c) eq_refl).
  rewrite (bind_Returns _ _ _ _ _ (load_entry_Some _ _ _ Hc1)).
  assert ((if decide (cleanup (data c) ≠ STACK_CLEANUP_NULL)
           then call_cleanup (cleanup (data c)) s else mret tt) (detached itp stack_p c)
          = Returns tt (cleaned itp stack_p s c)) as Hcl.
  { unfold cleaned. by destruct (decide (cleanup (data c) ≠ STACK_CLEANUP_NULL)). }
  rewrite (bind_Returns _ _ _ _ _ Hcl).
  destruct (decide (where_ = NULL)); [done|].
  assert (chunk_at (chunks (cleaned itp stack_p s c)) s = Some c) as Hc2.
  { unfold cleaned. by destruct (decide (cleanup (data c) ≠ STACK_CLEANUP_NULL)). }
  by rewrite (bind_Returns _ _ _ _ _ (load_entry_Some _ _ _ Hc2)).
Qed.



Lemma stack_pop_copy where_ :
  where_ ≠ NULL → well_tagged (data c) = true →
  stack_pop stack_p where_ (entry_type (data c)) itp
  = Returns where_
      (with_memory (cleaned itp stack_p s c) (<[where_ := cell_of (entry (data c))]> (memory (cleaned itp stack_p s c)))).
Proof.
  intros Hw Hwt. rewrite stack_pop_checked by by right.
  rewrite decide_False by done.
  unfold well_tagged in Hwt.
  destruct (entry_type (data c)), (entry (data c)); try discriminate Hwt;
    unfold mbind, M_bind, store_cell; simpl; by rewrite decide_False.
Qed.

End Pop.

(** *** [stack_push] *)

Lemma new_chunk_fresh itp : chunks itp !! new_chunk itp = None ∧ new_chunk itp ≠ NULL.
Proof.
  pose proof (is_fresh (dom (chunks itp) ∪ {[NULL]})) as H.
  fold (new_chunk itp) in H. split.
  - apply not_elem_of_dom. set_solver.
  - set_solver.
Qed.

Lemma stack_prepare_push_ok itp stack_p s :
  stack_p ≠ NULL → memory itp !! stack_p = Some (Cell_ptr s) →
  stack_prepare_push stack_p itp
  = Returns (new_chunk itp) (pushed itp stack_p s uninitialized).
Proof.
  intros Hp Hm. unfold stack_prepare_push.
  rewrite (bind_Returns _ _ _ _ _ (load_ptr_Some _ _ _ Hp Hm)).
  unfold get_interp, alloc_chunk, mbind, M_bind, store_cell. simpl.
  by rewrite decide_False.
Qed.

Lemma store_entry_field itp e c (f : Stack_Entry_t → Stack_Entry_t) :
  chunk_at (chunks itp) e = Some c →
  (v ← load_entry e; store_entry e (f v)) itp
  = Returns tt (with_chunks itp (<[e := mkChunk (prev c) (f (data c))]> (chunks itp))).
Proof.
  intros Hc. rewrite (bind_Returns _ _ _ _ _ (load_entry_Some _ _ _ Hc)).
  by apply store_entry_Some.
Qed.

Lemma stack_push_prefix {A} itp stack_p s type f (k : Z → M A) :
  stack_p ≠ NULL → memory itp !! stack_p = Some (Cell_ptr s) →
  (e ← stack_prepare_push stack_p;
   store_entry_type e type;; store_cleanup e f;; k e) itp
  = k (new_chunk itp) (pushed itp stack_p s (mkEntry (U_int 0) type f)).
Proof.
  intros Hp Hm. destruct (new_chunk_fresh itp) as [Hf Hn].
  rewrite (bind_Returns _ _ _ _ _ (stack_prepare_push_ok _ _ _ Hp Hm)).
  unfold store_entry_type, store_cleanup.
  erewrite bind_Returns; cycle 1.
  { apply store_entry_field. simpl. rewrite chunk_at_insert by done. by rewrite decide_True. }
  erewrite bind_Returns; cycle 1.
  { apply store_entry_field. simpl. rewrite chunk_at_insert by done. by rewrite decide_True. }
  unfold with_chunks, pushed. simpl. by rewrite !insert_insert_eq.
Qed.

Lemma store_UVal_pushed itp stack_p s v u :
  store_UVal (new_chunk itp) u (pushed itp stack_p s v)
  = Returns tt (pushed itp stack_p s (mkEntry u (entry_type v) (cleanup v))).
Proof.
  destruct (new_chunk_fresh itp) as [Hf Hn].
  unfold store_UVal. erewrite store_entry_field; cycle 1.
  { simpl. rewrite chunk_at_insert by done. by rewrite decide_True. }
  unfold with_chunks, pushed. simpl. by rewrite !insert_insert_eq.
Qed.

Lemma stack_push_spec itp stack_p s thing type f :
  stack_p ≠ NULL → memory itp !! stack_p = Some (Cell_ptr s) →
  match thing_payload (<[stack_p := Cell_ptr (new_chunk itp)]> (memory itp)) thing type with
  | Some u =>
      stack_push stack_p thing type f itp
      = Returns tt (pushed itp stack_p s (mkEntry u type f))
  | None => ∀ itp1, stack_push stack_p thing type f itp ≠ Returns tt itp1
  end.
Proof.
  intros Hp Hm. unfold stack_push.
  rewrite (stack_push_prefix _ _ _ _ _ _ Hp Hm).
  unfold thing_payload, load_INTVAL, load_FLOATVAL, load_cell, get_interp.
  destruct type; try (by apply store_UVal_pushed); try done;
    unfold mbind, M_bind; simpl;
    (destruct (decide (thing = NULL)); [done|]);
    (destruct (_ !! thing) as [[]|]; try done); by apply store_UVal_pushed.
Qed.

Lemma thing_payload_well_tagged m thing type u f :
  thing_payload m thing type = Some u → well_tagged (mkEntry u type f) = true.
Proof.
  unfold thing_payload, well_tagged. simpl.
  destruct type; try done;
    try (by intros [= <-]);
    (destruct (decide (thing = NULL)); [done|]);
    (destruct (m !! thing) as [[]|]; try done); by intros [= <-].
Qed.

(** What [stack_push] reads through [thing] is read from a cell other than
    the stack variable, which holds a pointer. *)
Lemma thing_payload_stack_variable m stack_p q thing type u :
  thing_payload (<[stack_p := Cell_ptr q]> m) thing type = Some u →
  thing_payload m thing type = Some u.
Proof.
  unfold thing_payload.
  destruct type; try done;
    (destruct (decide (thing = NULL)); [done|]);
    (destruct (decide (stack_p = thing)) as [<-|];
     [by rewrite lookup_insert_eq | by rewrite lookup_insert_ne]).
Qed.

Lemma stack_chain_insert_fresh h s cs b p c :
  h !! p = None → stack_chain h s cs b → stack_chain (<[p := c]> h) s cs b.
Proof.
  intros Hp. induction 1 as [b c' Hc Hl | a c' cs b Hc Hl H IH].
  - econstructor; [|done]. unfold chunk_at in *.
    destruct (decide (b = NULL)); [done|].
    rewrite lookup_insert_ne; [done | congruence].
  - econstructor; [|done..]. unfold chunk_at in *.
    destruct (decide (a = NULL)); [done|].
    rewrite lookup_insert_ne; [done | congruence].
Qed.

Lemma stack_chain_top_chunk h s cs b :
  stack_chain h s cs b → is_Some (chunk_at h s).
Proof. destruct 1; eauto. Qed.

(** [stack_push] puts one chunk on top of the chain. *)
Lemma stack_chain_pushed itp stack_p s cs b v :
  stack_chain (chunks itp) s cs b →
  stack_chain (chunks (pushed itp stack_p s v)) (new_chunk itp) (new_chunk itp :: cs) b.
Proof.
  intros H. destruct (new_chunk_fresh itp) as [Hf Hn].
  destruct (stack_chain_top_chunk _ _ _ _ H) as [c Hc].
  eapply (chain_cons _ _ (mkChunk s v)); simpl.
  - rewrite chunk_at_insert by done. by rewrite decide_True.
  - intros ->. unfold chunk_at in Hc. destruct (decide (new_chunk itp = NULL)); congruence.
  - by apply stack_chain_insert_fresh.
Qed.

(** *** The bounds of the counted loops

    The loops of [rotate_entries] are given their iteration count as
    bound: a larger bound gives the same computation, so the bound cuts no
    iteration off. *)

Lemma for_down_bound word_bits count body :
  0 < word_bits →
  ∀ i itp,
    i ≤ INTVAL_MAX word_bits → (Z.to_nat i ≤ count)%nat →
    for_down word_bits count i body itp
    = for_down word_bits (Z.to_nat i) i body itp.
Proof.
  intros Hw. pose proof (INTVAL_MIN_neg _ Hw) as Hmin.
  induction count as [|count IH]; intros i itp Hi Hc.
  - by replace (Z.to_nat i) with 0%nat by lia.
  - destruct (decide (i > 0)) as [Hpos|Hzero].
    + replace (Z.to_nat i) with (S (Z.to_nat (i - 1))) by lia. simpl.
      rewrite !decide_True by done.
      rewrite (to_INTVAL_small _ Hw) by lia.
      unfold mbind, M_bind. destruct (body i itp); try done.
      apply IH; lia.
    + replace (Z.to_nat i) with 0%nat by lia. simpl.
      by rewrite decide_False.
Qed.

Lemma for_up_bound word_bits count depth body :
  0 < word_bits →
  ∀ i itp,
    INTVAL_MIN word_bits ≤ i → depth ≤ INTVAL_MAX word_bits →
    (Z.to_nat (depth - i) ≤ count)%nat →
    for_up word_bits count i depth body itp
    = for_up word_bits (Z.to_nat (depth - i)) i depth body itp.
Proof.
  intros Hw.
  induction count as [|count IH]; intros i itp Hi Hd Hc.
  - by replace (Z.to_nat (depth - i)) with 0%nat by lia.
  - destruct (decide (i < depth)) as [Hlt|Hge].
    + replace (Z.to_nat (depth - i)) with (S (Z.to_nat (depth - (i + 1)))) by lia.
      simpl. rewrite !decide_True by done.
      rewrite (to_INTVAL_small _ Hw) by lia.
      unfold mbind, M_bind. destruct (body i itp); try done.
      apply IH; lia.
    + replace (Z.to_nat (depth - i)) with 0%nat by lia. simpl.
      by rewrite decide_False.
Qed.

(** ** [stack_pop]: the type test, the cleanup routine, the value *)


(** C10.  When [stack_pop] raises [ERROR_BAD_STACK_TYPE] because [type] is
    not [0] and differs from the tag of the top entry, the state at the
    raise has the top chunk detached: the stack variable designates the
    chunk beneath, from which the height is one less than before the call;
    and no cleanup routine has been called, whatever the entry carries. *)
Theorem stack_pop_mismatch_detached word_bits fuel itp stack_p s cs b c where_ type :
  0 < word_bits →
  stack_p ≠ NULL →
  memory itp !! stack_p = Some (Cell_ptr s) →
  stack_chain (chunks itp) s cs b →
  (length cs < fuel)%nat →
  Z.of_nat (length cs) < 2 ^ word_bits →
  chunk_at (chunks itp) s = Some c →
  prev c ≠ s →
  type ≠ NO_STACK_ENTRY_TYPE →
  entry_type (data c) ≠ type →
  ∃ msg itp',
    stack_pop stack_p where_ type itp = Raises ERROR_BAD_STACK_TYPE msg itp'
    ∧ stack_height word_bits fuel s itp = Returns (Z.of_nat (length cs)) itp
    ∧ memory itp' !! stack_p = Some (Cell_ptr (prev c))
    ∧ stack_height word_bits fuel (prev c) itp'
      = Returns (Z.of_nat (length cs) - 1) itp'
    ∧ events itp' = events itp.
Proof.
  intros Hw Hp Hm Hch Hf Hlen Hc Hl Ht Hne.
  eexists _, _. split; [by eapply stack_pop_mismatch|].
  split; [by eapply stack_height_chain|].
  split; [by apply lookup_insert_eq|].
  split; [|done].
  inversion Hch as [|a c' cs' b' Hc' Hl' Hch']; subst; [congruence|].
  assert (c' = c) as -> by congruence.
  erewrite stack_height_chain; [| done | exact Hch' | simpl in *; lia..].
  f_equal. simpl. lia.
Qed.

(** *** [stack_pop] with the routines as a parameter *)

(** [stack_pop] above is [Routines.stack_pop] for routines that return at
    once. *)
Lemma stack_pop_returning : Routines.stack_pop (λ _ _, mret tt) = stack_pop.
Proof. reflexivity. Qed.

(** What [stack_push] reads through [thing] it reads as well once the stack
    variable, which holds a pointer, has been assigned. *)
Lemma thing_payload_insert_stack_variable m stack_p s q thing type u :
  m !! stack_p = Some (Cell_ptr s) →
  thing_payload m thing type = Some u →
  thing_payload (<[stack_p := Cell_ptr q]> m) thing type = Some u.
Proof.
  intros Hm. unfold thing_payload.
  destruct type; try done;
    (destruct (decide (thing = NULL)); [done|]);
    (destruct (decide (stack_p = thing)) as [<-|];
     [by rewrite Hm | by rewrite lookup_insert_ne]).
Qed.

Lemma stack_push_returns itp stack_p s thing type f u :
  stack_p ≠ NULL → memory itp !! stack_p = Some (Cell_ptr s) →
  thing_payload (memory itp) thing type = Some u →
  stack_push stack_p thing type f itp
  = Returns tt (pushed itp stack_p s (mkEntry u type f)).
Proof.
  intros Hp Hm Hu.
  pose proof (stack_push_spec itp stack_p s thing type f Hp Hm) as Hspec.
  by rewrite (thing_payload_insert_stack_variable _ _ _ _ _ _ _ Hm Hu) in Hspec.
Qed.

Section PopRoutines.

Variable routine : Z → Z → M unit.
Variables (itp : Interp) (stack_p s : Z) (c : Stack_Chunk_t).
Hypothesis stack_p_valid : stack_p ≠ NULL.
Hypothesis stack_p_top : memory itp !! stack_p = Some (Cell_ptr s).
Hypothesis top_chunk : chunk_at (chunks itp) s = Some c.
Hypothesis top_not_base : prev c ≠ s.

(** The type test comes before the call of the routine. *)
Lemma stack_pop_routine_mismatch where_ type :
  type ≠ NO_STACK_ENTRY_TYPE → entry_type (data c) ≠ type →
  Routines.stack_pop routine stack_p where_ type itp
  = Raises ERROR_BAD_STACK_TYPE wrong_type_msg (detached itp stack_p c).
Proof.
  intros Ht Hne. unfold Routines.stack_pop.
  rewrite (bind_Returns _ _ _ _ _
             (stack_prepare_pop_ok _ _ _ _ stack_p_valid stack_p_top top_chunk top_not_base)).
  assert (chunk_at (chunks (detached itp stack_p c)) s = Some c) as Hc1 by done.
  rewrite (bind_Returns _ _ _ _ _ (load_entry_Some _ _ _ Hc1)).
  destruct (decide (type ≠ NO_STACK_ENTRY_TYPE ∧ entry_type (data c) ≠ type))
    as [_|[]]; [reflexivity | by split].
Qed.

(** After a type test that passes, [stack_pop] is at the call of the
    routine, if there is one. *)
Lemma stack_pop_routine_called {A} type (k : Z → M A) :
  type = NO_STACK_ENTRY_TYPE ∨ entry_type (data c) = type →
  (e ← stack_prepare_pop stack_p;
   v ← load_entry e;
   (if decide (type ≠ NO_STACK_ENTRY_TYPE ∧ entry_type v ≠ type)
    then internal_exception ERROR_BAD_STACK_TYPE wrong_type_msg
    else mret tt);;
   v ← load_entry e;
   (if decide (cleanup v ≠ STACK_CLEANUP_NULL)
    then Routines.call_cleanup routine (cleanup v) e
    else mret tt);;
   k e) itp
  = match (if decide (cleanup (data c) ≠ STACK_CLEANUP_NULL)
           then routine (cleanup (data c)) s (called itp stack_p s c)
           else Returns tt (detached itp stack_p c)) with
    | Returns _ itp1 => k s itp1
    | Raises kind msg itp1 => Raises kind msg itp1
    | Undefined => Undefined
    | Out_of_fuel => Out_of_fuel
    end.
Proof.
  intros Ht.
  rewrite (bind_Returns _ _ _ _ _
             (stack_prepare_pop_ok _ _ _ _ stack_p_valid stack_p_top top_chunk top_not_base)).
  assert (chunk_at (chunks (detached itp stack_p c)) s = Some c) as Hc1 by done.
  rewrite (bind_Returns _ _ _ _ _ (load_entry_Some _ _ _ Hc1)).
  destruct (decide (type ≠ NO_STACK_ENTRY_TYPE ∧ entry_type (data c) ≠ type))
    as [[]|_]; [by destruct Ht|].
  rewrite (bind_Returns (mret tt) _ (detached itp stack_p c) tt (detached itp stack_p c) eq_refl).
  rewrite (bind_Returns _ _ _ _ _ (load_entry_Some _ _ _ Hc1)).
  unfold mbind at 1, M_bind at 1.
  by destruct (decide (cleanup (data c) ≠ STACK_CLEANUP_NULL)).
Qed.

(** A routine that raises takes [stack_pop] with it. *)
Lemma stack_pop_routine_raises where_ type kind msg itp1 :
  type = NO_STACK_ENTRY_TYPE ∨ entry_type (data c) = type →
  cleanup (data c) ≠ STACK_CLEANUP_NULL →
  routine (cleanup (data c)) s (called itp stack_p s c) = Raises kind msg itp1 →
  Routines.stack_pop routine stack_p where_ type itp = Raises kind msg itp1.
Proof.
  intros Ht Hf E. unfold Routines.stack_pop.
  etrans; [by apply stack_pop_routine_called|].
  rewrite decide_True by done. by rewrite E.
Qed.

(** After the routine, if any, has returned, [stack_pop] goes on from the
    state the routine has left. *)
Lemma stack_pop_routine_checked where_ type itp1 :
  type = NO_STACK_ENTRY_TYPE ∨ entry_type (data c) = type →
  cleanup_returns routine itp stack_p s c itp1 →
  Routines.stack_pop routine stack_p where_ type itp
  = (if decide (where_ = NULL) then mret NULL
     else
       v ← load_entry s;
       match type with
       | STACK_ENTRY_MARK | STACK_ENTRY_INT =>
           i ← from_option (UVal_int (entry v));
           store_cell where_ (Cell_INTVAL i)
       | STACK_ENTRY_FLOAT =>
           n ← from_option (UVal_num (entry v));
           store_cell where_ (Cell_FLOATVAL n)
       | STACK_ENTRY_ACTION | STACK_ENTRY_PMC =>
           p ← from_option (UVal_pmc (entry v));
           store_cell where_ (Cell_ptr p)
       | STACK_ENTRY_STRING =>
           p ← from_option (UVal_str (entry v));
           store_cell where_ (Cell_ptr p)
       | STACK_ENTRY_POINTER | STACK_ENTRY_DESTINATION =>
           p ← from_option (UVal_ptr (entry v));
           store_cell where_ (Cell_ptr p)
       | _ => internal_exception ERROR_BAD_STACK_TYPE wrong_type_msg
       end;;
       mret where_) itp1.
Proof.
  intros Ht Hr. unfold Routines.stack_pop.
  etrans; [by apply stack_pop_routine_called|].
  unfold cleanup_returns in Hr. by rewrite Hr.
Qed.

Lemma stack_pop_routine_discard type itp1 :
  type = NO_STACK_ENTRY_TYPE ∨ entry_type (data c) = type →
  cleanup_returns routine itp stack_p s c itp1 →
  Routines.stack_pop routine stack_p NULL type itp = Returns NULL itp1.
Proof. intros Ht Hr. by rewrite (stack_pop_routine_checked _ _ _ Ht Hr). Qed.

Lemma stack_pop_routine_wildcard where_ itp1 c1 :
  where_ ≠ NULL →
  cleanup_returns routine itp stack_p s c itp1 →
  chunk_at (chunks itp1) s = Some c1 →
  Routines.stack_pop routine stack_p where_ NO_STACK_ENTRY_TYPE itp
  = Raises ERROR_BAD_STACK_TYPE wrong_type_msg itp1.
Proof.
  intros Hw Hr Hc1.
  rewrite (stack_pop_routine_checked _ _ _ (or_introl eq_refl) Hr).
  rewrite decide_False by done.
  by rewrite (bind_Returns _ _ _ _ _ (load_entry_Some _ _ _ Hc1)).
Qed.

(** The value is read from the entry as the routine has left it. *)
Lemma stack_pop_routine_copy where_ type itp1 c1 :
  entry_type (data c) = type →
  cleanup_returns routine itp stack_p s c itp1 →
  where_ ≠ NULL →
  chunk_at (chunks itp1) s = Some c1 →
  well_tagged (mkEntry (entry (data c1)) type (cleanup (data c1))) = true →
  Routines.stack_pop routine stack_p where_ type itp
  = Returns where_
      (with_memory itp1 (<[where_ := cell_of (entry (data c1))]> (memory itp1))).
Proof.
  intros Ht Hr Hw Hc1 Hwt.
  rewrite (stack_pop_routine_checked _ _ _ (or_intror Ht) Hr).
  rewrite decide_False by done.
  rewrite (bind_Returns _ _ _ _ _ (load_entry_Some _ _ _ Hc1)).
  unfold well_tagged in Hwt. simpl in Hwt.
  destruct type, (entry (data c1)); try discriminate Hwt;
    unfold mbind, M_bind, store_cell; simpl; by rewrite decide_False.
Qed.

End PopRoutines.

(** C4.  First part: when the top entry carries a cleanup
    routine and the type test passes, [stack_pop] calls the routine once, on
    the detached entry, in the state in which the top chunk is detached, the
    call is on the trace and nothing is stored through [where] yet.  If the
    routine raises, so does [stack_pop], and nothing is stored.  If it
    returns, [stack_pop] goes on from the state the routine has left: with
    [where] null it returns null there; with [where] not null it reads the
    value from the entry as the routine has left it and stores it through
    [where] (and raises there for [type] [0]).  Second part: a [stack_pop]
    with the same [type] right after a [stack_push] stores through [where]
    the value that was pushed when no cleanup routine was given to
    [stack_push]; when one was given, it is called once and [stack_pop]
    stores the value the entry holds when the routine has returned, which is
    the value that was pushed if the routine has left the payload alone. *)
Theorem stack_pop_cleanup_and_value (routine : Z → Z → M unit) :
  (∀ itp stack_p s c where_ type,
     stack_p ≠ NULL →
     memory itp !! stack_p = Some (Cell_ptr s) →
     chunk_at (chunks itp) s = Some c →
     prev c ≠ s →
     cleanup (data c) ≠ STACK_CLEANUP_NULL →
     type = NO_STACK_ENTRY_TYPE ∨ entry_type (data c) = type →
     let itp0 :=
       mkInterp (chunks itp) (<[stack_p := Cell_ptr (prev c)]> (memory itp))
                (user_stack_var itp)
                (events itp ++ [Cleanup_call (cleanup (data c)) (STACK_DATAP s)]) in
     (∀ kind msg itp1,
        routine (cleanup (data c)) (STACK_DATAP s) itp0 = Raises kind msg itp1 →
        Routines.stack_pop routine stack_p where_ type itp = Raises kind msg itp1)
     ∧ (∀ itp1,
          routine (cleanup (data c)) (STACK_DATAP s) itp0 = Returns tt itp1 →
          (where_ = NULL →
           Routines.stack_pop routine stack_p where_ type itp = Returns NULL itp1)
          ∧ (∀ c1,
               where_ ≠ NULL →
               chunk_at (chunks itp1) (STACK_DATAP s) = Some c1 →
               (type = NO_STACK_ENTRY_TYPE →
                Routines.stack_pop routine stack_p where_ type itp
                = Raises ERROR_BAD_STACK_TYPE wrong_type_msg itp1)
               ∧ (well_tagged (mkEntry (entry (data c1)) type (cleanup (data c1)))
                  = true →
                  Routines.stack_pop routine stack_p where_ type itp
                  = Returns where_
                      (with_memory itp1
                         (<[where_ := cell_of (entry (data c1))]> (memory itp1)))))))
  ∧
  (∀ itp stack_p s cs b thing type f where_ u,
     stack_p ≠ NULL →
     where_ ≠ NULL →
     memory itp !! stack_p = Some (Cell_ptr s) →
     stack_chain (chunks itp) s cs b →
     thing_payload (memory itp) thing type = Some u →
     let e := STACK_DATAP (new_chunk itp) in
     let itp1 := pushed itp stack_p s (mkEntry u type f) in
     let itp0 :=
       mkInterp (chunks itp1) (<[stack_p := Cell_ptr s]> (memory itp1))
                (user_stack_var itp) (events itp ++ [Cleanup_call f e]) in
     stack_push stack_p thing type f itp = Returns tt itp1
     ∧ (f = STACK_CLEANUP_NULL →
        Routines.stack_pop routine stack_p where_ type itp1
        = Returns where_
            (mkInterp (chunks itp1)
               (<[where_ := cell_of u]> (<[stack_p := Cell_ptr s]> (memory itp1)))
               (user_stack_var itp) (events itp)))
     ∧ (f ≠ STACK_CLEANUP_NULL →
        ∀ itp' c1,
          routine f e itp0 = Returns tt itp' →
          chunk_at (chunks itp') e = Some c1 →
          (well_tagged (mkEntry (entry (data c1)) type (cleanup (data c1))) = true →
           Routines.stack_pop routine stack_p where_ type itp1
           = Returns where_
               (with_memory itp'
                  (<[where_ := cell_of (entry (data c1))]> (memory itp'))))
          ∧ (entry (data c1) = u →
             Routines.stack_pop routine stack_p where_ type itp1
             = Returns where_
                 (with_memory itp' (<[where_ := cell_of u]> (memory itp')))))).
Proof.
  split.
  - intros itp stack_p s c where_ type Hp Hm Hc Hl Hf Ht itp0.
    assert (called itp stack_p s c = itp0) as Hcalled by done.
    split.
    + intros kind msg itp1 E. rewrite <- Hcalled in E.
      by eapply stack_pop_routine_raises.
    + intros itp1 E. rewrite <- Hcalled in E.
      assert (cleanup_returns routine itp stack_p s c itp1) as Hr.
      { unfold cleanup_returns. by rewrite decide_True. }
      split.
      * intros ->. by eapply stack_pop_routine_discard.
      * intros c1 Hw Hc1. split.
        -- intros ->. by eapply stack_pop_routine_wildcard.
        -- intros Hwt. destruct Ht as [->|Ht].
           ++ unfold well_tagged in Hwt. simpl in Hwt. discriminate Hwt.
           ++ by eapply stack_pop_routine_copy.
  - intros itp stack_p s cs b thing type f where_ u Hp Hw Hm Hch Hu e itp1 itp0.
    destruct (new_chunk_fresh itp) as [Hfr Hn].
    pose proof (thing_payload_well_tagged _ _ _ _ f Hu) as Hwt.
    destruct (stack_chain_top_chunk _ _ _ _ Hch) as [c0 Hc0].
    set (c := mkChunk s (mkEntry u type f)).
    assert (memory itp1 !! stack_p = Some (Cell_ptr (new_chunk itp))) as Hm1
      by apply lookup_insert_eq.
    assert (chunk_at (chunks itp1) (new_chunk itp) = Some c) as Hc1.
    { simpl. rewrite chunk_at_insert by done. by rewrite decide_True. }
    assert (prev c ≠ new_chunk itp) as Hl1.
    { simpl. intros ->. unfold chunk_at in Hc0.
      destruct (decide (new_chunk itp = NULL)); congruence. }
    split; [by apply stack_push_returns|]. split.
    + intros ->.
      assert (cleanup_returns routine itp1 stack_p (new_chunk itp) c
                (detached itp1 stack_p c)) as Hr.
      { unfold cleanup_returns. by rewrite decide_False by (intros Hn'; by apply Hn'). }
      by rewrite (stack_pop_routine_copy routine _ _ _ _ Hp Hm1 Hc1 Hl1 where_ type
                    _ c eq_refl Hr Hw Hc1 Hwt).
    + intros Hf itp' c1 E Hc'.
      assert (cleanup_returns routine itp1 stack_p (new_chunk itp) c itp') as Hr.
      { unfold cleanup_returns. by rewrite decide_True. }
      split.
      * intros Hwt'.
        exact (stack_pop_routine_copy routine _ _ _ _ Hp Hm1 Hc1 Hl1 where_ type
                 _ c1 eq_refl Hr Hw Hc' Hwt').
      * intros Hu'.
        rewrite (stack_pop_routine_copy routine _ _ _ _ Hp Hm1 Hc1 Hl1 where_ type
                   _ c1 eq_refl Hr Hw Hc'); [by rewrite Hu'|].
        rewrite Hu'. unfold well_tagged in *. simpl in *. exact Hwt.
Qed.

(** ** [mark_stack]: what is reported *)

Lemma with_events_app itp l1 l2 :
  with_events (with_events itp l1) l2 = with_events itp (l1 ++ l2).
Proof. unfold with_events. simpl. by rewrite app_assoc. Qed.

(** One pass of the body of [mark_stack] over a chunk that is not the base. *)
Lemma mark_entry_marks itp chunk c :
  chunk_at (chunks itp) chunk = Some c →
  (entry_type (data c) = STACK_ENTRY_PMC ∨ entry_type (data c) = STACK_ENTRY_STRING →
   well_tagged (data c) = true) →
  (pobject_lives chunk;; mark_entry (data c)) itp
  = Returns tt (with_events itp (marks_of (chunks itp) chunk)).
Proof.
  intros Hc Hwt. unfold marks_of, entry_of. rewrite Hc. simpl.
  unfold mark_entry, well_tagged in *.
  destruct c as [p [u t f]]; simpl in *.
  destruct t, u; simpl in *;
    try (exfalso; ospecialize (Hwt _); [by auto | discriminate Hwt]);
    unfold mbind, M_bind, pobject_lives, from_option; simpl;
    try case_decide; try done;
    unfold with_events; simpl; by rewrite <- app_assoc.
Qed.

Lemma mark_stack_chain h s cs b :
  stack_chain h s cs b →
  (∀ a c, a ∈ cs → chunk_at h a = Some c →
          entry_type (data c) = STACK_ENTRY_PMC
          ∨ entry_type (data c) = STACK_ENTRY_STRING →
          well_tagged (data c) = true) →
  ∀ fuel itp, chunks itp = h → (length cs < fuel)%nat →
  mark_stack fuel s itp
  = Returns tt (with_events itp (concat (marks_of h <$> cs) ++ [Lives b])).
Proof.
  induction 1 as [b c Hc Hp | a c cs b Hc Hp H IH]; intros Hwt fuel itp <- Hf;
    (destruct fuel as [|fuel]; [simpl in Hf; lia|]); simpl.
  - assert (∀ (k : unit → M unit),
              (pobject_lives b ≫= k) itp
              = k tt (with_events itp [Lives b])) as Hlive by done.
    rewrite Hlive.
    rewrite (bind_Returns _ _ _ _ _ (load_chunk_Some (with_events itp [Lives b]) _ _ Hc)).
    by rewrite decide_True.
  - assert (∀ (k : unit → M unit),
              (pobject_lives a ≫= k) itp
              = k tt (with_events itp [Lives a])) as Hlive by done.
    rewrite Hlive.
    rewrite (bind_Returns _ _ _ _ _ (load_chunk_Some (with_events itp [Lives a]) _ _ Hc)).
    rewrite decide_False by done.
    rewrite (bind_Returns _ _ _ _ _ (load_entry_Some (with_events itp [Lives a]) _ _ Hc)).
    pose proof (mark_entry_marks itp a c Hc
                  (Hwt a c ltac:(left) Hc)) as Hm.
    rewrite Hlive in Hm.
    rewrite (bind_Returns _ _ _ _ _ Hm).
    rewrite IH; [| | done | simpl in Hf; lia].
    + by rewrite with_events_app, app_assoc.
    + intros a' c' Ha'. apply Hwt. by right.
Qed.

(** C8.  On a stack, [mark_stack] returns, and what it has reported is,
    for every chunk from the top down in turn, the chunk itself and then
    the object its entry refers to when the tag is [STACK_ENTRY_PMC] or
    [STACK_ENTRY_STRING] and the reference is not null, and at last the
    base chunk; the chunks so visited are pairwise distinct. *)
Theorem mark_stack_reports fuel itp s cs b :
  stack_chain (chunks itp) s cs b →
  (length cs < fuel)%nat →
  (∀ a c, a ∈ cs → chunk_at (chunks itp) a = Some c →
          entry_type (data c) = STACK_ENTRY_PMC
          ∨ entry_type (data c) = STACK_ENTRY_STRING →
          well_tagged (data c) = true) →
  mark_stack fuel s itp
  = Returns tt (with_events itp
                  (concat (marks_of (chunks itp) <$> cs) ++ [Lives b]))
  ∧ NoDup (cs ++ [b]).
Proof.
  intros H Hf Hwt. split.
  - by eapply mark_stack_chain.
  - by eapply stack_chain_NoDup.
Qed.

(** ** [stack_entry]: depths *)

Lemma entry_of_pushed itp stack_p s v a :
  is_Some (chunk_at (chunks itp) a) →
  entry_of (chunks (pushed itp stack_p s v)) a = entry_of (chunks itp) a.
Proof.
  intros [c Hc]. destruct (new_chunk_fresh itp) as [Hf Hn].
  unfold entry_of. simpl. rewrite chunk_at_insert by done.
  rewrite decide_False; [done|]. intros <-.
  unfold chunk_at in Hc. destruct (decide (new_chunk itp = NULL)); congruence.
Qed.

(** C6.  On a stack of height [h], [stack_height] answers [h];
    [stack_entry] at depth [0] answers the entry of the top chunk, at depth
    [h - 1] the entry of the chunk that lies on the base, and at every depth
    from [h] on it answers null.  The top chunk holds what was pushed last:
    after a [stack_push] that returned, depth [0] holds the pushed entry
    and depth [d + 1] holds what depth [d] held before. *)
Theorem stack_entry_depths word_bits fuel itp s cs b :
  0 < word_bits →
  stack_chain (chunks itp) s cs b →
  Z.of_nat (length cs) ≤ INTVAL_MAX word_bits →
  (length cs < fuel)%nat →
  stack_height word_bits fuel s itp = Returns (Z.of_nat (length cs)) itp
  ∧ (cs ≠ [] →
     stack_entry word_bits fuel s 0 itp = Returns (STACK_DATAP s) itp)
  ∧ (∀ a, last cs = Some a →
          stack_entry word_bits fuel s (Z.of_nat (length cs) - 1) itp
          = Returns (STACK_DATAP a) itp
          ∧ ∃ c, chunk_at (chunks itp) a = Some c ∧ prev c = b)
  ∧ (∀ d, Z.of_nat (length cs) ≤ d ≤ INTVAL_MAX word_bits →
          stack_entry word_bits fuel s d itp = Returns NULL itp)
  ∧ (∀ stack_p thing type f itp1,
       stack_p ≠ NULL →
       memory itp !! stack_p = Some (Cell_ptr s) →
       stack_push stack_p thing type f itp = Returns tt itp1 →
       ∃ s1 u,
         memory itp1 !! stack_p = Some (Cell_ptr s1)
         ∧ thing_payload (memory itp) thing type = Some u
         ∧ entry_at word_bits fuel s1 0 itp1 = Some (mkEntry u type f)
         ∧ ∀ d, 0 ≤ d < INTVAL_MAX word_bits →
                entry_at word_bits fuel s1 (d + 1) itp1
                = entry_at word_bits fuel s d itp).
Proof.
  intros Hw H Hlen Hf.
  assert (Z.of_nat (length cs) < 2 ^ word_bits) as Hsz.
  { unfold INTVAL_MAX in Hlen. pose proof (two_pow_word _ Hw).
    pose proof (two_pow_half_pos _ Hw). lia. }
  assert (0 ≤ INTVAL_MAX word_bits) as Hmax.
  { unfold INTVAL_MAX. pose proof (two_pow_half_pos _ Hw). lia. }
  split; [by eapply stack_height_chain|].
  split; [|split; [|split]].
  - intros Hne. eapply stack_entry_found; [done.. | lia |].
    destruct H; [done | reflexivity].
  - intros a Ha. rewrite last_lookup in Ha.
    assert (Z.to_nat (Z.of_nat (length cs) - 1) = pred (length cs)) as Hd by lia.
    pose proof (lookup_lt_Some _ _ _ Ha) as Hlt.
    split.
    + eapply stack_entry_found; [done.. | lia |]. by rewrite Hd.
    + destruct (stack_chain_lookup _ _ _ _ _ _ H Ha) as (c & Hc & _ & Hnext).
      exists c. split; [done|].
      rewrite lookup_app_r in Hnext by lia.
      replace (S (pred (length cs)) - length cs)%nat with 0%nat in Hnext by lia.
      by injection Hnext.
  - intros d Hd. by eapply stack_entry_beyond.
  - intros stack_p thing type f itp1 Hp Hm Hpush.
    pose proof (stack_push_spec itp stack_p s thing type f Hp Hm) as Hspec.
    destruct (thing_payload _ thing type) as [u|] eqn:Hu; [|by destruct (Hspec itp1)].
    rewrite Hspec in Hpush. injection Hpush as <-.
    destruct (new_chunk_fresh itp) as [Hfr Hn].
    pose proof (stack_chain_pushed itp stack_p s cs b (mkEntry u type f) H) as H1.
    exists (new_chunk itp), u.
    split; [apply lookup_insert_eq|].
    split; [by eapply thing_payload_stack_variable|].
    split.
    + rewrite (entry_at_chain _ Hw _ _ _ _ _ _ H1) by lia. simpl.
      unfold entry_of. rewrite chunk_at_insert by done. by rewrite decide_True.
    + intros d Hd.
      rewrite (entry_at_chain _ Hw _ _ _ _ _ _ H1) by lia.
      rewrite (entry_at_chain _ Hw _ _ _ _ _ _ H) by lia.
      replace (Z.to_nat (d + 1)) with (S (Z.to_nat d)) by lia. simpl.
      destruct (cs !! Z.to_nat d) as [a|] eqn:Ha; [simpl|done].
      apply (entry_of_pushed itp stack_p s (mkEntry u type f)).
      destruct (stack_chain_lookup _ _ _ _ _ _ H Ha) as (c & Hc & _). eauto.
Qed.

(** C3.  For a negative depth, [stack_entry] looks in the stack it is given
    at the depth that is the height of the user stack of the current
    context plus the depth: it answers null when that sum is negative, and
    when the stack it is given has no chunk that deep above its base;
    otherwise it answers the entry it answers for the sum. *)
Theorem stack_entry_negative_depth word_bits fuel itp s cs b us ucs ub depth :
  0 < word_bits →
  stack_chain (chunks itp) s cs b →
  load_ptr (user_stack_var itp) itp = Returns us itp →
  stack_chain (chunks itp) us ucs ub →
  (length ucs < fuel)%nat →
  Z.of_nat (length ucs) ≤ INTVAL_MAX word_bits →
  INTVAL_MIN word_bits ≤ depth < 0 →
  stack_height word_bits fuel us itp = Returns (Z.of_nat (length ucs)) itp
  ∧ (Z.of_nat (length ucs) + depth < 0 →
     stack_entry word_bits fuel s depth itp = Returns NULL itp)
  ∧ (Z.of_nat (length cs) ≤ Z.of_nat (length ucs) + depth →
     stack_entry word_bits fuel s depth itp = Returns NULL itp)
  ∧ (0 ≤ Z.of_nat (length ucs) + depth →
     stack_entry word_bits fuel s depth itp
     = stack_entry word_bits fuel s (Z.of_nat (length ucs) + depth) itp)
  ∧ (∀ a, 0 ≤ Z.of_nat (length ucs) + depth →
          cs !! Z.to_nat (Z.of_nat (length ucs) + depth) = Some a →
          stack_entry word_bits fuel s depth itp = Returns (STACK_DATAP a) itp).
Proof.
  intros Hw H Hus Hu Hf Hlen Hd.
  pose proof (INTVAL_MAX_size_t _ Hw _ Hlen) as Hsz.
  pose proof (stack_height_chain _ Hw _ _ _ _ _ Hu Hf Hsz) as Hh.
  assert (stack_entry word_bits fuel s depth itp
          = if decide (Z.of_nat (length ucs) + depth < 0) then Returns NULL itp
            else stack_entry_from s (Z.of_nat (length ucs) + depth) itp) as E.
  { unfold stack_entry. rewrite decide_True by lia.
    rewrite (bind_Returns get_interp _ itp itp itp eq_refl).
    rewrite (bind_Returns _ _ _ _ _ Hus).
    rewrite (bind_Returns _ _ _ _ _ Hh).
    rewrite (to_INTVAL_small _ Hw) by lia.
    case_decide; [done|].
    by rewrite (to_size_t_INTVAL _ Hw) by lia. }
  split; [done|]. split; [|split; [|split]].
  - intros Hneg. rewrite E. by rewrite decide_True.
  - intros Hdeep. rewrite E. rewrite decide_False by lia.
    eapply stack_entry_from_beyond; [done | lia].
  - intros Hpos. rewrite E. rewrite decide_False by lia.
    by rewrite (stack_entry_nonneg _ Hw) by lia.
  - intros a Hpos Ha. rewrite E. rewrite decide_False by lia.
    by eapply stack_entry_from_found.
Qed.

(** ** [rotate_entries]: rotations *)

Lemma to_size_t_to_INTVAL word_bits z :
  to_size_t word_bits (to_INTVAL word_bits z) = to_size_t word_bits z.
Proof.
  unfold to_size_t, to_INTVAL.
  rewrite Zminus_mod_idemp_l. f_equal. lia.
Qed.

Section Rotation.

Variable word_bits : Z.
Hypothesis word_bits_pos : 0 < word_bits.
Variable fuel : nat.
Variables (s : Z) (cs : list Z) (b : Z).

Lemma stack_chain_cs_NoDup h : stack_chain h s cs b → NoDup cs.
Proof.
  intros H. pose proof (stack_chain_NoDup _ _ _ _ H) as Hn.
  apply NoDup_app in Hn. tauto.
Qed.

Lemma entry_of_insert h p c q :
  p ≠ NULL →
  entry_of (<[p := c]> h) q = if decide (p = q) then Some (data c) else entry_of h q.
Proof.
  intros Hp. unfold entry_of. rewrite chunk_at_insert by done. by case_decide.
Qed.

(** The assignment of one entry of the stack to another one. *)
Lemma copy_entry_chain itp dst src ad as_ cd cs_ :
  stack_chain (chunks itp) s cs b →
  0 ≤ dst ≤ INTVAL_MAX word_bits → 0 ≤ src ≤ INTVAL_MAX word_bits →
  cs !! Z.to_nat dst = Some ad → cs !! Z.to_nat src = Some as_ →
  chunk_at (chunks itp) ad = Some cd → chunk_at (chunks itp) as_ = Some cs_ →
  copy_entry word_bits fuel s dst src itp
  = Returns tt (with_chunks itp (<[ad := mkChunk (prev cd) (data cs_)]> (chunks itp))).
Proof.
  intros H Hd Hs Had Has Hcd Hcs. unfold copy_entry.
  rewrite (bind_Returns _ _ _ _ _
             (stack_entry_found _ word_bits_pos fuel _ _ _ _ _ _ H Hs Has)).
  rewrite (bind_Returns _ _ _ _ _ (load_entry_Some _ _ _ Hcs)).
  rewrite (bind_Returns _ _ _ _ _
             (stack_entry_found _ word_bits_pos fuel _ _ _ _ _ _ H Hd Had)).
  by apply store_entry_Some.
Qed.

Lemma entries_moved_chain h h' f :
  entries_moved cs h h' f → stack_chain h s cs b → stack_chain h' s cs b.
Proof. intros (Hl & _). by apply stack_chain_links. Qed.

Lemma entries_moved_refl h :
  stack_chain h s cs b →
  entries_moved cs h h (λ j, cs !! j ≫= entry_of h).
Proof.
  intros H. repeat split; try done. intros j a Ha. by rewrite Ha.
Qed.

Lemma entries_moved_trans h h1 h2 f1 f2 :
  entries_moved cs h h1 f1 → entries_moved cs h1 h2 f2 →
  entries_moved cs h h2 f2.
Proof.
  intros (Hl1 & Hf1 & _) (Hl2 & Hf2 & He2). repeat split.
  - intros a. by rewrite Hl2.
  - intros a Ha. by rewrite Hf2, Hf1.
  - done.
Qed.

Lemma entries_moved_ext h h' f g :
  (∀ j, (j < length cs)%nat → f j = g j) →
  entries_moved cs h h' f → entries_moved cs h h' g.
Proof.
  intros Hfg (Hl & Hf & He). repeat split; try done.
  intros j a Ha. rewrite <- Hfg; [by apply He | by eapply lookup_lt_Some].
Qed.

(** The entry at a depth after a move is the one the move says. *)
Lemma entries_moved_at h h' f j :
  entries_moved cs h h' f → (j < length cs)%nat →
  cs !! j ≫= entry_of h' = f j.
Proof.
  intros (_ & _ & He) Hj. destruct (lookup_lt_is_Some_2 cs j Hj) as [a Ha].
  rewrite Ha. simpl. by apply He.
Qed.

Lemma entries_moved_store h i ai ci v :
  stack_chain h s cs b →
  cs !! i = Some ai → chunk_at h ai = Some ci →
  entries_moved cs h (<[ai := mkChunk (prev ci) v]> h)
    (λ j, if decide (j = i) then Some v else cs !! j ≫= entry_of h).
Proof.
  intros H Hi Hc. pose proof (chunk_at_not_NULL _ _ _ Hc) as Hn.
  pose proof (stack_chain_cs_NoDup _ H) as Hnd.
  repeat split.
  - intros a. rewrite chunk_at_insert by done.
    case_decide; [subst; by rewrite Hc | done].
  - intros a Ha. rewrite lookup_insert_ne; [done|].
    intros <-. apply Ha. by eapply list_elem_of_lookup_2.
  - intros j a Ha. rewrite entry_of_insert by done.
    destruct (decide (j = i)) as [->|Hne].
    + rewrite decide_True; [done | congruence].
    + rewrite decide_False; [by rewrite Ha|].
      intros <-. apply Hne. by eapply NoDup_lookup.
Qed.

(** The loop of the bubble up: the entries at depths [i] to [depth - 1]
    become those that were one deeper. *)
Lemma for_up_chain count :
  ∀ i depth itp,
    stack_chain (chunks itp) s cs b →
    (i + count = depth)%nat → (depth < length cs)%nat →
    Z.of_nat depth ≤ INTVAL_MAX word_bits →
    ∃ h',
      for_up word_bits count (Z.of_nat i) (Z.of_nat depth)
        (λ i, copy_entry word_bits fuel s i (to_INTVAL word_bits (i + 1))) itp
      = Returns tt (with_chunks itp h')
      ∧ entries_moved cs (chunks itp) h'
          (λ j, if decide (i ≤ j < depth)%nat
                then cs !! S j ≫= entry_of (chunks itp)
                else cs !! j ≫= entry_of (chunks itp)).
Proof.
  induction count as [|count IH]; intros i depth itp H Hc Hd Hmax; simpl.
  - exists (chunks itp). split; [by rewrite with_chunks_id|].
    eapply entries_moved_ext; [|by apply entries_moved_refl].
    intros j _. simpl. rewrite decide_False; [done | lia].
  - rewrite decide_True by lia.
    rewrite (to_INTVAL_small _ word_bits_pos)
      by (pose proof (INTVAL_MIN_neg _ word_bits_pos); lia).
    destruct (lookup_lt_is_Some_2 cs i ltac:(lia)) as [ai Hai].
    destruct (lookup_lt_is_Some_2 cs (S i) ltac:(lia)) as [aj Haj].
    destruct (stack_chain_lookup _ _ _ _ _ _ H Hai) as (ci & Hci & _).
    destruct (stack_chain_lookup _ _ _ _ _ _ H Haj) as (cj & Hcj & _).
    erewrite bind_Returns; cycle 1.
    { eapply (copy_entry_chain itp (Z.of_nat i) (Z.of_nat i + 1) ai aj ci cj);
        try done; try lia.
      - by rewrite Nat2Z.id.
      - by replace (Z.to_nat (Z.of_nat i + 1)) with (S i) by lia. }
    pose proof (entries_moved_store _ _ _ _ (data cj) H Hai Hci) as Hm1.
    set (h1 := <[ai := mkChunk (prev ci) (data cj)]> (chunks itp)) in *.
    destruct (IH (S i) depth (with_chunks itp h1)) as (h' & E & Hm2);
      [by eapply entries_moved_chain | lia | done | done |].
    exists h'. replace (Z.of_nat i + 1) with (Z.of_nat (S i)) by lia.
    rewrite E. split; [done|].
    eapply entries_moved_ext; [|by eapply entries_moved_trans]. simpl.
    intros j Hj.
    destruct (decide (S i ≤ j < depth)%nat) as [Hin|Hout].
    + rewrite decide_True by lia.
      rewrite (entries_moved_at _ _ _ (S j) Hm1) by lia.
      rewrite decide_False; [done | lia].
    + rewrite (entries_moved_at _ _ _ j Hm1) by lia.
      destruct (decide (j = i)) as [->|Hne].
      * rewrite decide_True by lia. rewrite Haj. simpl.
        unfold entry_of. by rewrite Hcj.
      * rewrite decide_False; [done | lia].
Qed.

(** The loop of the bubble down: the entries at depths [1] to [i] become
    those that were one less deep. *)
Lemma for_down_chain i :
  ∀ itp,
    stack_chain (chunks itp) s cs b →
    (i < length cs)%nat →
    Z.of_nat i ≤ INTVAL_MAX word_bits →
    ∃ h',
      for_down word_bits i (Z.of_nat i)
        (λ i, copy_entry word_bits fuel s i (to_INTVAL word_bits (i - 1))) itp
      = Returns tt (with_chunks itp h')
      ∧ entries_moved cs (chunks itp) h'
          (λ j, if decide (1 ≤ j ≤ i)%nat
                then cs !! pred j ≫= entry_of (chunks itp)
                else cs !! j ≫= entry_of (chunks itp)).
Proof.
  induction i as [|i IH]; intros itp H Hd Hmax; simpl for_down.
  - exists (chunks itp). split; [by rewrite with_chunks_id|].
    eapply entries_moved_ext; [|by apply entries_moved_refl].
    intros j _. simpl. rewrite decide_False; [done | lia].
  - (* [simpl] has decided the test [i > 0] *)
    rewrite (to_INTVAL_small _ word_bits_pos)
      by (pose proof (INTVAL_MIN_neg _ word_bits_pos); lia).
    destruct (lookup_lt_is_Some_2 cs (S i) ltac:(lia)) as [ai Hai].
    destruct (lookup_lt_is_Some_2 cs i ltac:(lia)) as [aj Haj].
    destruct (stack_chain_lookup _ _ _ _ _ _ H Hai) as (ci & Hci & _).
    destruct (stack_chain_lookup _ _ _ _ _ _ H Haj) as (cj & Hcj & _).
    erewrite bind_Returns; cycle 1.
    { eapply (copy_entry_chain itp (Z.of_nat (S i)) (Z.of_nat (S i) - 1) ai aj ci cj);
        try done; try lia.
      - by rewrite Nat2Z.id.
      - by replace (Z.to_nat (Z.of_nat (S i) - 1)) with i by lia. }
    pose proof (entries_moved_store _ _ _ _ (data cj) H Hai Hci) as Hm1.
    set (h1 := <[ai := mkChunk (prev ci) (data cj)]> (chunks itp)) in *.
    destruct (IH (with_chunks itp h1)) as (h' & E & Hm2);
      [by eapply entries_moved_chain | lia | lia |].
    exists h'. replace (Z.of_nat (S i) - 1) with (Z.of_nat i) by lia.
    rewrite E. split; [done|].
    eapply entries_moved_ext; [|by eapply entries_moved_trans]. simpl.
    intros j Hj.
    destruct (decide (1 ≤ j ≤ i)%nat) as [Hin|Hout].
    + rewrite decide_True by lia.
      rewrite (entries_moved_at _ _ _ (pred j) Hm1) by lia.
      rewrite decide_False; [done | lia].
    + rewrite (entries_moved_at _ _ _ j Hm1) by lia.
      destruct (decide (j = S i)) as [->|Hne].
      * rewrite decide_True by lia. simpl. rewrite Haj. simpl.
        unfold entry_of. by rewrite Hcj.
      * rewrite decide_False; [done | lia].
Qed.

Variables (itp : Interp) (stack_p : Z).
Hypothesis stack_p_valid : stack_p ≠ NULL.
Hypothesis stack_p_top : memory itp !! stack_p = Some (Cell_ptr s).
Hypothesis stack_ok : stack_chain (chunks itp) s cs b.
Hypothesis fuel_ok : (length cs < fuel)%nat.
Hypothesis height_ok : Z.of_nat (length cs) ≤ INTVAL_MAX word_bits.

(** The bubble up of the top [n] entries. *)
Lemma rotate_entries_up n :
  2 ≤ n ≤ Z.of_nat (length cs) →
  ∃ h',
    rotate_entries word_bits fuel stack_p n itp = Returns tt (with_chunks itp h')
    ∧ entries_moved cs (chunks itp) h'
        (λ j, if decide (j < Z.to_nat (n - 1))%nat
              then cs !! S j ≫= entry_of (chunks itp)
              else if decide (j = Z.to_nat (n - 1))
                   then cs !! 0%nat ≫= entry_of (chunks itp)
                   else cs !! j ≫= entry_of (chunks itp)).
Proof.
  intros Hn. pose proof (INTVAL_MAX_size_t _ word_bits_pos _ height_ok) as Hsz.
  pose proof (INTVAL_MIN_neg _ word_bits_pos) as Hmin.
  set (d := Z.to_nat (n - 1)).
  unfold rotate_entries.
  rewrite (bind_Returns _ _ _ _ _ (load_ptr_Some _ _ _ stack_p_valid stack_p_top)).
  rewrite decide_False by lia. rewrite decide_False by lia.
  rewrite (bind_Returns _ _ _ _ _
             (stack_height_chain _ word_bits_pos _ _ _ _ _ stack_ok fuel_ok Hsz)).
  rewrite (to_size_t_INTVAL _ word_bits_pos) by lia.
  rewrite decide_False by lia.
  rewrite (bind_Returns (mret tt) _ itp tt itp eq_refl).
  rewrite (to_INTVAL_small _ word_bits_pos) by lia.
  destruct (lookup_lt_is_Some_2 cs 0 ltac:(lia)) as [a0 Ha0].
  destruct (lookup_lt_is_Some_2 cs d ltac:(lia)) as [ad Had].
  destruct (stack_chain_lookup _ _ _ _ _ _ stack_ok Ha0) as (c0 & Hc0 & _).
  erewrite bind_Returns; cycle 1.
  { eapply stack_entry_found; [done.. | lia | exact Ha0]. }
  rewrite (bind_Returns _ _ _ _ _ (load_entry_Some _ _ _ Hc0)).
  destruct (for_up_chain d 0 d itp stack_ok) as (h1 & E & Hm1); [lia..|].
  replace (Z.to_nat (n - 1)) with d by done.
  replace (n - 1) with (Z.of_nat d) by lia.
  change 0 with (Z.of_nat 0) at 1. rewrite (bind_Returns _ _ _ _ _ E).
  pose proof (entries_moved_chain _ _ _ Hm1 stack_ok) as H1.
  destruct (stack_chain_lookup _ _ _ _ _ _ H1 Had) as (cd & Hcd & _).
  erewrite bind_Returns; cycle 1.
  { eapply (stack_entry_found _ word_bits_pos fuel (with_chunks itp h1));
      [exact H1 | lia | by rewrite Nat2Z.id]. }
  rewrite (store_entry_Some (with_chunks itp h1) _ _ _ Hcd).
  eexists. split; [reflexivity|].
  pose proof (entries_moved_store _ _ _ _ (data c0) H1 Had Hcd) as Hm2.
  eapply entries_moved_ext; [|by eapply entries_moved_trans]. simpl.
  intros j Hj.
  destruct (decide (j = d)) as [->|Hne].
  - rewrite decide_False by lia. rewrite Ha0. simpl.
    unfold entry_of. by rewrite Hc0.
  - rewrite (entries_moved_at _ _ _ j Hm1) by lia.
    destruct (decide (j < d)%nat); [by rewrite decide_True by lia|].
    by rewrite decide_False by lia.
Qed.

(** The bubble down of the top [- n] entries. *)
Lemma rotate_entries_down n :
  2 ≤ - n ≤ Z.of_nat (length cs) →
  ∃ h',
    rotate_entries word_bits fuel stack_p n itp = Returns tt (with_chunks itp h')
    ∧ entries_moved cs (chunks itp) h'
        (λ j, if decide (j = 0%nat)
              then cs !! Z.to_nat (- n - 1) ≫= entry_of (chunks itp)
              else if decide (j ≤ Z.to_nat (- n - 1))%nat
                   then cs !! pred j ≫= entry_of (chunks itp)
                   else cs !! j ≫= entry_of (chunks itp)).
Proof.
  intros Hn. pose proof (INTVAL_MAX_size_t _ word_bits_pos _ height_ok) as Hsz.
  pose proof (INTVAL_MIN_neg _ word_bits_pos) as Hmin.
  set (d := Z.to_nat (- n - 1)).
  unfold rotate_entries.
  rewrite (bind_Returns _ _ _ _ _ (load_ptr_Some _ _ _ stack_p_valid stack_p_top)).
  rewrite decide_False by lia. rewrite decide_True by lia.
  rewrite (bind_Returns _ _ _ _ _
             (stack_height_chain _ word_bits_pos _ _ _ _ _ stack_ok fuel_ok Hsz)).
  rewrite (to_INTVAL_small _ word_bits_pos (- n)) by lia.
  rewrite (to_size_t_INTVAL _ word_bits_pos) by lia.
  rewrite decide_False by lia.
  rewrite (bind_Returns (mret tt) _ itp tt itp eq_refl).
  rewrite (to_INTVAL_small _ word_bits_pos) by lia.
  destruct (lookup_lt_is_Some_2 cs 0 ltac:(lia)) as [a0 Ha0].
  destruct (lookup_lt_is_Some_2 cs d ltac:(lia)) as [ad Had].
  destruct (stack_chain_lookup _ _ _ _ _ _ stack_ok Had) as (cd & Hcd & _).
  erewrite bind_Returns; cycle 1.
  { eapply stack_entry_found; [done.. | lia | exact Had]. }
  rewrite (bind_Returns _ _ _ _ _ (load_entry_Some _ _ _ Hcd)).
  destruct (for_down_chain d itp stack_ok) as (h1 & E & Hm1); [lia..|].
  replace (Z.to_nat (- n - 1)) with d by done.
  replace (- n - 1) with (Z.of_nat d) by lia.
  rewrite (bind_Returns _ _ _ _ _ E).
  pose proof (entries_moved_chain _ _ _ Hm1 stack_ok) as H1.
  destruct (stack_chain_lookup _ _ _ _ _ _ H1 Ha0) as (c0 & Hc0 & _).
  erewrite bind_Returns; cycle 1.
  { eapply (stack_entry_found _ word_bits_pos fuel (with_chunks itp h1));
      [exact H1 | lia | exact Ha0]. }
  rewrite (store_entry_Some (with_chunks itp h1) _ _ _ Hc0).
  eexists. split; [reflexivity|].
  pose proof (entries_moved_store _ _ _ _ (data cd) H1 Ha0 Hc0) as Hm2.
  eapply entries_moved_ext; [|by eapply entries_moved_trans]. simpl.
  intros j Hj.
  destruct (decide (j = 0%nat)) as [->|Hne].
  - rewrite Had. simpl. unfold entry_of. by rewrite Hcd.
  - rewrite (entries_moved_at _ _ _ j Hm1) by lia.
    destruct (decide (j ≤ d)%nat); [by rewrite decide_True by lia|].
    by rewrite decide_False by lia.
Qed.

(** Chunk memory in which every entry of the stack is as before is as
    before. *)
Lemma entries_moved_nowhere h' :
  entries_moved cs (chunks itp) h' (λ j, cs !! j ≫= entry_of (chunks itp)) →
  h' = chunks itp.
Proof.
  intros (Hl & Hf & He). apply map_eq. intros a.
  destruct (decide (a ∈ cs)) as [Hin|Hout]; [|by apply Hf].
  apply list_elem_of_lookup in Hin as [j Hj].
  destruct (stack_chain_lookup _ _ _ _ _ _ stack_ok Hj) as (c & Hc & _).
  specialize (He j a Hj). rewrite Hj in He. simpl in He.
  specialize (Hl a). unfold entry_of in He. rewrite Hc in He, Hl.
  pose proof (chunk_at_not_NULL _ _ _ Hc) as Hn.
  unfold chunk_at in *. rewrite decide_False in * by done.
  rewrite Hc. destruct (h' !! a) as [c'|]; [|done].
  destruct c, c'. simpl in *. congruence.
Qed.

End Rotation.

(** C1.  On a stack of height at least [n], for [n] at least [2],
    [rotate_entries] returns; afterwards the entry that was at depth [0] is
    at depth [n - 1], the entry that was at depth [i], for [i] from [1] to
    [n - 1], is at depth [i - 1], and the entries at the depths from [n] on,
    the chain of chunks and the height are as before. *)
Theorem rotate_entries_bubble_up word_bits fuel itp stack_p s cs b n :
  0 < word_bits →
  stack_p ≠ NULL →
  memory itp !! stack_p = Some (Cell_ptr s) →
  stack_chain (chunks itp) s cs b →
  (length cs < fuel)%nat →
  Z.of_nat (length cs) ≤ INTVAL_MAX word_bits →
  2 ≤ n ≤ Z.of_nat (length cs) →
  ∃ itp',
    rotate_entries word_bits fuel stack_p n itp = Returns tt itp'
    ∧ (∀ i, 0 ≤ i < Z.of_nat (length cs) →
            is_Some (entry_at word_bits fuel s i itp))
    ∧ entry_at word_bits fuel s (n - 1) itp' = entry_at word_bits fuel s 0 itp
    ∧ (∀ i, 1 ≤ i ≤ n - 1 →
            entry_at word_bits fuel s (i - 1) itp'
            = entry_at word_bits fuel s i itp)
    ∧ (∀ i, n ≤ i ≤ INTVAL_MAX word_bits →
            entry_at word_bits fuel s i itp' = entry_at word_bits fuel s i itp)
    ∧ stack_chain (chunks itp') s cs b
    ∧ stack_height word_bits fuel s itp = Returns (Z.of_nat (length cs)) itp
    ∧ stack_height word_bits fuel s itp' = Returns (Z.of_nat (length cs)) itp'.
Proof.
  intros Hw Hp Hm H Hf Hlen Hn.
  destruct (rotate_entries_up _ Hw fuel _ _ _ _ _ Hp Hm H Hf Hlen n Hn)
    as (h' & E & Hmv).
  assert (stack_chain (chunks (with_chunks itp h')) s cs b) as H'
    by exact (entries_moved_chain _ _ _ _ _ _ Hmv H).
  pose proof (INTVAL_MAX_size_t _ Hw _ Hlen) as Hsz.
  exists (with_chunks itp h'). split; [done|].
  split; [|split; [|split; [|split; [|split; [done|split]]]]].
  - intros i Hi. rewrite (entry_at_chain _ Hw _ _ _ _ _ _ H) by lia.
    destruct (lookup_lt_is_Some_2 cs (Z.to_nat i) ltac:(lia)) as [a Ha].
    destruct (stack_chain_lookup _ _ _ _ _ _ H Ha) as (c & Hc & _).
    rewrite Ha. simpl. unfold entry_of. rewrite Hc. eauto.
  - rewrite (entry_at_chain _ Hw _ _ _ _ _ _ H') by lia.
    rewrite (entry_at_chain _ Hw _ _ _ _ _ _ H) by lia.
    rewrite (entries_moved_at _ _ _ _ _ Hmv) by lia.
    rewrite decide_False by lia. by rewrite decide_True.
  - intros i Hi.
    rewrite (entry_at_chain _ Hw _ _ _ _ _ _ H') by lia.
    rewrite (entry_at_chain _ Hw _ _ _ _ _ _ H) by lia.
    rewrite (entries_moved_at _ _ _ _ _ Hmv) by lia.
    rewrite decide_True by lia. by replace (S (Z.to_nat (i - 1))) with (Z.to_nat i) by lia.
  - intros i Hi.
    rewrite (entry_at_chain _ Hw _ _ _ _ _ _ H') by lia.
    rewrite (entry_at_chain _ Hw _ _ _ _ _ _ H) by lia.
    destruct (decide (Z.to_nat i < length cs)%nat) as [Hlt|Hge].
    + rewrite (entries_moved_at _ _ _ _ _ Hmv) by lia.
      rewrite decide_False by lia. by rewrite decide_False by lia.
    + by rewrite (lookup_ge_None_2 cs (Z.to_nat i)) by lia.
  - by eapply stack_height_chain.
  - by eapply (stack_height_chain _ Hw (with_chunks itp h')).
Qed.

(** C2.  On a stack of height at least [w], for [w] at least [2],
    [rotate_entries] by [w] and then by [- w] returns in the state it
    started from: every entry is back at its depth. *)
Theorem rotate_entries_up_down word_bits fuel itp stack_p s cs b w :
  0 < word_bits →
  stack_p ≠ NULL →
  memory itp !! stack_p = Some (Cell_ptr s) →
  stack_chain (chunks itp) s cs b →
  (length cs < fuel)%nat →
  Z.of_nat (length cs) ≤ INTVAL_MAX word_bits →
  2 ≤ w ≤ Z.of_nat (length cs) →
  (rotate_entries word_bits fuel stack_p w;;
   rotate_entries word_bits fuel stack_p (- w)) itp
  = Returns tt itp.
Proof.
  intros Hw Hp Hm H Hf Hlen Hn.
  destruct (rotate_entries_up _ Hw fuel _ _ _ _ _ Hp Hm H Hf Hlen w Hn)
    as (h1 & E1 & Hm1).
  pose proof (entries_moved_chain _ _ _ _ _ _ Hm1 H) as H1.
  destruct (rotate_entries_down _ Hw fuel _ _ _ (with_chunks itp h1) _
              Hp Hm H1 Hf Hlen (- w) ltac:(lia))
    as (h2 & E2 & Hm2).
  rewrite (bind_Returns _ _ _ _ _ E1), E2.
  rewrite with_chunks_twice.
  rewrite <- (with_chunks_id itp) at 2. do 2 f_equal.
  eapply (entries_moved_nowhere s cs b itp H).
  eapply entries_moved_ext; [|by eapply entries_moved_trans]. simpl.
  intros j Hj. replace (- - w - 1) with (w - 1) by lia.
  destruct (decide (j = 0%nat)) as [->|Hne].
  - rewrite (entries_moved_at _ _ _ _ _ Hm1) by lia.
    rewrite decide_False by lia. by rewrite decide_True.
  - destruct (decide (j ≤ Z.to_nat (w - 1))%nat).
    + rewrite (entries_moved_at _ _ _ _ _ Hm1) by lia.
      rewrite decide_True by lia. by replace (S (pred j)) with j by lia.
    + rewrite (entries_moved_at _ _ _ _ _ Hm1) by lia.
      rewrite decide_False by lia. by rewrite decide_False by lia.
Qed.

(** ** [rotate_entries]: no rotation, and the raise *)

Lemma bind_Raises_inv {A B} (m : M A) (f : A → M B) itp k msg itp' :
  (m ≫= f) itp = Raises k msg itp' →
  m itp = Raises k msg itp'
  ∨ ∃ a itp1, m itp = Returns a itp1 ∧ f a itp1 = Raises k msg itp'.
Proof.
  unfold mbind, M_bind. destruct (m itp) as [a itp1| | |]; try done.
  - intros E. right. eauto.
  - intros [= -> -> ->]. by left.
Qed.

Lemma never_raises_bind {A B} (m : M A) (f : A → M B) :
  never_raises m → (∀ a, never_raises (f a)) → never_raises (m ≫= f).
Proof.
  intros Hm Hf itp k msg itp' E.
  apply bind_Raises_inv in E as [E|(a & itp1 & _ & E)].
  - by eapply Hm.
  - by eapply Hf.
Qed.

Lemma never_raises_ret {A} (a : A) : never_raises (mret a).
Proof. by intros itp k msg itp'. Qed.

Lemma never_raises_from_option {A} (o : option A) : never_raises (from_option o).
Proof. by destruct o. Qed.

Lemma never_raises_load_chunk p : never_raises (load_chunk p).
Proof.
  apply never_raises_bind; [done|]. intros itp. apply never_raises_from_option.
Qed.

Lemma never_raises_load_entry p : never_raises (load_entry p).
Proof.
  apply never_raises_bind; [apply never_raises_load_chunk | done].
Qed.

Lemma never_raises_store_entry p v : never_raises (store_entry p v).
Proof.
  apply never_raises_bind; [apply never_raises_load_chunk|].
  intros c itp k msg itp'. unfold store_chunk. by destruct (chunk_at _ _).
Qed.

Lemma never_raises_load_ptr p : never_raises (load_ptr p).
Proof.
  apply never_raises_bind.
  - apply never_raises_bind; [done|]. intros itp. apply never_raises_from_option.
  - by intros [].
Qed.

Lemma read_only_load_chunk p : read_only (load_chunk p).
Proof. intros itp c itp' E. by apply load_chunk_Returns in E as [-> _]. Qed.

Lemma read_only_load_ptr p : read_only (load_ptr p).
Proof.
  intros itp c itp'.
  unfold load_ptr, load_cell, get_interp, mbind, M_bind, from_option.
  destruct (decide (p = NULL)); [done|].
  destruct (memory itp !! p) as [[]|]; try done. by intros [= _ <-].
Qed.

Lemma never_raises_stack_height_loop word_bits fuel :
  ∀ chunk height, never_raises (stack_height_loop word_bits fuel chunk height).
Proof.
  induction fuel as [|fuel IH]; intros chunk height; simpl; [done|].
  apply never_raises_bind; [apply never_raises_load_chunk|].
  intros c. case_decide; [apply never_raises_ret | apply IH].
Qed.

Lemma read_only_stack_height_loop word_bits fuel :
  ∀ chunk height, read_only (stack_height_loop word_bits fuel chunk height).
Proof.
  induction fuel as [|fuel IH]; intros chunk height itp a itp'; simpl; [done|].
  unfold mbind, M_bind.
  destruct (load_chunk chunk itp) as [c itp1| | |] eqn:E; try done.
  apply read_only_load_chunk in E as ->.
  case_decide; [by intros [= _ <-] | apply IH].
Qed.

Lemma never_raises_stack_entry_loop offset :
  ∀ chunk, never_raises (stack_entry_loop offset chunk).
Proof.
  induction offset as [|offset IH]; intros chunk; simpl; [apply never_raises_ret|].
  apply never_raises_bind; [apply never_raises_load_chunk|].
  intros c. case_decide; [apply never_raises_ret | apply IH].
Qed.

Lemma never_raises_stack_entry_from stack offset :
  never_raises (stack_entry_from stack offset).
Proof.
  apply never_raises_bind; [apply never_raises_stack_entry_loop|].
  intros chunk. apply never_raises_bind; [apply never_raises_load_chunk|].
  intros c. case_decide; apply never_raises_ret.
Qed.

Lemma never_raises_stack_entry word_bits fuel stack depth :
  never_raises (stack_entry word_bits fuel stack depth).
Proof.
  unfold stack_entry. case_decide; [|apply never_raises_stack_entry_from].
  apply never_raises_bind; [done|]. intros itp.
  apply never_raises_bind; [apply never_raises_load_ptr|]. intros user_stack.
  apply never_raises_bind; [apply never_raises_stack_height_loop|].
  intros height. case_decide;
    [apply never_raises_ret | apply never_raises_stack_entry_from].
Qed.

Lemma read_only_bind {A B} (m : M A) (f : A → M B) :
  read_only m → (∀ a, read_only (f a)) → read_only (m ≫= f).
Proof.
  intros Hm Hf itp b itp' E.
  apply bind_Returns_inv in E as (a & itp1 & E1 & E2).
  apply Hm in E1 as ->. by apply Hf in E2.
Qed.

Lemma read_only_ret {A} (a : A) : read_only (mret a).
Proof. by intros itp b itp' [= _ <-]. Qed.

Lemma read_only_stack_entry_loop offset :
  ∀ chunk, read_only (stack_entry_loop offset chunk).
Proof.
  induction offset as [|offset IH]; intros chunk; simpl; [apply read_only_ret|].
  apply read_only_bind; [apply read_only_load_chunk|].
  intros c. case_decide; [apply read_only_ret | apply IH].
Qed.

Lemma read_only_stack_entry_from stack offset :
  read_only (stack_entry_from stack offset).
Proof.
  apply read_only_bind; [apply read_only_stack_entry_loop|].
  intros chunk. apply read_only_bind; [apply read_only_load_chunk|].
  intros c. case_decide; apply read_only_ret.
Qed.

(** [stack_entry] only reads the state. *)
Lemma read_only_stack_entry word_bits fuel stack depth :
  read_only (stack_entry word_bits fuel stack depth).
Proof.
  unfold stack_entry. case_decide; [|apply read_only_stack_entry_from].
  apply read_only_bind; [by intros itp a itp' [= _ <-]|]. intros itp.
  apply read_only_bind; [apply read_only_load_ptr|]. intros user_stack.
  apply read_only_bind; [apply read_only_stack_height_loop|].
  intros height. case_decide;
    [apply read_only_ret | apply read_only_stack_entry_from].
Qed.

Lemma never_raises_copy_entry word_bits fuel stack dst src :
  never_raises (copy_entry word_bits fuel stack dst src).
Proof.
  apply never_raises_bind; [apply never_raises_stack_entry|]. intros e.
  apply never_raises_bind; [apply never_raises_load_entry|]. intros v.
  apply never_raises_bind; [apply never_raises_stack_entry|]. intros d.
  apply never_raises_store_entry.
Qed.

Lemma never_raises_for_down word_bits count body :
  (∀ i, never_raises (body i)) →
  ∀ i, never_raises (for_down word_bits count i body).
Proof.
  intros Hb. induction count as [|count IH]; intros i; simpl;
    [apply never_raises_ret|].
  case_decide; [|apply never_raises_ret].
  apply never_raises_bind; [apply Hb | intros _; apply IH].
Qed.

Lemma never_raises_for_up word_bits count depth body :
  (∀ i, never_raises (body i)) →
  ∀ i, never_raises (for_up word_bits count i depth body).
Proof.
  intros Hb. induction count as [|count IH]; intros i; simpl;
    [apply never_raises_ret|].
  case_decide; [|apply never_raises_ret].
  apply never_raises_bind; [apply Hb | intros _; apply IH].
Qed.

(** After its test of the height, [rotate_entries] does not raise. *)
Lemma never_raises_rotate_down word_bits fuel stack depth :
  never_raises
    (e ← stack_entry word_bits fuel stack depth;
     temp ← load_entry e;
     for_down word_bits (Z.to_nat depth) depth
       (λ i, copy_entry word_bits fuel stack i (to_INTVAL word_bits (i - 1)));;
     e0 ← stack_entry word_bits fuel stack 0;
     store_entry e0 temp).
Proof.
  apply never_raises_bind; [apply never_raises_stack_entry|]. intros e.
  apply never_raises_bind; [apply never_raises_load_entry|]. intros temp.
  apply never_raises_bind.
  { apply never_raises_for_down. intros i. apply never_raises_copy_entry. }
  intros _. apply never_raises_bind; [apply never_raises_stack_entry|].
  intros e0. apply never_raises_store_entry.
Qed.

Lemma never_raises_rotate_up word_bits fuel stack depth :
  never_raises
    (e0 ← stack_entry word_bits fuel stack 0;
     temp ← load_entry e0;
     for_up word_bits (Z.to_nat depth) 0 depth
       (λ i, copy_entry word_bits fuel stack i (to_INTVAL word_bits (i + 1)));;
     e ← stack_entry word_bits fuel stack depth;
     store_entry e temp).
Proof.
  apply never_raises_bind; [apply never_raises_stack_entry|]. intros e.
  apply never_raises_bind; [apply never_raises_load_entry|]. intros temp.
  apply never_raises_bind.
  { apply never_raises_for_up. intros i. apply never_raises_copy_entry. }
  intros _. apply never_raises_bind; [apply never_raises_stack_entry|].
  intros e0. apply never_raises_store_entry.
Qed.

(** On a stack of height less than [|n|], for [|n|] at least [2],
    [rotate_entries] raises from its test of the height, in the state it
    started from. *)
Lemma rotate_entries_shallow word_bits fuel itp stack_p s cs b n :
  0 < word_bits →
  stack_p ≠ NULL →
  memory itp !! stack_p = Some (Cell_ptr s) →
  stack_chain (chunks itp) s cs b →
  (length cs < fuel)%nat →
  Z.of_nat (length cs) < 2 ^ word_bits →
  INTVAL_MIN word_bits ≤ n ≤ INTVAL_MAX word_bits →
  2 ≤ Z.abs n →
  Z.of_nat (length cs) < Z.abs n →
  rotate_entries word_bits fuel stack_p n itp
  = Raises ERROR_STACK_SHALLOW "Stack too shallow!" itp.
Proof.
  intros Hw Hp Hm H Hf Hsz Hn Habs Hlen. unfold rotate_entries.
  rewrite (bind_Returns _ _ _ _ _ (load_ptr_Some _ _ _ Hp Hm)).
  rewrite decide_False by lia.
  pose proof (two_pow_word _ Hw) as Hpow.
  pose proof (two_pow_half_pos _ Hw) as Hhalf.
  unfold INTVAL_MIN, INTVAL_MAX in Hn.
  destruct (decide (n < 0)).
  - rewrite (bind_Returns _ _ _ _ _ (stack_height_chain _ Hw _ _ _ _ _ H Hf Hsz)).
    rewrite to_size_t_to_INTVAL.
    rewrite to_size_t_small by lia.
    by rewrite decide_True by lia.
  - rewrite (bind_Returns _ _ _ _ _ (stack_height_chain _ Hw _ _ _ _ _ H Hf Hsz)).
    rewrite to_size_t_small by lia.
    by rewrite decide_True by lia.
Qed.

(** C7.  [rotate_entries] by [-1], [0] or [1] returns in the state it
    started from, whatever chunk memory holds; and on a stack of height less
    than [|n|], for [|n|] at least [2], it raises [ERROR_STACK_SHALLOW]. *)
Theorem rotate_entries_noop_or_shallow word_bits fuel itp stack_p s n :
  0 < word_bits →
  stack_p ≠ NULL →
  memory itp !! stack_p = Some (Cell_ptr s) →
  (-1 ≤ n ≤ 1 → rotate_entries word_bits fuel stack_p n itp = Returns tt itp)
  ∧ (∀ cs b,
       stack_chain (chunks itp) s cs b →
       (length cs < fuel)%nat →
       Z.of_nat (length cs) < 2 ^ word_bits →
       INTVAL_MIN word_bits ≤ n ≤ INTVAL_MAX word_bits →
       2 ≤ Z.abs n →
       Z.of_nat (length cs) < Z.abs n →
       ∃ msg itp',
         rotate_entries word_bits fuel stack_p n itp
         = Raises ERROR_STACK_SHALLOW msg itp').
Proof.
  intros Hw Hp Hm. split.
  - intros Hn. unfold rotate_entries.
    rewrite (bind_Returns _ _ _ _ _ (load_ptr_Some _ _ _ Hp Hm)).
    by rewrite decide_True by lia.
  - intros cs b H Hf Hsz Hn Habs Hlen. eexists _, _.
    by eapply rotate_entries_shallow.
Qed.

(** Where [rotate_entries] raises, it raises [ERROR_STACK_SHALLOW] from its
    test of the height, which the height fails, and the state at the raise
    is the state it started from. *)
Lemma rotate_entries_raises word_bits fuel itp stack_p n k msg itp' :
  rotate_entries word_bits fuel stack_p n itp = Raises k msg itp' →
  k = ERROR_STACK_SHALLOW
  ∧ itp' = itp
  ∧ ∃ stack h,
      load_ptr stack_p itp = Returns stack itp
      ∧ stack_height word_bits fuel stack itp = Returns h itp
      ∧ h < to_size_t word_bits (if decide (n < 0)
                                 then to_INTVAL word_bits (- n) else n).
Proof.
  intros E. unfold rotate_entries in E.
  apply bind_Raises_inv in E as [E|(stack & itp1 & Hl & E)];
    [by apply never_raises_load_ptr in E|].
  pose proof (read_only_load_ptr _ _ _ _ Hl) as ->.
  destruct (decide (n >= -1 ∧ n <= 1)); [done|].
  destruct (decide (n < 0)).
  - apply bind_Raises_inv in E as [E|(h & itp1 & Hh & E)];
      [by apply never_raises_stack_height_loop in E|].
    pose proof (read_only_stack_height_loop _ _ _ _ _ _ _ Hh) as ->.
    apply bind_Raises_inv in E as [E|(u & itp1 & _ & E)];
      [|by apply never_raises_rotate_down in E].
    destruct (decide (h < _)); [|done].
    injection E as <- <- <-. eauto 10.
  - apply bind_Raises_inv in E as [E|(h & itp1 & Hh & E)];
      [by apply never_raises_stack_height_loop in E|].
    pose proof (read_only_stack_height_loop _ _ _ _ _ _ _ Hh) as ->.
    apply bind_Raises_inv in E as [E|(u & itp1 & _ & E)];
      [|by apply never_raises_rotate_up in E].
    destruct (decide (h < _)); [|done].
    injection E as <- <- <-. eauto 10.
Qed.

(** C9.  On a stack of height less than [|n|], for [|n|] at least [2],
    [rotate_entries] raises [ERROR_STACK_SHALLOW] in the state it started
    from.  And whenever [rotate_entries] raises, it raises
    [ERROR_STACK_SHALLOW], from its test of the height, and the state at the
    raise is the state it started from: every entry, at every depth of every
    stack, and every height are as before the call. *)
Theorem rotate_entries_raise_atomic word_bits fuel itp stack_p n :
  (∀ s cs b,
     0 < word_bits →
     stack_p ≠ NULL →
     memory itp !! stack_p = Some (Cell_ptr s) →
     stack_chain (chunks itp) s cs b →
     (length cs < fuel)%nat →
     Z.of_nat (length cs) < 2 ^ word_bits →
     INTVAL_MIN word_bits ≤ n ≤ INTVAL_MAX word_bits →
     2 ≤ Z.abs n →
     Z.of_nat (length cs) < Z.abs n →
     ∃ msg,
       rotate_entries word_bits fuel stack_p n itp
       = Raises ERROR_STACK_SHALLOW msg itp)
  ∧ (∀ k msg itp',
       rotate_entries word_bits fuel stack_p n itp = Raises k msg itp' →
       k = ERROR_STACK_SHALLOW
       ∧ itp' = itp
       ∧ (∀ stack depth,
            entry_at word_bits fuel stack depth itp'
            = entry_at word_bits fuel stack depth itp)
       ∧ (∀ stack h,
            stack_height word_bits fuel stack itp = Returns h itp →
            stack_height word_bits fuel stack itp' = Returns h itp')
       ∧ ∃ stack h,
           load_ptr stack_p itp = Returns stack itp
           ∧ stack_height word_bits fuel stack itp = Returns h itp
           ∧ h < to_size_t word_bits (if decide (n < 0)
                                      then to_INTVAL word_bits (- n) else n)).
Proof.
  split.
  - intros s cs b Hw Hp Hm H Hf Hsz Hn Habs Hlen. eexists.
    by eapply rotate_entries_shallow.
  - intros k msg itp' E.
    apply rotate_entries_raises in E as (-> & -> & Htest).
    repeat split; done.
Qed.

(** ** The concrete state *)

Lemma three_ints_chain :
  stack_chain (chunks three_ints) 103 [103; 102; 101] 100.
Proof.
  eapply (chain_cons _ 103 (mkChunk 102 (int_entry 3 7))); [done | done |].
  eapply (chain_cons _ 102 (mkChunk 101 (int_entry 2 0))); [done | done |].
  eapply (chain_cons _ 101 (mkChunk 100 (int_entry 1 0))); [done | done |].
  by eapply (chain_base _ 100 (mkChunk 100 uninitialized)).
Defined.

Lemma three_ints_user_chain :
  stack_chain (chunks three_ints) 202 [202; 201] 200.
Proof.
  eapply (chain_cons _ 202 (mkChunk 201 (mkEntry (U_str 0) STACK_ENTRY_STRING 0)));
    [done | done |].
  eapply (chain_cons _ 201 (mkChunk 200 (mkEntry (U_pmc 900) STACK_ENTRY_PMC 0)));
    [done | done |].
  by eapply (chain_base _ 200 (mkChunk 200 uninitialized)).
Defined.

Lemma INTVAL_MAX_64 : INTVAL_MAX 64 = 9223372036854775807.
Proof. reflexivity. Defined.

Lemma INTVAL_MIN_64 : INTVAL_MIN 64 = - 9223372036854775808.
Proof. reflexivity. Defined.

(** Scenario 3 of the specification: from [3; 2; 1], the bubble up of the
    top three entries gives [2; 1; 3]. *)
Lemma rotate_entries_bubble_up_witness :
  ∃ itp',
    rotate_entries 64 8 10 3 three_ints = Returns tt itp'
    ∧ entry_at 64 8 103 0 itp' = Some (int_entry 2 STACK_CLEANUP_NULL)
    ∧ entry_at 64 8 103 1 itp' = Some (int_entry 1 STACK_CLEANUP_NULL)
    ∧ entry_at 64 8 103 2 itp' = Some (int_entry 3 7)
    ∧ stack_height 64 8 103 itp' = Returns 3 itp'.
Proof.
  destruct (rotate_entries_bubble_up 64 8 three_ints 10 103 [103; 102; 101] 100 3)
    as (itp' & E & _ & Htop & Hup & _ & _ & _ & Hh);
    [lia | done | reflexivity | exact three_ints_chain | simpl; lia
    | rewrite INTVAL_MAX_64; simpl; lia | simpl; lia |].
  exists itp'. split; [exact E|].
  split; [exact (Hup 1 ltac:(lia))|].
  split; [exact (Hup 2 ltac:(lia))|].
  split; [exact Htop | exact Hh].
Defined.

(** Scenarios 3 and 4 of the specification: the bubble up of three entries
    and then their bubble down give [3; 2; 1] back. *)
Lemma rotate_entries_up_down_witness :
  (rotate_entries 64 8 10 3;; rotate_entries 64 8 10 (- 3)) three_ints
  = Returns tt three_ints.
Proof.
  apply (rotate_entries_up_down 64 8 three_ints 10 103 [103; 102; 101] 100 3);
    [lia | done | reflexivity | exact three_ints_chain | simpl; lia
    | rewrite INTVAL_MAX_64; simpl; lia | simpl; lia].
Defined.

(** The user stack has height [2], so depth [-1] in the stack of the three
    integers is depth [1], the chunk [102]; one above the base of that
    stack it would be the chunk [101]. *)
Lemma stack_entry_negative_depth_witness :
  load_ptr (user_stack_var three_ints) three_ints = Returns 202 three_ints
  ∧ stack_height 64 8 202 three_ints = Returns 2 three_ints
  ∧ stack_entry 64 8 103 (- 1) three_ints = Returns 102 three_ints
  ∧ stack_entry 64 8 103 (- 3) three_ints = Returns NULL three_ints.
Proof.
  destruct (stack_entry_negative_depth 64 8 three_ints 103 [103; 102; 101] 100
              202 [202; 201] 200 (- 1))
    as (Hh & _ & _ & _ & Hfound);
    [lia | exact three_ints_chain | reflexivity | exact three_ints_user_chain
    | simpl; lia | rewrite INTVAL_MAX_64; simpl; lia
    | rewrite INTVAL_MIN_64; lia |].
  destruct (stack_entry_negative_depth 64 8 three_ints 103 [103; 102; 101] 100
              202 [202; 201] 200 (- 3))
    as (_ & Hneg & _);
    [lia | exact three_ints_chain | reflexivity | exact three_ints_user_chain
    | simpl; lia | rewrite INTVAL_MAX_64; simpl; lia
    | rewrite INTVAL_MIN_64; lia |].
  split; [reflexivity|]. split; [exact Hh|].
  split; [exact (Hfound 102 ltac:(simpl; lia) eq_refl) | exact (Hneg ltac:(simpl; lia))].
Defined.

Lemma three_ints_push :
  stack_push 10 20 STACK_ENTRY_INT 5 three_ints
  = Returns tt (pushed three_ints 10 103 (int_entry 42 5)).
Proof.
  exact (stack_push_spec three_ints 10 103 20 STACK_ENTRY_INT 5
           ltac:(done) eq_refl).
Defined.

(** The top entry of the three integers has the cleanup routine [7], and
    the routines note the entry they are handed: a [stack_pop] that
    discards the value calls the routine once, on that entry, and returns
    in the state the routine has left.  And the integer [42] pushed with
    the cleanup routine [5] comes back, the routine having left the entry
    alone. *)
Lemma stack_pop_cleanup_and_value_witness :
  Routines.stack_pop noting_routine 10 NULL STACK_ENTRY_INT three_ints
  = Returns NULL
      (mkInterp (chunks three_ints)
                (<[40 := Cell_ptr 103]> (<[10 := Cell_ptr 102]> (memory three_ints)))
                (user_stack_var three_ints) [Cleanup_call 7 103])
  ∧ ∃ itp2,
      (stack_push 10 20 STACK_ENTRY_INT 5;;
       Routines.stack_pop noting_routine 10 30 STACK_ENTRY_INT) three_ints
      = Returns 30 itp2
      ∧ memory itp2 !! 30 = Some (Cell_INTVAL 42)
      ∧ memory itp2 !! 40 = Some (Cell_ptr (new_chunk three_ints))
      ∧ events itp2 = [Cleanup_call 5 (new_chunk three_ints)].
Proof.
  destruct (stack_pop_cleanup_and_value noting_routine) as [Hcleanup Hvalue].
  split.
  - exact (proj1 (proj2 (Hcleanup three_ints 10 103 (mkChunk 102 (int_entry 3 7))
                           NULL STACK_ENTRY_INT
                           ltac:(done) eq_refl eq_refl ltac:(done) ltac:(done)
                           (or_intror eq_refl))
                    _ eq_refl)
             eq_refl).
  - destruct (Hvalue three_ints 10 103 [103; 102; 101] 100 20 STACK_ENTRY_INT 5 30
                (U_int 42) ltac:(done) ltac:(done) eq_refl three_ints_chain eq_refl)
      as (Hpush & _ & Hpop).
    pose proof (proj2 (Hpop ltac:(done) _
                         (mkChunk 103 (int_entry 42 5)) eq_refl
                         ltac:(vm_compute; reflexivity))
                  eq_refl) as E.
    eexists. split.
    { rewrite (bind_Returns _ _ _ _ _ Hpush). exact E. }
    split; [reflexivity|]. split; reflexivity.
Defined.

(** The integer [42] pushed with a cleanup routine that clears the payload
    of the entry it is handed comes back as [0]. *)
Lemma stack_pop_value_not_exact :
  ∃ itp1 itp2,
    thing_payload (memory three_ints) 20 STACK_ENTRY_INT = Some (U_int 42)
    ∧ stack_push 10 20 STACK_ENTRY_INT 5 three_ints = Returns tt itp1
    ∧ Routines.stack_pop clearing_routine 10 30 STACK_ENTRY_INT itp1
      = Returns 30 itp2
    ∧ memory itp2 !! 30 = Some (Cell_INTVAL 0)
    ∧ memory itp2 !! 30 ≠ Some (cell_of (U_int 42))
    ∧ events itp2 = [Cleanup_call 5 (new_chunk three_ints)].
Proof.
  exists (pushed three_ints 10 103 (int_entry 42 5)). eexists.
  split; [reflexivity|]. split; [exact three_ints_push|].
  split; [vm_compute; reflexivity|].
  split; [reflexivity|]. split; [|reflexivity].
  vm_compute. discriminate.
Qed.


(** Scenario 2 of the specification; and after the push of [42] depth [0]
    holds [42] and depth [1] holds the [3] that was on top. *)
Lemma stack_entry_depths_witness :
  stack_height 64 8 103 three_ints = Returns 3 three_ints
  ∧ stack_entry 64 8 103 0 three_ints = Returns 103 three_ints
  ∧ stack_entry 64 8 103 2 three_ints = Returns 101 three_ints
  ∧ stack_entry 64 8 103 3 three_ints = Returns NULL three_ints
  ∧ ∃ s1,
      memory (pushed three_ints 10 103 (int_entry 42 5)) !! 10 = Some (Cell_ptr s1)
      ∧ entry_at 64 8 s1 0 (pushed three_ints 10 103 (int_entry 42 5))
        = Some (int_entry 42 5)
      ∧ entry_at 64 8 s1 1 (pushed three_ints 10 103 (int_entry 42 5))
        = Some (int_entry 3 7).
Proof.
  destruct (stack_entry_depths 64 8 three_ints 103 [103; 102; 101] 100)
    as (Hh & Htop & Hlast & Hbeyond & Hpush);
    [lia | exact three_ints_chain | rewrite INTVAL_MAX_64; simpl; lia
    | simpl; lia |].
  split; [exact Hh|].
  split; [exact (Htop ltac:(done))|].
  split; [exact (proj1 (Hlast 101 eq_refl))|].
  split; [apply Hbeyond; rewrite INTVAL_MAX_64; simpl; lia|].
  destruct (Hpush 10 20 STACK_ENTRY_INT 5 _ ltac:(done) eq_refl three_ints_push)
    as (s1 & u & Hs1 & Hu & H0 & Hdeeper).
  injection Hu as <-.
  exists s1. split; [exact Hs1|]. split; [exact H0|].
  exact (Hdeeper 0 ltac:(rewrite INTVAL_MAX_64; lia)).
Defined.

(** Scenario 5 of the specification, and a rotation by [1]. *)
Lemma rotate_entries_noop_or_shallow_witness :
  rotate_entries 64 8 10 1 three_ints = Returns tt three_ints
  ∧ ∃ msg itp',
      rotate_entries 64 8 10 5 three_ints = Raises ERROR_STACK_SHALLOW msg itp'.
Proof.
  split.
  - apply (rotate_entries_noop_or_shallow 64 8 three_ints 10 103 1);
      [lia | done | reflexivity | lia].
  - apply (proj2 (rotate_entries_noop_or_shallow 64 8 three_ints 10 103 5
                    ltac:(lia) ltac:(done) eq_refl)
             [103; 102; 101] 100);
      [exact three_ints_chain | simpl; lia | simpl; lia
      | rewrite INTVAL_MIN_64, ?INTVAL_MAX_64; lia | simpl; lia | simpl; lia].
Defined.

Lemma three_ints_user_tags a c :
  a ∈ [202; 201] → chunk_at (chunks three_ints) a = Some c →
  entry_type (data c) = STACK_ENTRY_PMC ∨ entry_type (data c) = STACK_ENTRY_STRING →
  well_tagged (data c) = true.
Proof.
  intros Ha Hc _.
  apply elem_of_cons in Ha as [->|Ha]; [by injection Hc as <-|].
  apply elem_of_cons in Ha as [->|Ha]; [by injection Hc as <-|].
  by apply elem_of_nil in Ha.
Defined.

(** On the user stack: the chunk of the null string, the chunk of the
    object reference and the object, then the base. *)
Lemma mark_stack_reports_witness :
  mark_stack 8 202 three_ints
  = Returns tt (with_events three_ints [Lives 202; Lives 201; Lives 900; Lives 200])
  ∧ NoDup [202; 201; 200].
Proof.
  exact (mark_stack_reports 8 three_ints 202 [202; 201] 200
           three_ints_user_chain ltac:(simpl; lia) three_ints_user_tags).
Defined.

(** Scenario 5 of the specification: the raise leaves the three integers
    as they were. *)
Lemma rotate_entries_raise_atomic_witness :
  ∃ msg,
    rotate_entries 64 8 10 5 three_ints
    = Raises ERROR_STACK_SHALLOW msg three_ints
    ∧ entry_at 64 8 103 0 three_ints = Some (int_entry 3 7)
    ∧ stack_height 64 8 103 three_ints = Returns 3 three_ints
    ∧ ∃ stack h,
        load_ptr 10 three_ints = Returns stack three_ints
        ∧ stack_height 64 8 stack three_ints = Returns h three_ints
        ∧ h < 5.
Proof.
  destruct (rotate_entries_raise_atomic 64 8 three_ints 10 5) as [Hraise Hstate].
  destruct (Hraise 103 [103; 102; 101] 100) as [msg E];
    [lia | done | reflexivity | exact three_ints_chain | simpl; lia
    | simpl; lia | rewrite INTVAL_MIN_64, ?INTVAL_MAX_64; lia
    | simpl; lia | simpl; lia |].
  destruct (Hstate _ _ _ E) as (_ & _ & Hentry & Hheight & Htest).
  exists msg. split; [exact E|].
  split; [exact (Hentry 103 0)|].
  split; [exact (Hheight 103 3 eq_refl) | exact Htest].
Defined.

(** Scenario 6 of the specification, with the tags exchanged: the raise
    leaves a stack of height [2] and has called no cleanup routine, though
    the detached entry has the routine [7]. *)
Lemma stack_pop_mismatch_detached_witness :
  ∃ msg itp',
    stack_pop 10 30 STACK_ENTRY_FLOAT three_ints
    = Raises ERROR_BAD_STACK_TYPE msg itp'
    ∧ stack_height 64 8 103 three_ints = Returns 3 three_ints
    ∧ memory itp' !! 10 = Some (Cell_ptr 102)
    ∧ stack_height 64 8 102 itp' = Returns 2 itp'
    ∧ events itp' = [].
Proof.
  exact (stack_pop_mismatch_detached 64 8 three_ints 10 103 [103; 102; 101] 100
           (mkChunk 102 (int_entry 3 7)) 30 STACK_ENTRY_FLOAT
           ltac:(lia) ltac:(done) eq_refl three_ints_chain ltac:(simpl; lia)
           ltac:(simpl; lia) eq_refl ltac:(done) ltac:(done) ltac:(done)).
Defined.

(** ** [rotate_entries]: the bubble down, and the entries as a list *)

Lemma chunk_at_lookup (h : gmap Z Stack_Chunk_t) a :
  a ≠ NULL → chunk_at h a = h !! a.
Proof. intros. unfold chunk_at. by rewrite decide_False. Qed.

(** Two moves of the entries of a stack that say the same leave the same
    chunk memory. *)
Lemma entries_moved_eq s cs b h h1 h2 f g :
  stack_chain h s cs b →
  entries_moved cs h h1 f → entries_moved cs h h2 g →
  (∀ j, (j < length cs)%nat → f j = g j) →
  h1 = h2.
Proof.
  intros H (Hl1 & Hf1 & He1) (Hl2 & Hf2 & He2) Hfg. apply map_eq. intros a.
  destruct (decide (a ∈ cs)) as [Hin|Hout]; [|by rewrite Hf1, Hf2].
  apply list_elem_of_lookup in Hin as [j Hj].
  destruct (stack_chain_lookup _ _ _ _ _ _ H Hj) as (c & Hc & _).
  pose proof (chunk_at_not_NULL _ _ _ Hc) as Hn.
  specialize (He1 j a Hj). specialize (He2 j a Hj).
  rewrite (Hfg j) in He1 by by eapply lookup_lt_Some.
  rewrite <- He2 in He1.
  specialize (Hl1 a). specialize (Hl2 a).
  unfold entry_of in *. rewrite !chunk_at_lookup in * by done.
  rewrite Hc in Hl1, Hl2.
  destruct (h1 !! a) as [[p1 d1]|], (h2 !! a) as [[p2 d2]|]; simpl in *; congruence.
Qed.

Lemma contents_moved cs h h' f :
  entries_moved cs h h' f →
  contents h' cs = f <$> seq 0 (length cs).
Proof.
  intros (_ & _ & He). apply list_eq. intros j. unfold contents.
  rewrite !list_lookup_fmap.
  destruct (cs !! j) as [a|] eqn:Ha; simpl.
  - rewrite (lookup_seq_lt _ _ _ (lookup_lt_Some _ _ _ Ha)). simpl.
    f_equal. by apply He.
  - apply lookup_ge_None in Ha. by rewrite lookup_seq_ge.
Qed.

Lemma contents_seq h cs :
  contents h cs = (λ j, cs !! j ≫= entry_of h) <$> seq 0 (length cs).
Proof.
  apply list_eq. intros j. unfold contents. rewrite !list_lookup_fmap.
  destruct (cs !! j) as [a|] eqn:Ha; simpl.
  - rewrite (lookup_seq_lt _ _ _ (lookup_lt_Some _ _ _ Ha)). simpl. by rewrite Ha.
  - apply lookup_ge_None in Ha. by rewrite lookup_seq_ge.
Qed.

(** The depths the entries come from, in a bubble up and in a bubble down
    of the top [S d] entries of [len]. *)
Lemma bubble_up_depths {A} (g : nat → A) d len :
  (d < len)%nat →
  (λ j, if decide (j < d)%nat then g (S j)
        else if decide (j = d) then g 0%nat else g j) <$> seq 0 len
  = g <$> (seq 1 d ++ [0%nat] ++ seq (S d) (len - S d)).
Proof.
  intros Hd. replace len with (d + (1 + (len - S d)))%nat at 1 by lia.
  rewrite !seq_app, !fmap_app. simpl.
  replace (d + 1)%nat with (S d) by lia. f_equal; [|f_equal].
  - rewrite <- fmap_S_seq, <- list_fmap_compose. apply list_fmap_ext.
    intros i x [-> ?]%lookup_seq. simpl. by rewrite decide_True by lia.
  - rewrite decide_False by lia. by rewrite decide_True.
  - apply list_fmap_ext. intros i x [-> ?]%lookup_seq.
    rewrite decide_False by lia. by rewrite decide_False by lia.
Qed.

Lemma bubble_down_depths {A} (g : nat → A) d len :
  (d < len)%nat →
  (λ j, if decide (j = 0%nat) then g d
        else if decide (j ≤ d)%nat then g (pred j) else g j) <$> seq 0 len
  = g <$> ([d] ++ seq 0 d ++ seq (S d) (len - S d)).
Proof.
  intros Hd. replace len with (1 + (d + (len - S d)))%nat at 1 by lia.
  rewrite !seq_app, !fmap_app. simpl. f_equal. f_equal.
  - rewrite <- (fmap_S_seq 0), <- list_fmap_compose.
    rewrite <- (list_fmap_id (seq 0 d)) at 2. rewrite <- list_fmap_compose.
    apply list_fmap_ext.
    intros i x [-> ?]%lookup_seq. simpl. by rewrite decide_True by lia.
  - apply list_fmap_ext. intros i x [-> ?]%lookup_seq.
    rewrite decide_False by lia. by rewrite decide_False by lia.
Qed.

Lemma bubble_up_depths_perm d len :
  (d < len)%nat → seq 1 d ++ [0%nat] ++ seq (S d) (len - S d) ≡ₚ seq 0 len.
Proof.
  intros Hd. replace len with (S d + (len - S d))%nat at 2 by lia.
  rewrite seq_app. simpl. by rewrite <- Permutation_middle.
Qed.

Lemma bubble_down_depths_perm d len :
  (d < len)%nat → [d] ++ seq 0 d ++ seq (S d) (len - S d) ≡ₚ seq 0 len.
Proof.
  intros Hd. replace len with (d + (1 + (len - S d)))%nat at 2 by lia.
  rewrite !seq_app. simpl. replace (d + 1)%nat with (S d) by lia.
  by rewrite Permutation_middle.
Qed.

Lemma contents_range h cs i k :
  (i + k ≤ length cs)%nat →
  (λ j, cs !! j ≫= entry_of h) <$> seq i k = take k (drop i (contents h cs)).
Proof.
  intros Hk. rewrite contents_seq, <- fmap_drop, <- fmap_take.
  rewrite drop_seq, take_seq. do 2 f_equal. lia.
Qed.

Lemma contents_length h cs : length (contents h cs) = length cs.
Proof. unfold contents. by rewrite length_fmap. Qed.

Section RotationLists.

Variable word_bits : Z.
Hypothesis word_bits_pos : 0 < word_bits.
Variables (fuel : nat) (itp : Interp) (stack_p s : Z) (cs : list Z) (b : Z).
Hypothesis stack_p_valid : stack_p ≠ NULL.
Hypothesis stack_p_top : memory itp !! stack_p = Some (Cell_ptr s).
Hypothesis stack_ok : stack_chain (chunks itp) s cs b.
Hypothesis fuel_ok : (length cs < fuel)%nat.
Hypothesis height_ok : Z.of_nat (length cs) ≤ INTVAL_MAX word_bits.

(** The bubble up and the bubble down as lists of entries. *)
Lemma rotate_entries_up_contents w :
  2 ≤ w ≤ Z.of_nat (length cs) →
  ∃ h',
    rotate_entries word_bits fuel stack_p w itp = Returns tt (with_chunks itp h')
    ∧ entries_moved cs (chunks itp) h'
        (λ j, if decide (j < Z.to_nat (w - 1))%nat
              then cs !! S j ≫= entry_of (chunks itp)
              else if decide (j = Z.to_nat (w - 1))
                   then cs !! 0%nat ≫= entry_of (chunks itp)
                   else cs !! j ≫= entry_of (chunks itp))
    ∧ contents h' cs
      = take (Z.to_nat (w - 1)) (drop 1 (contents (chunks itp) cs))
        ++ take 1 (contents (chunks itp) cs)
        ++ drop (Z.to_nat w) (contents (chunks itp) cs).
Proof.
  intros Hw.
  destruct (rotate_entries_up _ word_bits_pos fuel _ _ _ _ _
              stack_p_valid stack_p_top stack_ok fuel_ok height_ok w Hw)
    as (h' & E & Hmv).
  exists h'. split; [done|]. split; [done|].
  rewrite (contents_moved _ _ _ _ Hmv).
  rewrite (bubble_up_depths (λ j, cs !! j ≫= entry_of (chunks itp))) by lia.
  rewrite !fmap_app.
  rewrite (contents_range _ _ 1) by lia.
  change [0%nat] with (seq 0 1). rewrite (contents_range _ _ 0 1) by lia.
  rewrite (contents_range _ _ (S (Z.to_nat (w - 1)))) by lia.
  rewrite drop_0. rewrite (take_ge (drop (S (Z.to_nat (w - 1))) _)).
  - by replace (S (Z.to_nat (w - 1))) with (Z.to_nat w) by lia.
  - rewrite length_drop, contents_length. lia.
Qed.

Lemma rotate_entries_down_contents w :
  2 ≤ w ≤ Z.of_nat (length cs) →
  ∃ h',
    rotate_entries word_bits fuel stack_p (- w) itp
    = Returns tt (with_chunks itp h')
    ∧ entries_moved cs (chunks itp) h'
        (λ j, if decide (j = 0%nat)
              then cs !! Z.to_nat (w - 1) ≫= entry_of (chunks itp)
              else if decide (j ≤ Z.to_nat (w - 1))%nat
                   then cs !! pred j ≫= entry_of (chunks itp)
                   else cs !! j ≫= entry_of (chunks itp))
    ∧ contents h' cs
      = take 1 (drop (Z.to_nat (w - 1)) (contents (chunks itp) cs))
        ++ take (Z.to_nat (w - 1)) (contents (chunks itp) cs)
        ++ drop (Z.to_nat w) (contents (chunks itp) cs).
Proof.
  intros Hw.
  destruct (rotate_entries_down _ word_bits_pos fuel _ _ _ _ _
              stack_p_valid stack_p_top stack_ok fuel_ok height_ok (- w)
              ltac:(lia))
    as (h' & E & Hmv).
  replace (- - w - 1) with (w - 1) in Hmv by lia.
  exists h'. split; [done|]. split; [done|].
  rewrite (contents_moved _ _ _ _ Hmv).
  rewrite (bubble_down_depths (λ j, cs !! j ≫= entry_of (chunks itp))) by lia.
  rewrite !fmap_app.
  change [Z.to_nat (w - 1)] with (seq (Z.to_nat (w - 1)) 1).
  rewrite (contents_range _ _ (Z.to_nat (w - 1)) 1) by lia.
  rewrite (contents_range _ _ 0) by lia.
  rewrite (contents_range _ _ (S (Z.to_nat (w - 1)))) by lia.
  rewrite drop_0. rewrite (take_ge (drop (S (Z.to_nat (w - 1))) _)).
  - by replace (S (Z.to_nat (w - 1))) with (Z.to_nat w) by lia.
  - rewrite length_drop, contents_length. lia.
Qed.

End RotationLists.

(** X1.  On a stack of height at least [w], for [w] at least [2],
    [rotate_entries] by [- w] returns; the entry that was at depth [w - 1]
    is then at depth [0], the entry that was at a depth [i] from [0] to
    [w - 2] is at depth [i + 1], the entries from depth [w] on are where
    they were, and the chunks and the height of the stack are as before. *)
Theorem rotate_entries_bubble_down word_bits fuel itp stack_p s cs b w :
  0 < word_bits →
  stack_p ≠ NULL →
  memory itp !! stack_p = Some (Cell_ptr s) →
  stack_chain (chunks itp) s cs b →
  (length cs < fuel)%nat →
  Z.of_nat (length cs) ≤ INTVAL_MAX word_bits →
  2 ≤ w ≤ Z.of_nat (length cs) →
  ∃ itp',
    rotate_entries word_bits fuel stack_p (- w) itp = Returns tt itp'
    ∧ is_Some (entry_at word_bits fuel s (w - 1) itp)
    ∧ entry_at word_bits fuel s 0 itp' = entry_at word_bits fuel s (w - 1) itp
    ∧ (∀ i, 0 ≤ i ≤ w - 2 →
            entry_at word_bits fuel s (i + 1) itp'
            = entry_at word_bits fuel s i itp)
    ∧ (∀ i, w ≤ i ≤ INTVAL_MAX word_bits →
            entry_at word_bits fuel s i itp' = entry_at word_bits fuel s i itp)
    ∧ stack_chain (chunks itp') s cs b
    ∧ stack_height word_bits fuel s itp' = Returns (Z.of_nat (length cs)) itp'.
Proof.
  intros Hw Hp Hm H Hf Hlen Hn.
  destruct (rotate_entries_down _ Hw fuel _ _ _ _ _ Hp Hm H Hf Hlen (- w)
              ltac:(lia))
    as (h' & E & Hmv).
  replace (- - w - 1) with (w - 1) in Hmv by lia.
  assert (stack_chain (chunks (with_chunks itp h')) s cs b) as H'
    by exact (entries_moved_chain _ _ _ _ _ _ Hmv H).
  pose proof (INTVAL_MAX_size_t _ Hw _ Hlen) as Hsz.
  exists (with_chunks itp h'). split; [done|].
  split; [|split; [|split; [|split; [|split; [done|]]]]].
  - rewrite (entry_at_chain _ Hw _ _ _ _ _ _ H) by lia.
    destruct (lookup_lt_is_Some_2 cs (Z.to_nat (w - 1)) ltac:(lia)) as [a Ha].
    destruct (stack_chain_lookup _ _ _ _ _ _ H Ha) as (c & Hc & _).
    rewrite Ha. simpl. unfold entry_of. rewrite Hc. eauto.
  - rewrite (entry_at_chain _ Hw _ _ _ _ _ _ H') by lia.
    rewrite (entry_at_chain _ Hw _ _ _ _ _ _ H) by lia.
    rewrite (entries_moved_at _ _ _ _ _ Hmv) by lia.
    by rewrite decide_True.
  - intros i Hi.
    rewrite (entry_at_chain _ Hw _ _ _ _ _ _ H') by lia.
    rewrite (entry_at_chain _ Hw _ _ _ _ _ _ H) by lia.
    rewrite (entries_moved_at _ _ _ _ _ Hmv) by lia.
    rewrite decide_False by lia. rewrite decide_True by lia.
    by replace (pred (Z.to_nat (i + 1))) with (Z.to_nat i) by lia.
  - intros i Hi.
    rewrite (entry_at_chain _ Hw _ _ _ _ _ _ H') by lia.
    rewrite (entry_at_chain _ Hw _ _ _ _ _ _ H) by lia.
    destruct (decide (Z.to_nat i < length cs)%nat) as [Hlt|Hge].
    + rewrite (entries_moved_at _ _ _ _ _ Hmv) by lia.
      rewrite decide_False by lia. by rewrite decide_False by lia.
    + by rewrite (lookup_ge_None_2 cs (Z.to_nat i)) by lia.
  - by eapply (stack_height_chain _ Hw (with_chunks itp h')).
Qed.

(** X2.  On a stack of height at least [w], for [w] at least [2],
    [rotate_entries] by [- w] and then by [w] returns in the state it
    started from. *)
Theorem rotate_entries_down_up word_bits fuel itp stack_p s cs b w :
  0 < word_bits →
  stack_p ≠ NULL →
  memory itp !! stack_p = Some (Cell_ptr s) →
  stack_chain (chunks itp) s cs b →
  (length cs < fuel)%nat →
  Z.of_nat (length cs) ≤ INTVAL_MAX word_bits →
  2 ≤ w ≤ Z.of_nat (length cs) →
  (rotate_entries word_bits fuel stack_p (- w);;
   rotate_entries word_bits fuel stack_p w) itp
  = Returns tt itp.
Proof.
  intros Hw Hp Hm H Hf Hlen Hn.
  destruct (rotate_entries_down _ Hw fuel _ _ _ _ _ Hp Hm H Hf Hlen (- w)
              ltac:(lia))
    as (h1 & E1 & Hm1).
  replace (- - w - 1) with (w - 1) in Hm1 by lia.
  pose proof (entries_moved_chain _ _ _ _ _ _ Hm1 H) as H1.
  destruct (rotate_entries_up _ Hw fuel _ _ _ (with_chunks itp h1) _
              Hp Hm H1 Hf Hlen w Hn)
    as (h2 & E2 & Hm2).
  rewrite (bind_Returns _ _ _ _ _ E1), E2.
  rewrite with_chunks_twice.
  rewrite <- (with_chunks_id itp) at 2. do 2 f_equal.
  eapply (entries_moved_nowhere s cs b itp H).
  eapply entries_moved_ext; [|by eapply entries_moved_trans]. simpl.
  intros j Hj.
  destruct (decide (j < Z.to_nat (w - 1))%nat).
  - rewrite (entries_moved_at _ _ _ _ _ Hm1) by lia.
    rewrite decide_False by lia. by rewrite decide_True by lia.
  - destruct (decide (j = Z.to_nat (w - 1))) as [->|].
    + rewrite (entries_moved_at _ _ _ _ _ Hm1) by lia.
      by rewrite decide_True.
    + rewrite (entries_moved_at _ _ _ _ _ Hm1) by lia.
      rewrite decide_False by lia. by rewrite decide_False by lia.
Qed.

(** X3.  On a stack of height at least [2], [rotate_entries] by [2] and
    by [-2] return in the same state, in which the two top entries are
    exchanged; a second rotation by [2] gives the first state back. *)
Theorem rotate_entries_two word_bits fuel itp stack_p s cs b :
  0 < word_bits →
  stack_p ≠ NULL →
  memory itp !! stack_p = Some (Cell_ptr s) →
  stack_chain (chunks itp) s cs b →
  (length cs < fuel)%nat →
  Z.of_nat (length cs) ≤ INTVAL_MAX word_bits →
  2 ≤ Z.of_nat (length cs) →
  ∃ itp',
    rotate_entries word_bits fuel stack_p 2 itp = Returns tt itp'
    ∧ rotate_entries word_bits fuel stack_p (- 2) itp = Returns tt itp'
    ∧ entry_at word_bits fuel s 0 itp' = entry_at word_bits fuel s 1 itp
    ∧ entry_at word_bits fuel s 1 itp' = entry_at word_bits fuel s 0 itp
    ∧ rotate_entries word_bits fuel stack_p 2 itp' = Returns tt itp.
Proof.
  intros Hw Hp Hm H Hf Hlen Hn.
  destruct (rotate_entries_up _ Hw fuel _ _ _ _ _ Hp Hm H Hf Hlen 2 ltac:(lia))
    as (h1 & E1 & Hm1).
  destruct (rotate_entries_down _ Hw fuel _ _ _ _ _ Hp Hm H Hf Hlen (- 2)
              ltac:(lia))
    as (h2 & E2 & Hm2).
  simpl in Hm1, Hm2.
  assert (stack_chain (chunks (with_chunks itp h1)) s cs b) as H1
    by exact (entries_moved_chain _ _ _ _ _ _ Hm1 H).
  assert (h2 = h1) as ->.
  { eapply (entries_moved_eq _ _ _ _ _ _ _ _ H Hm2 Hm1).
    intros j Hj. by destruct j as [|[|j]]. }
  exists (with_chunks itp h1). split; [done|]. split; [done|].
  split; [|split].
  - rewrite (entry_at_chain _ Hw _ _ _ _ _ _ H1) by lia.
    rewrite (entry_at_chain _ Hw _ _ _ _ _ _ H) by lia.
    by rewrite (entries_moved_at _ _ _ _ _ Hm1) by lia.
  - rewrite (entry_at_chain _ Hw _ _ _ _ _ _ H1) by lia.
    rewrite (entry_at_chain _ Hw _ _ _ _ _ _ H) by lia.
    by rewrite (entries_moved_at _ _ _ _ _ Hm1) by lia.
  - destruct (rotate_entries_up _ Hw fuel _ _ _ (with_chunks itp h1) _
                Hp Hm H1 Hf Hlen 2 ltac:(lia))
      as (h3 & E3 & Hm3).
    rewrite E3, with_chunks_twice.
    rewrite <- (with_chunks_id itp) at 2. do 2 f_equal.
    eapply (entries_moved_nowhere s cs b itp H).
    eapply entries_moved_ext; [|by eapply entries_moved_trans]. simpl.
    intros j Hj. simpl in Hm3.
    destruct j as [|[|j]]; simpl.
    + by rewrite (entries_moved_at _ _ _ _ 1%nat Hm1) by lia.
    + by rewrite (entries_moved_at _ _ _ _ 0%nat Hm1) by lia.
    + by rewrite (entries_moved_at _ _ _ _ (S (S j)) Hm1) by lia.
Qed.

(** X4.  With the entries of the stack as a list from the top down: the
    rotation by [w] moves the head behind the [w - 1] entries that follow
    it, and the rotation by [- w] moves the entry at depth [w - 1] to the
    head; the entries from depth [w] on stay. *)
Theorem rotate_entries_contents word_bits fuel itp stack_p s cs b w :
  0 < word_bits →
  stack_p ≠ NULL →
  memory itp !! stack_p = Some (Cell_ptr s) →
  stack_chain (chunks itp) s cs b →
  (length cs < fuel)%nat →
  Z.of_nat (length cs) ≤ INTVAL_MAX word_bits →
  2 ≤ w ≤ Z.of_nat (length cs) →
  (∃ itp',
     rotate_entries word_bits fuel stack_p w itp = Returns tt itp'
     ∧ contents (chunks itp') cs
       = take (Z.to_nat (w - 1)) (drop 1 (contents (chunks itp) cs))
         ++ take 1 (contents (chunks itp) cs)
         ++ drop (Z.to_nat w) (contents (chunks itp) cs))
  ∧ (∃ itp',
       rotate_entries word_bits fuel stack_p (- w) itp = Returns tt itp'
       ∧ contents (chunks itp') cs
         = take 1 (drop (Z.to_nat (w - 1)) (contents (chunks itp) cs))
           ++ take (Z.to_nat (w - 1)) (contents (chunks itp) cs)
           ++ drop (Z.to_nat w) (contents (chunks itp) cs)).
Proof.
  intros Hw Hp Hm H Hf Hlen Hn. split.
  - destruct (rotate_entries_up_contents _ Hw fuel _ _ _ _ _ Hp Hm H Hf Hlen w Hn)
      as (h' & E & _ & Hc).
    by exists (with_chunks itp h').
  - destruct (rotate_entries_down_contents _ Hw fuel _ _ _ _ _ Hp Hm H Hf Hlen w Hn)
      as (h' & E & _ & Hc).
    by exists (with_chunks itp h').
Qed.

(** Whatever the direction, [rotate_entries] permutes the entries of the
    chunks of the stack. *)
Lemma rotate_entries_shuffles word_bits fuel itp stack_p s cs b n :
  0 < word_bits →
  stack_p ≠ NULL →
  memory itp !! stack_p = Some (Cell_ptr s) →
  stack_chain (chunks itp) s cs b →
  (length cs < fuel)%nat →
  Z.of_nat (length cs) ≤ INTVAL_MAX word_bits →
  2 ≤ Z.abs n ≤ Z.of_nat (length cs) →
  ∃ h' f,
    rotate_entries word_bits fuel stack_p n itp = Returns tt (with_chunks itp h')
    ∧ entries_moved cs (chunks itp) h' f
    ∧ contents h' cs ≡ₚ contents (chunks itp) cs.
Proof.
  intros Hw Hp Hm H Hf Hlen Hn.
  assert (∃ h' f l,
            rotate_entries word_bits fuel stack_p n itp
            = Returns tt (with_chunks itp h')
            ∧ entries_moved cs (chunks itp) h' f
            ∧ f <$> seq 0 (length cs)
              = (λ j, cs !! j ≫= entry_of (chunks itp)) <$> l
            ∧ l ≡ₚ seq 0 (length cs))
    as (h' & f & l & E & Hmv & Hf' & Hl).
  { destruct (decide (0 < n)).
    - destruct (rotate_entries_up _ Hw fuel _ _ _ _ _ Hp Hm H Hf Hlen n ltac:(lia))
        as (h' & E & Hmv).
      eexists h', _, _. split; [done|]. split; [exact Hmv|].
      split; [apply (bubble_up_depths (λ j, cs !! j ≫= entry_of (chunks itp))); lia|].
      apply bubble_up_depths_perm. lia.
    - destruct (rotate_entries_down _ Hw fuel _ _ _ _ _ Hp Hm H Hf Hlen n ltac:(lia))
        as (h' & E & Hmv).
      eexists h', _, _. split; [done|]. split; [exact Hmv|].
      split; [apply (bubble_down_depths (λ j, cs !! j ≫= entry_of (chunks itp))); lia|].
      apply bubble_down_depths_perm. lia. }
  exists h', f. split; [done|]. split; [done|].
  rewrite (contents_moved cs (chunks itp) h' f) by done.
  rewrite Hf', (contents_seq (chunks itp)). by rewrite Hl.
Qed.

(** X5.  A rotation that moves entries leaves caller memory and the
    trace as they were (no cleanup routine is called), leaves every link and
    every chunk that is not of the stack as it was, and leaves in the chunks
    of the stack a permutation of their entries. *)
Theorem rotate_entries_permutes word_bits fuel itp stack_p s cs b n :
  0 < word_bits →
  stack_p ≠ NULL →
  memory itp !! stack_p = Some (Cell_ptr s) →
  stack_chain (chunks itp) s cs b →
  (length cs < fuel)%nat →
  Z.of_nat (length cs) ≤ INTVAL_MAX word_bits →
  2 ≤ Z.abs n ≤ Z.of_nat (length cs) →
  ∃ itp',
    rotate_entries word_bits fuel stack_p n itp = Returns tt itp'
    ∧ memory itp' = memory itp
    ∧ events itp' = events itp
    ∧ stack_chain (chunks itp') s cs b
    ∧ (∀ a, prev <$> chunk_at (chunks itp') a = prev <$> chunk_at (chunks itp) a)
    ∧ (∀ a, a ∉ cs → chunks itp' !! a = chunks itp !! a)
    ∧ contents (chunks itp') cs ≡ₚ contents (chunks itp) cs.
Proof.
  intros Hw Hp Hm H Hf Hlen Hn.
  destruct (rotate_entries_shuffles _ _ _ _ _ _ _ _ Hw Hp Hm H Hf Hlen Hn)
    as (h' & f & E & Hmv & Hperm).
  exists (with_chunks itp h'). split; [done|]. split; [done|]. split; [done|].
  split; [by eapply entries_moved_chain|].
  by destruct Hmv as (Hlinks & Hframe & He).
Qed.

(** [k] bubble ups of the top [w] entries in a row bring to each of the
    [w] depths the entry [k] deeper, counted round the [w] depths. *)
Lemma rotate_entries_up_iter word_bits fuel itp stack_p s cs b w :
  0 < word_bits →
  stack_p ≠ NULL →
  memory itp !! stack_p = Some (Cell_ptr s) →
  (length cs < fuel)%nat →
  Z.of_nat (length cs) ≤ INTVAL_MAX word_bits →
  2 ≤ w ≤ Z.of_nat (length cs) →
  ∀ k h0,
    stack_chain h0 s cs b →
    ∃ h',
      Nat.iter k (λ m, rotate_entries word_bits fuel stack_p w;; m) (mret tt)
        (with_chunks itp h0)
      = Returns tt (with_chunks itp h')
      ∧ entries_moved cs h0 h'
          (λ j, if decide (j < Z.to_nat w)%nat
                then cs !! ((j + k) `mod` Z.to_nat w)%nat ≫= entry_of h0
                else cs !! j ≫= entry_of h0).
Proof.
  intros Hw Hp Hm Hf Hlen Hn.
  induction k as [|k IH]; intros h0 H.
  - exists h0. split; [done|].
    eapply entries_moved_ext; [|by eapply entries_moved_refl].
    intros j Hj. simpl. destruct (decide (j < Z.to_nat w)%nat); [|done].
    by rewrite Nat.add_0_r, Nat.mod_small.
  - destruct (rotate_entries_up _ Hw fuel s cs b (with_chunks itp h0) stack_p
                Hp Hm H Hf Hlen w Hn)
      as (h1 & E1 & Hm1).
    simpl in Hm1. rewrite with_chunks_twice in E1.
    pose proof (entries_moved_chain _ _ _ _ _ _ Hm1 H) as H1.
    destruct (IH h1 H1) as (h' & E & Hmv).
    exists h'. split.
    { simpl. by rewrite (bind_Returns _ _ _ _ _ E1). }
    eapply entries_moved_ext; [|by eapply entries_moved_trans]. simpl.
    intros j Hj.
    assert (Z.to_nat w ≠ 0)%nat as Hw0 by lia.
    destruct (decide (j < Z.to_nat w)%nat) as [Hlt|Hge].
    + pose proof (Nat.mod_upper_bound (j + k) (Z.to_nat w) Hw0) as Hi.
      rewrite (entries_moved_at _ _ _ _ _ Hm1) by lia.
      replace (j + S k)%nat with (j + k + 1)%nat by lia.
      rewrite <- (Nat.Div0.add_mod_idemp_l (j + k)).
      destruct (decide ((j + k) `mod` Z.to_nat w < Z.to_nat (w - 1))%nat)
        as [Hs|Hs].
      * rewrite (Nat.mod_small (_ + 1)) by lia. do 2 f_equal. lia.
      * rewrite decide_True by lia.
        replace ((j + k) `mod` Z.to_nat w + 1)%nat with (Z.to_nat w) by lia.
        by rewrite Nat.Div0.mod_same.
    + rewrite (entries_moved_at _ _ _ _ _ Hm1) by lia.
      rewrite decide_False by lia. by rewrite decide_False by lia.
Qed.

(** X6.  In a row of rotations by [w] of a stack of height at least [w],
    for [w] at least [2], each of the top [w] depths holds after [k]
    rotations the entry that was [k] deeper, counted round the [w] depths;
    so [w] rotations in a row return in the state they started from. *)
Theorem rotate_entries_cycle word_bits fuel itp stack_p s cs b w :
  0 < word_bits →
  stack_p ≠ NULL →
  memory itp !! stack_p = Some (Cell_ptr s) →
  stack_chain (chunks itp) s cs b →
  (length cs < fuel)%nat →
  Z.of_nat (length cs) ≤ INTVAL_MAX word_bits →
  2 ≤ w ≤ Z.of_nat (length cs) →
  (∀ k, 0 ≤ k →
     ∃ itp',
       Nat.iter (Z.to_nat k) (λ m, rotate_entries word_bits fuel stack_p w;; m)
         (mret tt) itp = Returns tt itp'
       ∧ ∀ j, 0 ≤ j < w →
              entry_at word_bits fuel s j itp'
              = entry_at word_bits fuel s ((j + k) mod w) itp)
  ∧ Nat.iter (Z.to_nat w) (λ m, rotate_entries word_bits fuel stack_p w;; m)
      (mret tt) itp = Returns tt itp.
Proof.
  intros Hw Hp Hm H Hf Hlen Hn.
  pose proof (rotate_entries_up_iter _ fuel itp _ _ _ b _ Hw Hp Hm Hf Hlen Hn)
    as Hiter.
  split.
  - intros k Hk. destruct (Hiter (Z.to_nat k) (chunks itp) H) as (h' & E & Hmv).
    rewrite with_chunks_id in E.
    exists (with_chunks itp h'). split; [done|]. intros j Hj.
    assert (stack_chain (chunks (with_chunks itp h')) s cs b) as H'
      by exact (entries_moved_chain _ _ _ _ _ _ Hmv H).
    pose proof (Z.mod_pos_bound (j + k) w ltac:(lia)) as Hmod.
    rewrite (entry_at_chain _ Hw _ _ _ _ _ _ H') by lia.
    rewrite (entry_at_chain _ Hw _ _ _ _ _ _ H) by lia.
    rewrite (entries_moved_at _ _ _ _ _ Hmv) by lia.
    rewrite decide_True by lia. do 2 f_equal.
    rewrite Z2Nat.inj_mod by lia. f_equal. lia.
  - destruct (Hiter (Z.to_nat w) (chunks itp) H) as (h' & E & Hmv).
    rewrite with_chunks_id in E. rewrite E.
    rewrite <- (with_chunks_id itp) at 2. do 2 f_equal.
    eapply (entries_moved_nowhere s cs b itp H).
    eapply entries_moved_ext; [|exact Hmv]. simpl.
    intros j Hj. destruct (decide (j < Z.to_nat w)%nat); [|done].
    rewrite <- (Nat.mul_1_l (Z.to_nat w)) at 1.
    rewrite Nat.Div0.mod_add. by rewrite Nat.mod_small.
Qed.

(** ** [stack_height] and [stack_entry]: the stacks measured, depths from the bottom *)

Lemma to_size_t_add_l word_bits a b :
  to_size_t word_bits (to_size_t word_bits a + b) = to_size_t word_bits (a + b).
Proof. unfold to_size_t. by rewrite Zplus_mod_idemp_l. Qed.

Lemma stack_height_loop_wraps word_bits itp s cs b fuel acc :
  0 < word_bits →
  stack_chain (chunks itp) s cs b →
  (length cs < fuel)%nat →
  0 ≤ acc < 2 ^ word_bits →
  stack_height_loop word_bits fuel s acc itp
  = Returns (to_size_t word_bits (acc + Z.of_nat (length cs))) itp.
Proof.
  intros Hw H. revert fuel acc.
  induction H as [b c Hc Hp | a c cs b Hc Hp H IH]; intros fuel acc Hf Ha;
    (destruct fuel as [|fuel]; [simpl in Hf; lia|]); simpl in *.
  - rewrite (bind_Returns _ _ _ _ _ (load_chunk_Some _ _ _ Hc)).
    rewrite decide_True by done. rewrite Z.add_0_r.
    by rewrite to_size_t_small.
  - rewrite (bind_Returns _ _ _ _ _ (load_chunk_Some _ _ _ Hc)).
    rewrite decide_False by done.
    rewrite IH; [|lia|by apply to_size_t_range].
    rewrite to_size_t_add_l. do 2 f_equal. lia.
Qed.

(** X7.  [stack_height] returns, for some bound on its loop, exactly on
    the chains of chunks that end in a self-linked chunk; there it answers
    the number of chunks above that one, reduced modulo [2 ^ word_bits] as
    the arithmetic of [size_t] has it, in the state it started from. *)
Theorem stack_height_measures_chains word_bits itp s :
  0 < word_bits →
  ((∃ fuel h itp', stack_height word_bits fuel s itp = Returns h itp')
   ↔ ∃ cs b, stack_chain (chunks itp) s cs b)
  ∧ (∀ cs b fuel,
       stack_chain (chunks itp) s cs b →
       (length cs < fuel)%nat →
       stack_height word_bits fuel s itp
       = Returns (Z.of_nat (length cs) mod 2 ^ word_bits) itp).
Proof.
  intros Hw. split; [split|].
  - intros (fuel & h & itp' & E).
    destruct (stack_height_loop_returns word_bits fuel _ _ _ _ _ E)
      as (cs & b & H & _).
    eauto.
  - intros (cs & b & H). eexists (S (length cs)), _, itp.
    unfold stack_height.
    apply (stack_height_loop_wraps _ _ _ _ _ _ _ Hw H); [lia|].
    pose proof (two_pow_word _ Hw). pose proof (two_pow_half_pos _ Hw). lia.
  - intros cs b fuel H Hf. unfold stack_height.
    rewrite (stack_height_loop_wraps _ _ _ _ _ _ _ Hw H Hf); [done|].
    pose proof (two_pow_word _ Hw). pose proof (two_pow_half_pos _ Hw). lia.
Qed.

Lemma never_raises_get_entry_type e : never_raises (get_entry_type e).
Proof.
  apply never_raises_bind; [apply never_raises_load_entry|].
  intros v. apply never_raises_ret.
Qed.

Lemma read_only_load_entry e : read_only (load_entry e).
Proof.
  apply read_only_bind; [apply read_only_load_chunk|].
  intros c. apply read_only_ret.
Qed.

Lemma read_only_get_entry_type e : read_only (get_entry_type e).
Proof.
  apply read_only_bind; [apply read_only_load_entry|].
  intros v. apply read_only_ret.
Qed.

(** X8.  [stack_height], [stack_entry] and [get_entry_type] never raise,
    and when they return the state is the one they started from. *)
Theorem stack_queries_pure word_bits fuel :
  (∀ chunk, never_raises (stack_height word_bits fuel chunk)
            ∧ read_only (stack_height word_bits fuel chunk))
  ∧ (∀ stack depth, never_raises (stack_entry word_bits fuel stack depth)
                    ∧ read_only (stack_entry word_bits fuel stack depth))
  ∧ (∀ e, never_raises (get_entry_type e) ∧ read_only (get_entry_type e)).
Proof.
  split; [|split].
  - intros chunk. split.
    + apply never_raises_stack_height_loop.
    + apply read_only_stack_height_loop.
  - intros stack depth. split.
    + apply never_raises_stack_entry.
    + apply read_only_stack_entry.
  - intros e. split.
    + apply never_raises_get_entry_type.
    + apply read_only_get_entry_type.
Qed.

(** For a negative depth, [stack_entry] walks the stack it is given to the
    height of the user stack plus the depth. *)
Lemma stack_entry_negative word_bits fuel itp s us ucs ub depth :
  0 < word_bits →
  load_ptr (user_stack_var itp) itp = Returns us itp →
  stack_chain (chunks itp) us ucs ub →
  (length ucs < fuel)%nat →
  Z.of_nat (length ucs) ≤ INTVAL_MAX word_bits →
  INTVAL_MIN word_bits ≤ depth < 0 →
  stack_entry word_bits fuel s depth itp
  = if decide (Z.of_nat (length ucs) + depth < 0) then Returns NULL itp
    else stack_entry_from s (Z.of_nat (length ucs) + depth) itp.
Proof.
  intros Hw Hus Hu Hf Hlen Hd.
  pose proof (INTVAL_MAX_size_t _ Hw _ Hlen) as Hsz.
  pose proof (stack_height_chain _ Hw _ _ _ _ _ Hu Hf Hsz) as Hh.
  unfold stack_entry. rewrite decide_True by lia.
  rewrite (bind_Returns get_interp _ itp itp itp eq_refl).
  rewrite (bind_Returns _ _ _ _ _ Hus).
  rewrite (bind_Returns _ _ _ _ _ Hh).
  rewrite (to_INTVAL_small _ Hw) by lia.
  case_decide; [done|].
  by rewrite (to_size_t_INTVAL _ Hw) by lia.
Qed.

(** X9.  In the user stack of the current context itself, of height [h],
    [stack_entry] at depth [- k] answers, for [k] from [1] to [h], the
    [k]-th entry from the bottom, which is the entry at depth [h - k]; for
    [k] larger than [h] it answers null. *)
Theorem stack_entry_from_bottom word_bits fuel itp s cs b k :
  0 < word_bits →
  load_ptr (user_stack_var itp) itp = Returns s itp →
  stack_chain (chunks itp) s cs b →
  (length cs < fuel)%nat →
  Z.of_nat (length cs) ≤ INTVAL_MAX word_bits →
  1 ≤ k ≤ - INTVAL_MIN word_bits →
  (k ≤ Z.of_nat (length cs) →
   ∃ a, reverse cs !! Z.to_nat (k - 1) = Some a
        ∧ stack_entry word_bits fuel s (- k) itp = Returns (STACK_DATAP a) itp
        ∧ entry_at word_bits fuel s (- k) itp
          = entry_at word_bits fuel s (Z.of_nat (length cs) - k) itp)
  ∧ (Z.of_nat (length cs) < k →
     stack_entry word_bits fuel s (- k) itp = Returns NULL itp).
Proof.
  intros Hw Hus H Hf Hlen Hk.
  pose proof (stack_entry_negative _ fuel _ s _ _ _ (- k) Hw Hus H Hf Hlen
                ltac:(lia)) as E.
  split.
  - intros Hle. rewrite decide_False in E by lia.
    destruct (lookup_lt_is_Some_2 (reverse cs) (Z.to_nat (k - 1))) as [a Ha];
      [rewrite length_reverse; lia|].
    exists a. split; [done|].
    assert (cs !! Z.to_nat (Z.of_nat (length cs) + - k) = Some a) as Ha'.
    { rewrite reverse_lookup in Ha by lia. rewrite <- Ha. f_equal. lia. }
    split.
    + rewrite E. by eapply stack_entry_from_found.
    + unfold entry_at. unfold mbind, M_bind. rewrite E.
      rewrite (stack_entry_nonneg _ Hw) by lia.
      by replace (Z.of_nat (length cs) - k) with (Z.of_nat (length cs) + - k)
        by lia.
  - intros Hgt. rewrite E. by rewrite decide_True by lia.
Qed.

(** ** [stack_push] and [stack_pop]: the stack beneath *)

(** The entries found in a stack depend on its chunks only. *)
Lemma entry_at_frame word_bits fuel itp itp' s cs b d :
  0 < word_bits →
  stack_chain (chunks itp) s cs b →
  stack_chain (chunks itp') s cs b →
  (∀ a, a ∈ cs → entry_of (chunks itp') a = entry_of (chunks itp) a) →
  0 ≤ d ≤ INTVAL_MAX word_bits →
  entry_at word_bits fuel s d itp' = entry_at word_bits fuel s d itp.
Proof.
  intros Hw H H' He Hd.
  rewrite (entry_at_chain _ Hw _ _ _ _ _ _ H) by done.
  rewrite (entry_at_chain _ Hw _ _ _ _ _ _ H') by done.
  destruct (cs !! Z.to_nat d) as [a|] eqn:Ha; [simpl|done].
  apply He. by eapply list_elem_of_lookup_2.
Qed.

(** The entry one deeper than [d] in a chain with one more chunk on top. *)
Lemma entry_at_beneath word_bits fuel itp itp' s s1 cs b d :
  0 < word_bits →
  stack_chain (chunks itp) s cs b →
  stack_chain (chunks itp') s1 (s1 :: cs) b →
  (∀ a, a ∈ cs → entry_of (chunks itp') a = entry_of (chunks itp) a) →
  0 ≤ d < INTVAL_MAX word_bits →
  entry_at word_bits fuel s1 (d + 1) itp' = entry_at word_bits fuel s d itp.
Proof.
  intros Hw H H' He Hd.
  rewrite (entry_at_chain _ Hw _ _ _ _ _ _ H) by lia.
  rewrite (entry_at_chain _ Hw _ _ _ _ _ _ H') by lia.
  replace (Z.to_nat (d + 1)) with (S (Z.to_nat d)) by lia. simpl.
  destruct (cs !! Z.to_nat d) as [a|] eqn:Ha; [simpl|done].
  apply He. by eapply list_elem_of_lookup_2.
Qed.

Lemma entry_of_pushed_chain itp stack_p s cs b v a :
  stack_chain (chunks itp) s cs b → a ∈ cs →
  entry_of (chunks (pushed itp stack_p s v)) a = entry_of (chunks itp) a.
Proof.
  intros H Ha. apply entry_of_pushed.
  apply list_elem_of_lookup_1 in Ha as [i Hi].
  destruct (stack_chain_lookup _ _ _ _ _ _ H Hi) as (c & Hc & _). eauto.
Qed.

(** X10.  [stack_push] with the type [0] raises [ERROR_BAD_STACK_TYPE],
    and by then the chunk is on the stack: the stack variable designates
    it, the height is one more, its entry has the tag [0] and the cleanup
    routine that was given, and the entries beneath are one deeper.  No
    cleanup routine has been called. *)
Theorem stack_push_no_type word_bits fuel itp stack_p s cs b thing f :
  0 < word_bits →
  stack_p ≠ NULL →
  memory itp !! stack_p = Some (Cell_ptr s) →
  stack_chain (chunks itp) s cs b →
  (S (length cs) < fuel)%nat →
  Z.of_nat (length cs) < INTVAL_MAX word_bits →
  ∃ itp' s1 u,
    stack_push stack_p thing NO_STACK_ENTRY_TYPE f itp
    = Raises ERROR_BAD_STACK_TYPE "Invalid Stack_Entry_type!" itp'
    ∧ memory itp' !! stack_p = Some (Cell_ptr s1)
    ∧ stack_height word_bits fuel s1 itp'
      = Returns (Z.of_nat (length cs) + 1) itp'
    ∧ entry_at word_bits fuel s1 0 itp'
      = Some (mkEntry u NO_STACK_ENTRY_TYPE f)
    ∧ (∀ d, 0 ≤ d < INTVAL_MAX word_bits →
            entry_at word_bits fuel s1 (d + 1) itp'
            = entry_at word_bits fuel s d itp)
    ∧ events itp' = events itp.
Proof.
  intros Hw Hp Hm H Hf Hlen.
  destruct (new_chunk_fresh itp) as [Hfr Hn].
  set (v := mkEntry (U_int 0) NO_STACK_ENTRY_TYPE f).
  pose proof (stack_chain_pushed itp stack_p s cs b v H) as H1.
  exists (pushed itp stack_p s v), (new_chunk itp), (U_int 0).
  split; [|split; [|split; [|split; [|split]]]].
  - unfold stack_push. by rewrite (stack_push_prefix _ _ _ _ _ _ Hp Hm).
  - apply lookup_insert_eq.
  - rewrite (stack_height_chain _ Hw _ _ _ _ _ H1).
    + do 2 f_equal. simpl. lia.
    + simpl. lia.
    + apply (INTVAL_MAX_size_t _ Hw). simpl. lia.
  - rewrite (entry_at_chain _ Hw _ _ _ _ _ _ H1) by lia. simpl.
    unfold entry_of. rewrite chunk_at_insert by done. by rewrite decide_True.
  - intros d Hd. eapply entry_at_beneath; try done.
    intros a Ha. by eapply entry_of_pushed_chain.
  - done.
Qed.

(** X11.  A [stack_pop] that passes its type test, with [where] null, or
    with the top entry well tagged and [where] not the stack variable, and
    whose cleanup routine, if the entry has one, returns leaving chunk
    memory and the stack variable as they were, returns [where]; chunk
    memory is as before, the stack variable designates the chunk beneath,
    the height is one less, and what was at depth [d + 1] is at depth
    [d]. *)
Theorem stack_pop_shrinks routine word_bits fuel itp stack_p s c cs b where_ type
    itp1 :
  0 < word_bits →
  stack_p ≠ NULL →
  memory itp !! stack_p = Some (Cell_ptr s) →
  chunk_at (chunks itp) s = Some c →
  prev c ≠ s →
  stack_chain (chunks itp) (prev c) cs b →
  (S (length cs) < fuel)%nat →
  Z.of_nat (length cs) < INTVAL_MAX word_bits →
  (where_ = NULL ∧ (type = NO_STACK_ENTRY_TYPE ∨ entry_type (data c) = type))
  ∨ (where_ ≠ NULL ∧ where_ ≠ stack_p
     ∧ entry_type (data c) = type ∧ well_tagged (data c) = true) →
  cleanup_returns routine itp stack_p s c itp1 →
  chunks itp1 = chunks itp →
  memory itp1 !! stack_p = Some (Cell_ptr (prev c)) →
  ∃ itp',
    Routines.stack_pop routine stack_p where_ type itp = Returns where_ itp'
    ∧ chunks itp' = chunks itp
    ∧ memory itp' !! stack_p = Some (Cell_ptr (prev c))
    ∧ events itp' = events itp1
    ∧ stack_height word_bits fuel s itp
      = Returns (Z.of_nat (length cs) + 1) itp
    ∧ stack_height word_bits fuel (prev c) itp'
      = Returns (Z.of_nat (length cs)) itp'
    ∧ (∀ d, 0 ≤ d < INTVAL_MAX word_bits →
            entry_at word_bits fuel (prev c) d itp'
            = entry_at word_bits fuel s (d + 1) itp).
Proof.
  intros Hw Hp Hm Hc Hl H Hf Hlen Hcase Hr Hch1 Hm1.
  assert (stack_chain (chunks itp) s (s :: cs) b) as Hs by by econstructor.
  assert (∃ itp',
            Routines.stack_pop routine stack_p where_ type itp
            = Returns where_ itp'
            ∧ chunks itp' = chunks itp
            ∧ memory itp' !! stack_p = Some (Cell_ptr (prev c))
            ∧ events itp' = events itp1)
    as (itp' & E & Hch & Hm' & Hev).
  { destruct Hcase as [[-> Ht]|(Hwn & Hws & Ht & Hwt)].
    - exists itp1. split; [by eapply stack_pop_routine_discard | done].
    - eexists. split.
      + eapply (stack_pop_routine_copy routine _ _ _ _ Hp Hm Hc Hl where_ type
                  itp1 c Ht Hr Hwn); [by rewrite Hch1|].
        rewrite <- Ht. by destruct (data c).
      + simpl. split; [done|]. split; [|done].
        by rewrite lookup_insert_ne. }
  exists itp'. split; [done|]. split; [done|]. split; [done|]. split; [done|].
  assert (stack_chain (chunks itp') (prev c) cs b) as H' by by rewrite Hch.
  assert (stack_chain (chunks itp') s (s :: cs) b) as Hs' by by rewrite Hch.
  split; [|split].
  - rewrite (stack_height_chain _ Hw _ _ _ _ _ Hs).
    + do 2 f_equal. simpl. lia.
    + simpl. lia.
    + apply (INTVAL_MAX_size_t _ Hw). simpl. lia.
  - apply (stack_height_chain _ Hw _ _ _ _ _ H'); [lia|].
    apply (INTVAL_MAX_size_t _ Hw). lia.
  - intros d Hd. symmetry.
    eapply (entry_at_beneath _ _ itp' itp); try done.
    intros a Ha. by rewrite Hch.
Qed.

(** X12.  [stack_push] followed by [stack_pop] with the same type, when
    the cleanup routine given to [stack_push], if any, returns leaving chunk
    memory and the stack variable as they were: [stack_pop] returns [where],
    having stored the value that was pushed through it in the caller memory
    the routine has left (which is the caller memory of the start when no
    routine was given); the stack variable designates the chunk it
    designated, chunk memory differs in the new chunk only, and the stack
    has the height and the entries it had. *)
Theorem stack_push_pop_restores routine word_bits fuel itp stack_p s cs b
    thing type f where_ u itpr :
  0 < word_bits →
  stack_p ≠ NULL →
  where_ ≠ NULL →
  where_ ≠ stack_p →
  memory itp !! stack_p = Some (Cell_ptr s) →
  stack_chain (chunks itp) s cs b →
  (length cs < fuel)%nat →
  Z.of_nat (length cs) ≤ INTVAL_MAX word_bits →
  thing_payload (memory itp) thing type = Some u →
  cleanup_returns routine (pushed itp stack_p s (mkEntry u type f)) stack_p
    (STACK_DATAP (new_chunk itp)) (mkChunk s (mkEntry u type f)) itpr →
  chunks itpr = chunks (pushed itp stack_p s (mkEntry u type f)) →
  memory itpr !! stack_p = Some (Cell_ptr s) →
  ∃ itp2,
    (stack_push stack_p thing type f;;
     Routines.stack_pop routine stack_p where_ type) itp
    = Returns where_ itp2
    ∧ memory itp2 = <[where_ := cell_of u]> (memory itpr)
    ∧ memory itp2 !! stack_p = Some (Cell_ptr s)
    ∧ (f = STACK_CLEANUP_NULL →
       memory itp2 = <[where_ := cell_of u]> (memory itp))
    ∧ (∀ a, a ≠ new_chunk itp → chunks itp2 !! a = chunks itp !! a)
    ∧ stack_chain (chunks itp2) s cs b
    ∧ stack_height word_bits fuel s itp2 = Returns (Z.of_nat (length cs)) itp2
    ∧ (∀ d, 0 ≤ d ≤ INTVAL_MAX word_bits →
            entry_at word_bits fuel s d itp2 = entry_at word_bits fuel s d itp).
Proof.
  intros Hw Hp Hwn Hws Hm H Hf Hlen Hu Hr Hchr Hmr.
  destruct (new_chunk_fresh itp) as [Hfr Hn].
  pose proof (thing_payload_well_tagged _ _ _ _ f Hu) as Hwt.
  destruct (stack_chain_top_chunk _ _ _ _ H) as [c0 Hc0].
  set (c := mkChunk s (mkEntry u type f)) in *.
  set (itp1 := pushed itp stack_p s (mkEntry u type f)) in *.
  assert (memory itp1 !! stack_p = Some (Cell_ptr (new_chunk itp))) as Hm1
    by apply lookup_insert_eq.
  assert (chunk_at (chunks itp1) (new_chunk itp) = Some c) as Hc1.
  { simpl. rewrite chunk_at_insert by done. by rewrite decide_True. }
  assert (prev c ≠ new_chunk itp) as Hl1.
  { simpl. intros ->. unfold chunk_at in Hc0.
    destruct (decide (new_chunk itp = NULL)); congruence. }
  assert (chunk_at (chunks itpr) (new_chunk itp) = Some c) as Hcr
    by by rewrite Hchr.
  pose proof (stack_pop_routine_copy routine _ _ _ _ Hp Hm1 Hc1 Hl1 where_ type
                itpr c eq_refl Hr Hwn Hcr Hwt) as Epop.
  simpl in Epop.
  eexists. split.
  { rewrite (bind_Returns _ _ _ _ _
               (stack_push_returns _ _ _ _ _ f _ Hp Hm Hu)).
    exact Epop. }
  assert (stack_chain (chunks itpr) s cs b) as Hchain.
  { rewrite Hchr. simpl. by apply stack_chain_insert_fresh. }
  simpl.
  split; [done|].
  split; [by rewrite lookup_insert_ne|].
  split.
  { intros ->. unfold cleanup_returns in Hr.
    rewrite decide_False in Hr by (intros Hn'; by apply Hn').
    injection Hr as <-. simpl.
    rewrite insert_insert_eq. by rewrite (insert_id (memory itp) stack_p). }
  split; [intros a Ha; rewrite Hchr; simpl; by rewrite lookup_insert_ne|].
  split; [done|].
  split.
  - eapply (stack_height_chain _ Hw); [exact Hchain | done |].
    by apply (INTVAL_MAX_size_t _ Hw).
  - intros d Hd. eapply entry_at_frame; try done.
    intros a Ha. simpl. rewrite Hchr.
    by eapply (entry_of_pushed_chain itp stack_p).
Qed.

(** X13.  [stack_push] of a value of one of the eight types returns; the
    stack variable then designates a chunk at an address that held none
    before, on top of the chunks of the stack, whose height is one more.  No
    other chunk and no other cell of caller memory is changed, and no
    cleanup routine is called. *)
Theorem stack_push_grows word_bits fuel itp stack_p s cs b thing type f u :
  0 < word_bits →
  stack_p ≠ NULL →
  memory itp !! stack_p = Some (Cell_ptr s) →
  stack_chain (chunks itp) s cs b →
  (S (length cs) < fuel)%nat →
  Z.of_nat (length cs) < INTVAL_MAX word_bits →
  thing_payload (memory itp) thing type = Some u →
  ∃ itp1 s1,
    stack_push stack_p thing type f itp = Returns tt itp1
    ∧ s1 ≠ NULL
    ∧ chunks itp !! s1 = None
    ∧ (∀ a, a ≠ s1 → chunks itp1 !! a = chunks itp !! a)
    ∧ (∀ p, p ≠ stack_p → memory itp1 !! p = memory itp !! p)
    ∧ memory itp1 !! stack_p = Some (Cell_ptr s1)
    ∧ events itp1 = events itp
    ∧ stack_chain (chunks itp1) s1 (s1 :: cs) b
    ∧ stack_height word_bits fuel s itp = Returns (Z.of_nat (length cs)) itp
    ∧ stack_height word_bits fuel s1 itp1
      = Returns (Z.of_nat (length cs) + 1) itp1.
Proof.
  intros Hw Hp Hm H Hf Hlen Hu.
  destruct (new_chunk_fresh itp) as [Hfr Hn].
  set (v := mkEntry u type f).
  pose proof (stack_chain_pushed itp stack_p s cs b v H) as H1.
  exists (pushed itp stack_p s v), (new_chunk itp).
  split; [by apply stack_push_returns|].
  split; [done|]. split; [done|].
  split; [intros a Ha; simpl; by rewrite lookup_insert_ne|].
  split; [intros p Hne; simpl; by rewrite lookup_insert_ne|].
  split; [apply lookup_insert_eq|]. split; [done|]. split; [done|].
  split.
  - apply (stack_height_chain _ Hw _ _ _ _ _ H); [lia|].
    apply (INTVAL_MAX_size_t _ Hw). lia.
  - rewrite (stack_height_chain _ Hw _ _ _ _ _ H1).
    + do 2 f_equal. simpl. lia.
    + simpl. lia.
    + apply (INTVAL_MAX_size_t _ Hw). simpl. lia.
Qed.

(** ** [stack_peek], [get_entry_type] and [pop_dest] *)

(** At depth [0], [stack_entry] tests the chunk it is given. *)
Lemma stack_entry_top word_bits fuel itp s c :
  0 < word_bits →
  chunk_at (chunks itp) s = Some c →
  stack_entry word_bits fuel s 0 itp
  = Returns (if decide (s = prev c) then NULL else STACK_DATAP s) itp.
Proof.
  intros Hw Hc.
  pose proof (two_pow_half_pos _ Hw) as Hhalf.
  rewrite (stack_entry_nonneg _ Hw) by (unfold INTVAL_MAX; lia).
  unfold stack_entry_from. simpl.
  rewrite (bind_Returns (mret s) _ itp s itp eq_refl).
  rewrite (bind_Returns _ _ _ _ _ (load_chunk_Some _ _ _ Hc)).
  by destruct (decide (s = prev c)).
Qed.

(** On a chunk that is not self-linked, [stack_peek] stores the tag and
    answers what its switch reads. *)
Lemma stack_peek_reads word_bits pmc_bits ptr_bits fuel itp s c type :
  0 < word_bits →
  chunk_at (chunks itp) s = Some c →
  prev c ≠ s →
  stack_peek word_bits pmc_bits ptr_bits fuel s type itp
  = Returns
      (if decide (entry_type (data c) = STACK_ENTRY_POINTER
                  ∨ entry_type (data c) = STACK_ENTRY_DESTINATION)
       then default (ptr_bits (entry (data c))) (UVal_ptr (entry (data c)))
       else default (pmc_bits (entry (data c))) (UVal_pmc (entry (data c))))
      (if decide (type ≠ NULL)
       then with_memory itp
              (<[type := Cell_INTVAL (Stack_entry_type_value (entry_type (data c)))]>
                 (memory itp))
       else itp).
Proof.
  intros Hw Hc Hl. unfold stack_peek.
  rewrite (bind_Returns _ _ _ _ _ (stack_entry_top _ fuel _ _ _ Hw Hc)).
  rewrite (decide_False (P := s = prev c)) by done.
  pose proof (chunk_at_not_NULL _ _ _ Hc) as Hs.
  unfold STACK_DATAP. rewrite decide_False by done.
  assert (∀ itp1, chunks itp1 = chunks itp →
            (v ← load_entry s;
             match entry_type v with
             | STACK_ENTRY_POINTER | STACK_ENTRY_DESTINATION =>
                 mret (default (ptr_bits (entry v)) (UVal_ptr (entry v)))
             | _ => mret (default (pmc_bits (entry v)) (UVal_pmc (entry v)))
             end) itp1
            = Returns
                (if decide (entry_type (data c) = STACK_ENTRY_POINTER
                            ∨ entry_type (data c) = STACK_ENTRY_DESTINATION)
                 then default (ptr_bits (entry (data c))) (UVal_ptr (entry (data c)))
                 else default (pmc_bits (entry (data c))) (UVal_pmc (entry (data c))))
                itp1) as Hsw.
  { intros itp1 Hch. rewrite <- Hch in Hc.
    rewrite (bind_Returns _ _ _ _ _ (load_entry_Some _ _ _ Hc)).
    destruct (entry_type (data c)); try done;
      (rewrite decide_False; [done|]); by intros [|]. }
  destruct (decide (type ≠ NULL)) as [Ht|Ht].
  - erewrite bind_Returns; cycle 1.
    { rewrite (bind_Returns _ _ _ _ _ (load_entry_Some _ _ _ Hc)).
      by apply store_cell_ok. }
    by apply Hsw.
  - rewrite (bind_Returns (mret tt) _ itp tt itp eq_refl). by apply Hsw.
Qed.

Lemma stack_peek_found word_bits pmc_bits ptr_bits fuel itp s c type p :
  0 < word_bits →
  chunk_at (chunks itp) s = Some c →
  prev c ≠ s →
  peeked (data c) = Some p →
  stack_peek word_bits pmc_bits ptr_bits fuel s type itp
  = Returns p
      (if decide (type ≠ NULL)
       then with_memory itp
              (<[type := Cell_INTVAL (Stack_entry_type_value (entry_type (data c)))]>
                 (memory itp))
       else itp).
Proof.
  intros Hw Hc Hl Hpk.
  rewrite (stack_peek_reads _ _ _ _ _ _ _ _ Hw Hc Hl). f_equal.
  unfold peeked in Hpk.
  destruct (entry_type (data c)), (entry (data c)); try discriminate Hpk;
    injection Hpk as ->; try done;
    (rewrite decide_False; [done|]); by intros [|].
Qed.

(** X14.  [stack_peek] on a self-linked chunk answers null and changes
    nothing.  On a chunk that is not self-linked, whose entry holds a
    pointer or an object reference under a tag for it, it answers that
    pointer; it stores the tag through [type] when [type] is not null and
    changes nothing else, so the entry is there for the next [stack_peek]. *)
Theorem stack_peek_top word_bits pmc_bits ptr_bits fuel itp s c type :
  0 < word_bits →
  chunk_at (chunks itp) s = Some c →
  (prev c = s →
   stack_peek word_bits pmc_bits ptr_bits fuel s type itp = Returns NULL itp)
  ∧ (∀ p, prev c ≠ s → peeked (data c) = Some p →
          ∃ itp',
            stack_peek word_bits pmc_bits ptr_bits fuel s type itp
            = Returns p itp'
            ∧ cell_of (entry (data c)) = Cell_ptr p
            ∧ chunks itp' = chunks itp
            ∧ events itp' = events itp
            ∧ (type = NULL → itp' = itp)
            ∧ (type ≠ NULL →
               memory itp'
               = <[type := Cell_INTVAL (Stack_entry_type_value
                                          (entry_type (data c)))]> (memory itp))
            ∧ stack_peek word_bits pmc_bits ptr_bits fuel s NULL itp'
              = Returns p itp').
Proof.
  intros Hw Hc. split.
  - intros Hl. unfold stack_peek.
    rewrite (bind_Returns _ _ _ _ _ (stack_entry_top _ fuel _ _ _ Hw Hc)).
    rewrite (decide_True (P := s = prev c)) by done.
    by rewrite decide_True.
  - intros p Hl Hpk. eexists. split; [by apply stack_peek_found|].
    split.
    { unfold peeked in Hpk.
      destruct (entry_type (data c)), (entry (data c)); try discriminate Hpk;
        by injection Hpk as ->. }
    destruct (decide (type ≠ NULL)) as [Ht|Ht]; simpl.
    + split; [done|]. split; [done|]. split; [done|]. split; [done|].
      rewrite (stack_peek_found _ _ _ _ _ _ c NULL p Hw) by done.
      by rewrite decide_False by (intros Hn; by apply Hn).
    + split; [done|]. split; [done|]. split; [done|]. split; [done|].
      rewrite (stack_peek_found _ _ _ _ _ _ c NULL p Hw) by done.
      by rewrite decide_False by (intros Hn; by apply Hn).
Qed.

Lemma never_raises_store_cell p v : never_raises (store_cell p v).
Proof.
  intros itp k msg itp'. unfold store_cell.
  by destruct (decide (p = NULL)).
Qed.

Lemma never_raises_stack_peek word_bits pmc_bits ptr_bits fuel stack_base type :
  never_raises (stack_peek word_bits pmc_bits ptr_bits fuel stack_base type).
Proof.
  apply never_raises_bind; [apply never_raises_stack_entry|].
  intros e. destruct (decide (e = NULL)); [apply never_raises_ret|].
  apply never_raises_bind.
  - destruct (decide (type ≠ NULL)); [|apply never_raises_ret].
    apply never_raises_bind; [apply never_raises_load_entry|].
    intros v. apply never_raises_store_cell.
  - intros _. apply never_raises_bind; [apply never_raises_load_entry|].
    intros v. destruct (entry_type v); apply never_raises_ret.
Qed.

Lemma read_only_from_option {A} (o : option A) : read_only (from_option o).
Proof. destruct o; [apply read_only_ret | by intros itp a itp']. Qed.

(** X15.  [stack_peek] never raises; when it returns, chunk memory and
    the trace are as before, and caller memory is as before at every
    address but [type]; with [type] null the state is the one it started
    from.  And it does return on every chunk that is not self-linked,
    whatever the tag of the entry: it stores the tag through [type] when
    [type] is not null, and answers what the member [UVal_ptr] reads for a
    pointer or a destination, and what the member [UVal_pmc] reads for
    every other tag. *)
Theorem stack_peek_frame word_bits pmc_bits ptr_bits fuel stack_base type :
  never_raises (stack_peek word_bits pmc_bits ptr_bits fuel stack_base type)
  ∧ (∀ itp p itp',
       stack_peek word_bits pmc_bits ptr_bits fuel stack_base type itp
       = Returns p itp' →
       chunks itp' = chunks itp
       ∧ events itp' = events itp
       ∧ user_stack_var itp' = user_stack_var itp
       ∧ (∀ q, q ≠ type → memory itp' !! q = memory itp !! q)
       ∧ (type = NULL → itp' = itp))
  ∧ (∀ itp c,
       0 < word_bits →
       chunk_at (chunks itp) stack_base = Some c →
       prev c ≠ stack_base →
       ∃ p itp',
         stack_peek word_bits pmc_bits ptr_bits fuel stack_base type itp
         = Returns p itp'
         ∧ (type ≠ NULL →
            memory itp' !! type
            = Some (Cell_INTVAL (Stack_entry_type_value (entry_type (data c)))))
         ∧ (entry_type (data c) = STACK_ENTRY_POINTER
            ∨ entry_type (data c) = STACK_ENTRY_DESTINATION →
            p = default (ptr_bits (entry (data c))) (UVal_ptr (entry (data c))))
         ∧ (entry_type (data c) ≠ STACK_ENTRY_POINTER →
            entry_type (data c) ≠ STACK_ENTRY_DESTINATION →
            p = default (pmc_bits (entry (data c))) (UVal_pmc (entry (data c))))).
Proof.
  split; [apply never_raises_stack_peek|]. split.
  - intros itp p itp' E. unfold stack_peek in E.
    apply bind_Returns_inv in E as (e & itp1 & He & E).
    apply read_only_stack_entry in He as ->.
    destruct (decide (e = NULL)); [by injection E as <- <-|].
    apply bind_Returns_inv in E as (u & itp1 & Hst & E).
    apply bind_Returns_inv in E as (v & itp2 & Hv & E).
    apply read_only_load_entry in Hv as ->.
    assert (itp' = itp1) as ->.
    { destruct (entry_type v); by apply read_only_ret in E. }
    destruct (decide (type ≠ NULL)) as [Ht|Ht].
    + apply bind_Returns_inv in Hst as (v' & itp2 & Hv' & Hst).
      apply read_only_load_entry in Hv' as ->.
      unfold store_cell in Hst. rewrite decide_False in Hst by done.
      injection Hst; intros; subst itp1; simpl.
      split; [done|]. split; [done|]. split; [done|]. split; [|done].
      intros q Hq. by rewrite lookup_insert_ne.
    + injection Hst; intros; subst itp1. repeat split; done.
  - intros itp c Hw Hc Hl. eexists _, _.
    split; [by apply stack_peek_reads|].
    split; [|split].
    + intros Ht. rewrite decide_True by done. simpl. apply lookup_insert_eq.
    + intros Hty. by rewrite decide_True.
    + intros Hp Hd. rewrite decide_False; [done|]. by intros [|].
Qed.

(** X16.  After a [stack_push] of [thing] as an object reference, an
    action, a pointer or a destination, [stack_peek] on the new top answers
    [thing] and stores through [type] the tag that was pushed; no cleanup
    routine is called, and the new chunk holds the entry. *)
Theorem stack_push_peek word_bits pmc_bits ptr_bits fuel itp stack_p s cs b
    thing type f t :
  0 < word_bits →
  stack_p ≠ NULL →
  t ≠ NULL →
  memory itp !! stack_p = Some (Cell_ptr s) →
  stack_chain (chunks itp) s cs b →
  type = STACK_ENTRY_PMC ∨ type = STACK_ENTRY_ACTION
  ∨ type = STACK_ENTRY_POINTER ∨ type = STACK_ENTRY_DESTINATION →
  ∃ itp2,
    (stack_push stack_p thing type f;;
     top ← load_ptr stack_p;
     stack_peek word_bits pmc_bits ptr_bits fuel top t) itp = Returns thing itp2
    ∧ memory itp2 !! t = Some (Cell_INTVAL (Stack_entry_type_value type))
    ∧ events itp2 = events itp
    ∧ chunks itp2 !! new_chunk itp
      = Some (mkChunk s (mkEntry (if decide (type = STACK_ENTRY_PMC
                                             ∨ type = STACK_ENTRY_ACTION)
                                  then U_pmc thing else U_ptr thing) type f)).
Proof.
  intros Hw Hp Ht Hm H Hty.
  destruct (new_chunk_fresh itp) as [Hfr Hn].
  destruct (stack_chain_top_chunk _ _ _ _ H) as [c0 Hc0].
  set (u := if decide (type = STACK_ENTRY_PMC ∨ type = STACK_ENTRY_ACTION)
            then U_pmc thing else U_ptr thing).
  assert (thing_payload (memory itp) thing type = Some u) as Hu.
  { unfold u. by destruct Hty as [-> | [-> | [-> | ->]]]. }
  set (c := mkChunk s (mkEntry u type f)).
  set (itp1 := pushed itp stack_p s (mkEntry u type f)).
  assert (memory itp1 !! stack_p = Some (Cell_ptr (new_chunk itp))) as Hm1
    by apply lookup_insert_eq.
  assert (chunk_at (chunks itp1) (new_chunk itp) = Some c) as Hc1.
  { simpl. rewrite chunk_at_insert by done. by rewrite decide_True. }
  assert (prev c ≠ new_chunk itp) as Hl1.
  { simpl. intros ->. unfold chunk_at in Hc0.
    destruct (decide (new_chunk itp = NULL)); congruence. }
  assert (peeked (data c) = Some thing) as Hpk.
  { unfold u. by destruct Hty as [-> | [-> | [-> | ->]]]. }
  eexists. split.
  { rewrite (bind_Returns _ _ _ _ _
               (stack_push_returns _ _ _ _ _ f _ Hp Hm Hu)).
    rewrite (bind_Returns _ _ _ _ _ (load_ptr_Some _ _ _ Hp Hm1)).
    by apply stack_peek_found. }
  rewrite decide_True by done. simpl.
  split; [apply lookup_insert_eq|]. split; [done|].
  apply lookup_insert_eq.
Qed.

(** X17.  After a [stack_push], [get_entry_type] on the entry that
    [stack_entry] finds at depth [0] answers the type that was pushed, in
    the state [stack_push] left. *)
Theorem get_entry_type_pushed word_bits fuel itp stack_p s cs b thing type f u :
  0 < word_bits →
  stack_p ≠ NULL →
  memory itp !! stack_p = Some (Cell_ptr s) →
  stack_chain (chunks itp) s cs b →
  thing_payload (memory itp) thing type = Some u →
  ∃ itp1,
    stack_push stack_p thing type f itp = Returns tt itp1
    ∧ (top ← load_ptr stack_p;
       e ← stack_entry word_bits fuel top 0;
       get_entry_type e) itp1 = Returns type itp1.
Proof.
  intros Hw Hp Hm H Hu.
  destruct (new_chunk_fresh itp) as [Hfr Hn].
  destruct (stack_chain_top_chunk _ _ _ _ H) as [c0 Hc0].
  set (c := mkChunk s (mkEntry u type f)).
  set (itp1 := pushed itp stack_p s (mkEntry u type f)).
  assert (memory itp1 !! stack_p = Some (Cell_ptr (new_chunk itp))) as Hm1
    by apply lookup_insert_eq.
  assert (chunk_at (chunks itp1) (new_chunk itp) = Some c) as Hc1.
  { simpl. rewrite chunk_at_insert by done. by rewrite decide_True. }
  exists itp1. split; [by apply stack_push_returns|].
  rewrite (bind_Returns _ _ _ _ _ (load_ptr_Some _ _ _ Hp Hm1)).
  rewrite (bind_Returns _ _ _ _ _ (stack_entry_top _ fuel _ _ _ Hw Hc1)).
  rewrite decide_False.
  - unfold get_entry_type, STACK_DATAP.
    by rewrite (bind_Returns _ _ _ _ _ (load_entry_Some _ _ _ Hc1)).
  - simpl. intros <-. unfold chunk_at in Hc0.
    destruct (decide (new_chunk itp = NULL)); congruence.
Qed.

(** X18.  On a dynamic environment whose top chunk is not the base: when
    the top entry is no destination, [pop_dest] raises
    [ERROR_BAD_STACK_TYPE] with the top chunk detached, [dest] as it was and
    no cleanup routine called, whatever the routines do; when it is a
    destination and its cleanup routine, if any, returns, [pop_dest] returns
    the pointer the entry holds when the routine has returned, and but for
    [dest] the state is the one the routine has left. *)
Theorem pop_dest_cases routine itp dynamic_env_var dest s c :
  dynamic_env_var ≠ NULL →
  dest ≠ NULL →
  dest ≠ dynamic_env_var →
  memory itp !! dynamic_env_var = Some (Cell_ptr s) →
  chunk_at (chunks itp) s = Some c →
  prev c ≠ s →
  (entry_type (data c) ≠ STACK_ENTRY_DESTINATION →
   ∃ msg itp',
     Routines.pop_dest routine dynamic_env_var dest itp
     = Raises ERROR_BAD_STACK_TYPE msg itp'
     ∧ memory itp' !! dynamic_env_var = Some (Cell_ptr (prev c))
     ∧ memory itp' !! dest = memory itp !! dest
     ∧ events itp' = events itp)
  ∧ (∀ itp1 c1 p,
       entry_type (data c) = STACK_ENTRY_DESTINATION →
       cleanup_returns routine itp dynamic_env_var s c itp1 →
       chunk_at (chunks itp1) s = Some c1 →
       entry (data c1) = U_ptr p →
       Routines.pop_dest routine dynamic_env_var dest itp
       = Returns p (with_memory itp1 (<[dest := Cell_ptr p]> (memory itp1)))).
Proof.
  intros Hp Hd Hne Hm Hc Hl. split.
  - intros Hty. eexists _, _. split.
    + unfold Routines.pop_dest, mbind, M_bind.
      by rewrite (stack_pop_routine_mismatch routine _ _ _ _ Hp Hm Hc Hl dest
                    STACK_ENTRY_DESTINATION).
    + simpl. split; [apply lookup_insert_eq|]. split; [|done].
      by rewrite lookup_insert_ne.
  - intros itp1 c1 p Hty Hr Hc1 Hu.
    assert (well_tagged (mkEntry (entry (data c1)) STACK_ENTRY_DESTINATION
                           (cleanup (data c1))) = true) as Hwt.
    { unfold well_tagged. simpl. by rewrite Hu. }
    pose proof (stack_pop_routine_copy routine _ _ _ _ Hp Hm Hc Hl dest
                  STACK_ENTRY_DESTINATION itp1 c1 Hty Hr Hd Hc1 Hwt) as Epop.
    rewrite Hu in Epop. simpl in Epop.
    unfold Routines.pop_dest. rewrite (bind_Returns _ _ _ _ _ Epop).
    apply load_ptr_Some; [done|]. simpl. apply lookup_insert_eq.
Qed.

(** X19.  [stack_push] of [thing] as a destination followed by
    [pop_dest], when the cleanup routine given to [stack_push], if any,
    returns leaving chunk memory and the stack variable as they were:
    [pop_dest] returns [thing], and the dynamic environment is the stack it
    was, of the same height; but for [dest] the state is the one the routine
    has left. *)
Theorem stack_push_pop_dest routine word_bits fuel itp dynamic_env_var dest
    s cs b thing f itpr :
  0 < word_bits →
  dynamic_env_var ≠ NULL →
  dest ≠ NULL →
  dest ≠ dynamic_env_var →
  memory itp !! dynamic_env_var = Some (Cell_ptr s) →
  stack_chain (chunks itp) s cs b →
  (length cs < fuel)%nat →
  Z.of_nat (length cs) ≤ INTVAL_MAX word_bits →
  cleanup_returns routine
    (pushed itp dynamic_env_var s
       (mkEntry (U_ptr thing) STACK_ENTRY_DESTINATION f))
    dynamic_env_var (STACK_DATAP (new_chunk itp))
    (mkChunk s (mkEntry (U_ptr thing) STACK_ENTRY_DESTINATION f)) itpr →
  chunks itpr
  = chunks (pushed itp dynamic_env_var s
              (mkEntry (U_ptr thing) STACK_ENTRY_DESTINATION f)) →
  memory itpr !! dynamic_env_var = Some (Cell_ptr s) →
  ∃ itp2,
    (stack_push dynamic_env_var thing STACK_ENTRY_DESTINATION f;;
     Routines.pop_dest routine dynamic_env_var dest) itp = Returns thing itp2
    ∧ itp2 = with_memory itpr (<[dest := Cell_ptr thing]> (memory itpr))
    ∧ memory itp2 !! dynamic_env_var = Some (Cell_ptr s)
    ∧ stack_chain (chunks itp2) s cs b
    ∧ stack_height word_bits fuel s itp2 = Returns (Z.of_nat (length cs)) itp2.
Proof.
  intros Hw Hp Hd Hne Hm H Hf Hlen Hr Hchr Hmr.
  destruct (new_chunk_fresh itp) as [Hfr Hn].
  destruct (stack_chain_top_chunk _ _ _ _ H) as [c0 Hc0].
  set (v := mkEntry (U_ptr thing) STACK_ENTRY_DESTINATION f) in *.
  set (c := mkChunk s v) in *.
  set (itp1 := pushed itp dynamic_env_var s v) in *.
  assert (memory itp1 !! dynamic_env_var = Some (Cell_ptr (new_chunk itp)))
    as Hm1 by apply lookup_insert_eq.
  assert (chunk_at (chunks itp1) (new_chunk itp) = Some c) as Hc1.
  { simpl. rewrite chunk_at_insert by done. by rewrite decide_True. }
  assert (prev c ≠ new_chunk itp) as Hl1.
  { simpl. intros ->. unfold chunk_at in Hc0.
    destruct (decide (new_chunk itp = NULL)); congruence. }
  assert (chunk_at (chunks itpr) (new_chunk itp) = Some c) as Hcr
    by by rewrite Hchr.
  pose proof (stack_pop_routine_copy routine _ _ _ _ Hp Hm1 Hc1 Hl1 dest
                STACK_ENTRY_DESTINATION itpr c eq_refl Hr Hd Hcr eq_refl)
    as Epop.
  simpl in Epop.
  assert (stack_push dynamic_env_var thing STACK_ENTRY_DESTINATION f itp
          = Returns tt itp1) as Epush.
  { by apply stack_push_returns. }
  assert (stack_chain (chunks itpr) s cs b) as Hchain.
  { rewrite Hchr. simpl. by apply stack_chain_insert_fresh. }
  eexists. split.
  { rewrite (bind_Returns _ _ _ _ _ Epush).
    unfold Routines.pop_dest. rewrite (bind_Returns _ _ _ _ _ Epop).
    apply load_ptr_Some; [done|]. simpl. apply lookup_insert_eq. }
  split; [done|]. simpl.
  split; [by rewrite lookup_insert_ne|]. split; [done|].
  eapply (stack_height_chain _ Hw); [exact Hchain | done |].
  by apply (INTVAL_MAX_size_t _ Hw).
Qed.

(** ** [mark_stack]: what it leaves alone *)

Lemma never_raises_pobject_lives obj : never_raises (pobject_lives obj).
Proof. by intros itp k msg itp'. Qed.

Lemma never_raises_mark_entry e : never_raises (mark_entry e).
Proof.
  unfold mark_entry.
  destruct (entry_type e); try apply never_raises_ret;
    (apply never_raises_bind; [apply never_raises_from_option|]);
    intros p; (destruct (decide (p ≠ NULL));
               [apply never_raises_pobject_lives | apply never_raises_ret]).
Qed.

Lemma never_raises_mark_stack fuel : ∀ chunk, never_raises (mark_stack fuel chunk).
Proof.
  induction fuel as [|fuel IH]; intros chunk; simpl; [by intros itp k msg itp'|].
  apply never_raises_bind; [apply never_raises_pobject_lives|]. intros _.
  apply never_raises_bind; [apply never_raises_load_chunk|]. intros c.
  destruct (decide (chunk = prev c)); [apply never_raises_ret|].
  apply never_raises_bind; [apply never_raises_load_entry|]. intros e.
  apply never_raises_bind; [apply never_raises_mark_entry|]. intros _.
  apply IH.
Qed.

Lemma mark_entry_Returns e itp itp' :
  mark_entry e itp = Returns tt itp' →
  ∃ evs, itp' = with_events itp evs ∧ Forall is_Lives evs.
Proof.
  assert (itp = with_events itp []) as Hnil.
  { unfold with_events. rewrite app_nil_r. by destruct itp. }
  unfold mark_entry.
  destruct (entry_type e);
    try (intros [= <-]; exists []; by split);
    (intros E; apply bind_Returns_inv in E as (p & itp1 & Hp & E);
     apply read_only_from_option in Hp as ->;
     destruct (decide (p ≠ NULL));
     [ injection E as <-; exists [Lives p]; split; [done|];
       by apply Forall_singleton
     | injection E as <-; exists []; by split ]).
Qed.

Lemma mark_stack_Returns fuel :
  ∀ chunk itp itp',
    mark_stack fuel chunk itp = Returns tt itp' →
    ∃ evs, itp' = with_events itp (Lives chunk :: evs) ∧ Forall is_Lives evs.
Proof.
  induction fuel as [|fuel IH]; intros chunk itp itp'; simpl; [done|].
  intros E.
  assert (∀ (k : unit → M unit),
            (pobject_lives chunk ≫= k) itp
            = k tt (with_events itp [Lives chunk])) as Hlive by done.
  rewrite Hlive in E.
  apply bind_Returns_inv in E as (c & itp1 & Hc & E).
  apply read_only_load_chunk in Hc as ->.
  destruct (decide (chunk = prev c)).
  - injection E as <-. exists []. by split.
  - apply bind_Returns_inv in E as (e & itp1 & He & E).
    apply read_only_load_entry in He as ->.
    apply bind_Returns_inv in E as ([] & itp1 & Hme & E).
    apply mark_entry_Returns in Hme as (evs1 & -> & Hl1).
    apply IH in E as (evs2 & -> & Hl2).
    exists (evs1 ++ Lives (prev c) :: evs2). split.
    + by rewrite !with_events_app.
    + apply Forall_app. split; [done|]. by apply Forall_cons.
Qed.

(** X20.  [mark_stack] never raises; when it returns, chunk memory and
    caller memory are as before, and the trace has grown by reports to the
    tracer only, the first of them for the chunk it was given: no cleanup
    routine is called. *)
Theorem mark_stack_frame fuel chunk :
  never_raises (mark_stack fuel chunk)
  ∧ (∀ itp itp',
       mark_stack fuel chunk itp = Returns tt itp' →
       chunks itp' = chunks itp
       ∧ memory itp' = memory itp
       ∧ user_stack_var itp' = user_stack_var itp
       ∧ ∃ evs, events itp' = events itp ++ Lives chunk :: evs
                ∧ Forall is_Lives evs).
Proof.
  split; [apply never_raises_mark_stack|].
  intros itp itp' E.
  apply mark_stack_Returns in E as (evs & -> & Hl).
  repeat split; eauto.
Qed.

Lemma marks_of_payload h a :
  marks_of h a = Lives a :: payload_marks (entry_of h a).
Proof. done. Qed.

Lemma concat_Permutation {A} (l k : list (list A)) :
  l ≡ₚ k → concat l ≡ₚ concat k.
Proof.
  induction 1 as [|x l k _ IH|x y l|l k m _ IH1 _ IH2]; simpl.
  - done.
  - by rewrite IH.
  - apply Permutation_app_swap_app.
  - by etrans.
Qed.

(** What [mark_stack] reports for the chunks of a stack: the chunks, and
    the objects of their entries. *)
Lemma marks_of_contents h cs :
  concat (marks_of h <$> cs)
  ≡ₚ (Lives <$> cs) ++ concat (payload_marks <$> contents h cs).
Proof.
  induction cs as [|a cs IH]; [done|].
  unfold contents in *. rewrite !fmap_cons, !concat_cons, marks_of_payload.
  rewrite <- !app_comm_cons. f_equiv.
  rewrite IH. apply Permutation_app_swap_app.
Qed.

(** X21.  A rotation changes what [mark_stack] reports in its order
    only: after a [rotate_entries] that moved entries, [mark_stack] reports
    a permutation of what it reports before. *)
Theorem mark_stack_rotate_entries word_bits fuel itp stack_p s cs b n :
  0 < word_bits →
  stack_p ≠ NULL →
  memory itp !! stack_p = Some (Cell_ptr s) →
  stack_chain (chunks itp) s cs b →
  (length cs < fuel)%nat →
  Z.of_nat (length cs) ≤ INTVAL_MAX word_bits →
  2 ≤ Z.abs n ≤ Z.of_nat (length cs) →
  (∀ a c, a ∈ cs → chunk_at (chunks itp) a = Some c →
          entry_type (data c) = STACK_ENTRY_PMC
          ∨ entry_type (data c) = STACK_ENTRY_STRING →
          well_tagged (data c) = true) →
  ∃ itp' evs evs',
    rotate_entries word_bits fuel stack_p n itp = Returns tt itp'
    ∧ mark_stack fuel s itp = Returns tt (with_events itp evs)
    ∧ mark_stack fuel s itp' = Returns tt (with_events itp' evs')
    ∧ evs' ≡ₚ evs.
Proof.
  intros Hw Hp Hm H Hf Hlen Hn Hwt.
  destruct (rotate_entries_shuffles _ _ _ _ _ _ _ _ Hw Hp Hm H Hf Hlen Hn)
    as (h' & f & E & Hmv & Hperm).
  pose proof (entries_moved_chain _ _ _ _ _ _ Hmv H) as H'.
  assert (∀ a c, a ∈ cs → chunk_at h' a = Some c →
                 entry_type (data c) = STACK_ENTRY_PMC
                 ∨ entry_type (data c) = STACK_ENTRY_STRING →
                 well_tagged (data c) = true) as Hwt'.
  { intros a c Ha Hc Hty.
    assert (Some (data c) ∈ contents h' cs) as Hin.
    { unfold contents. apply list_elem_of_fmap. exists a. split; [|done].
      unfold entry_of. by rewrite Hc. }
    rewrite Hperm in Hin. unfold contents in Hin.
    apply list_elem_of_fmap in Hin as (a0 & He0 & Ha0).
    unfold entry_of in He0.
    destruct (chunk_at (chunks itp) a0) as [c0|] eqn:Hc0; [|done].
    injection He0 as He0. rewrite He0 in *. by eapply Hwt. }
  eexists (with_chunks itp h'), _, _. split; [done|].
  split; [by apply (mark_stack_chain _ _ _ _ H Hwt)|].
  split; [by apply (mark_stack_chain _ _ _ _ H' Hwt')|].
  f_equiv. rewrite !marks_of_contents. f_equiv.
  apply concat_Permutation. by f_equiv.
Qed.

(** ** [Parrot_dump_dynamic_environment]: the lines, and the damage *)

Lemma to_int_small int_bits z :
  0 < int_bits →
  - 2 ^ (int_bits - 1) ≤ z ≤ INT_MAX int_bits → to_int int_bits z = z.
Proof.
  intros Hb. unfold INT_MAX, to_int. intros.
  pose proof (two_pow_word _ Hb). pose proof (two_pow_half_pos _ Hb).
  rewrite Z.mod_small; lia.
Qed.

(** The test of the loop and the test for damage exclude each other. *)
Lemma dump_loop_never_damaged word_bits int_bits fuel :
  0 < word_bits →
  ∀ dynamic_env height out itp out',
    dump_loop word_bits int_bits fuel dynamic_env height out itp
    ≠ Control_stack_damaged out'.
Proof.
  intros Hw. induction fuel as [|fuel IH]; intros s height out itp out';
    simpl; [done|].
  unfold load_chunk, get_interp, mbind, M_bind, from_option.
  destruct (chunk_at (chunks itp) s) as [c|] eqn:Hc; [|done].
  unfold mret, M_ret.
  destruct (decide (prev c ≠ s)) as [Hl|]; [|done].
  rewrite (stack_entry_top _ (S fuel) _ _ _ Hw Hc).
  rewrite (decide_False (P := s = prev c)) by done.
  pose proof (chunk_at_not_NULL _ _ _ Hc) as Hs.
  unfold STACK_DATAP. rewrite decide_False by done.
  rewrite (load_entry_Some _ _ _ Hc).
  destruct (decide (entry_type (data c) = STACK_ENTRY_PMC
                    ∨ entry_type (data c) = STACK_ENTRY_ACTION)).
  { destruct (UVal_pmc (entry (data c))) as [thing|]; [|done].
    destruct (decide (thing = NULL)); [done | apply IH]. }
  destruct (decide (entry_type (data c) = STACK_ENTRY_MARK)).
  { destruct (UVal_int (entry (data c))) as [i|]; [done || apply IH | done]. }
  apply IH.
Qed.

Lemma dump_loop_chain word_bits int_bits itp s cs b :
  0 < word_bits → 0 < int_bits →
  stack_chain (chunks itp) s cs b →
  (∀ a c, a ∈ cs → chunk_at (chunks itp) a = Some c → dumpable (data c) = true) →
  ∀ fuel height out,
    (length cs < fuel)%nat →
    Z.of_nat (length cs) ≤ height ≤ INT_MAX int_bits →
    dump_loop word_bits int_bits fuel s height out itp
    = Dumped (out
              ++ concat (imap (λ i a, dump_lines (chunks itp)
                                        (height - Z.of_nat i) a) cs)
              ++ [Dump_base (height - Z.of_nat (length cs)) b]).
Proof.
  intros Hw Hb H.
  induction H as [b c Hc Hp | a c cs b Hc Hp H IH];
    intros Hd fuel height out Hf Hh;
    (destruct fuel as [|fuel]; [simpl in Hf; lia|]).
  - simpl. rewrite (load_chunk_Some _ _ _ Hc).
    rewrite decide_False by (intros Hn; by apply Hn).
    by rewrite Z.sub_0_r.
  - cbn [dump_loop]. rewrite (load_chunk_Some _ _ _ Hc).
    rewrite decide_True by done.
    rewrite (stack_entry_top _ (S fuel) _ _ _ Hw Hc).
    rewrite (decide_False (P := a = prev c)) by done.
    pose proof (chunk_at_not_NULL _ _ _ Hc) as Hs.
    unfold STACK_DATAP. rewrite decide_False by done.
    rewrite (load_entry_Some _ _ _ Hc).
    assert (to_int int_bits (height - 1) = height - 1) as ->.
    { apply to_int_small; [done|].
      pose proof (two_pow_half_pos _ Hb). simpl in Hh. lia. }
    assert (∀ out1,
              dump_loop word_bits int_bits fuel (prev c) (height - 1) out1 itp
              = Dumped (out1
                        ++ concat (imap (λ i a, dump_lines (chunks itp)
                                                  (height - Z.of_nat (S i)) a) cs)
                        ++ [Dump_base (height - Z.of_nat (length (a :: cs))) b]))
      as Hnext.
    { intros out1. rewrite IH.
      - do 3 f_equal.
        + f_equal. apply imap_ext. intros i x _. f_equal. lia.
        + do 2 f_equal. simpl. lia.
      - intros a' c' Ha'. apply Hd. by right.
      - simpl in Hf. lia.
      - simpl in Hh. lia. }
    specialize (Hd a c ltac:(left) Hc).
    rewrite imap_cons. cbn [concat].
    unfold dump_lines at 1, entry_of. rewrite Hc. simpl.
    rewrite Z.sub_0_r. unfold dumpable in Hd. unfold STACK_DATAP.
    destruct c as [p [u t f]]; simpl in *.
    destruct t, u; simpl in *; try discriminate Hd;
      try (apply bool_decide_eq_true in Hd; rewrite (decide_False (P := _ = NULL)) by done);
      rewrite Hnext; rewrite <- ?app_assoc; reflexivity.
Qed.

(** X22.  On a stack whose height an [int] holds and whose
    entries can be printed, [Parrot_dump_dynamic_environment] ends after
    the lines of the chunks from the top down, with the indices from the
    height down to [1], and then the line of the base, with the index [0]. *)
Theorem Parrot_dump_dynamic_environment_lines word_bits int_bits fuel itp
    s cs b :
  0 < word_bits → 0 < int_bits →
  stack_chain (chunks itp) s cs b →
  (length cs < fuel)%nat →
  Z.of_nat (length cs) < 2 ^ word_bits →
  Z.of_nat (length cs) ≤ INT_MAX int_bits →
  (∀ a c, a ∈ cs → chunk_at (chunks itp) a = Some c → dumpable (data c) = true) →
  Parrot_dump_dynamic_environment word_bits int_bits fuel s itp
  = Dumped (concat (imap (λ i a, dump_lines (chunks itp)
                                   (Z.of_nat (length cs) - Z.of_nat i) a) cs)
            ++ [Dump_base 0 b]).
Proof.
  intros Hw Hb H Hf Hsz Hint Hd. unfold Parrot_dump_dynamic_environment.
  rewrite (stack_height_chain _ Hw _ _ _ _ _ H Hf Hsz).
  rewrite to_int_small; [|done|].
  - rewrite (dump_loop_chain _ _ _ _ _ _ Hw Hb H Hd) by lia.
    by rewrite Z.sub_diag.
  - pose proof (two_pow_half_pos _ Hb). lia.
Qed.

(** X23.  Whatever the state,
    [Parrot_dump_dynamic_environment] never leaves through
    [internal_exception(1, "Control stack damaged")]: where the test of its
    loop passes, [stack_entry] at depth [0] does not answer null. *)
Theorem Parrot_dump_dynamic_environment_never_damaged word_bits int_bits :
  0 < word_bits →
  ∀ fuel dynamic_env itp out,
    Parrot_dump_dynamic_environment word_bits int_bits fuel dynamic_env itp
    ≠ Control_stack_damaged out.
Proof.
  intros Hw fuel s itp out. unfold Parrot_dump_dynamic_environment.
  destruct (stack_height word_bits fuel s itp); try done.
  by apply dump_loop_never_damaged.
Qed.

(** ** These properties on the concrete state *)

Lemma three_ints_chain_beneath :
  stack_chain (chunks three_ints) 102 [102; 101] 100.
Proof.
  eapply (chain_cons _ 102 (mkChunk 101 (int_entry 2 0))); [done | done |].
  eapply (chain_cons _ 101 (mkChunk 100 (int_entry 1 0))); [done | done |].
  by eapply (chain_base _ 100 (mkChunk 100 uninitialized)).
Defined.

(** Scenario 4 of the specification: from [3; 2; 1], the bubble down of the
    top three entries gives [1; 3; 2]. *)
Lemma rotate_entries_bubble_down_witness :
  ∃ itp',
    rotate_entries 64 8 10 (- 3) three_ints = Returns tt itp'
    ∧ entry_at 64 8 103 0 itp' = Some (int_entry 1 STACK_CLEANUP_NULL)
    ∧ entry_at 64 8 103 1 itp' = Some (int_entry 3 7)
    ∧ entry_at 64 8 103 2 itp' = Some (int_entry 2 STACK_CLEANUP_NULL)
    ∧ stack_height 64 8 103 itp' = Returns 3 itp'.
Proof.
  destruct (rotate_entries_bubble_down 64 8 three_ints 10 103 [103; 102; 101] 100 3)
    as (itp' & E & _ & Htop & Hdown & _ & _ & Hh);
    [lia | done | reflexivity | exact three_ints_chain | simpl; lia
    | rewrite INTVAL_MAX_64; simpl; lia | simpl; lia |].
  exists itp'. split; [exact E|].
  split; [exact Htop|].
  split; [exact (Hdown 0 ltac:(lia))|].
  split; [exact (Hdown 1 ltac:(lia)) | exact Hh].
Defined.

Lemma rotate_entries_down_up_witness :
  (rotate_entries 64 8 10 (- 3);; rotate_entries 64 8 10 3) three_ints
  = Returns tt three_ints.
Proof.
  apply (rotate_entries_down_up 64 8 three_ints 10 103 [103; 102; 101] 100 3);
    [lia | done | reflexivity | exact three_ints_chain | simpl; lia
    | rewrite INTVAL_MAX_64; simpl; lia | simpl; lia].
Defined.

Lemma rotate_entries_two_witness :
  ∃ itp',
    rotate_entries 64 8 10 2 three_ints = Returns tt itp'
    ∧ rotate_entries 64 8 10 (- 2) three_ints = Returns tt itp'
    ∧ entry_at 64 8 103 0 itp' = Some (int_entry 2 STACK_CLEANUP_NULL)
    ∧ entry_at 64 8 103 1 itp' = Some (int_entry 3 7)
    ∧ rotate_entries 64 8 10 2 itp' = Returns tt three_ints.
Proof.
  exact (rotate_entries_two 64 8 three_ints 10 103 [103; 102; 101] 100
           ltac:(lia) ltac:(done) eq_refl three_ints_chain ltac:(simpl; lia)
           ltac:(rewrite INTVAL_MAX_64; simpl; lia) ltac:(simpl; lia)).
Defined.

(** Scenarios 3 and 4 of the specification, with the entries as lists. *)
Lemma rotate_entries_contents_witness :
  (∃ itp',
     rotate_entries 64 8 10 3 three_ints = Returns tt itp'
     ∧ contents (chunks itp') [103; 102; 101]
       = [Some (int_entry 2 STACK_CLEANUP_NULL);
          Some (int_entry 1 STACK_CLEANUP_NULL); Some (int_entry 3 7)])
  ∧ (∃ itp',
       rotate_entries 64 8 10 (- 3) three_ints = Returns tt itp'
       ∧ contents (chunks itp') [103; 102; 101]
         = [Some (int_entry 1 STACK_CLEANUP_NULL); Some (int_entry 3 7);
            Some (int_entry 2 STACK_CLEANUP_NULL)]).
Proof.
  exact (rotate_entries_contents 64 8 three_ints 10 103 [103; 102; 101] 100 3
           ltac:(lia) ltac:(done) eq_refl three_ints_chain ltac:(simpl; lia)
           ltac:(rewrite INTVAL_MAX_64; simpl; lia) ltac:(simpl; lia)).
Defined.

Lemma rotate_entries_permutes_witness :
  ∃ itp',
    rotate_entries 64 8 10 (- 2) three_ints = Returns tt itp'
    ∧ memory itp' = memory three_ints
    ∧ events itp' = []
    ∧ chunks itp' !! 201 = chunks three_ints !! 201
    ∧ contents (chunks itp') [103; 102; 101]
      ≡ₚ [Some (int_entry 3 7); Some (int_entry 2 STACK_CLEANUP_NULL);
          Some (int_entry 1 STACK_CLEANUP_NULL)].
Proof.
  destruct (rotate_entries_permutes 64 8 three_ints 10 103 [103; 102; 101] 100 (- 2))
    as (itp' & E & Hmem & Hev & _ & _ & Hframe & Hperm);
    [lia | done | reflexivity | exact three_ints_chain | simpl; lia
    | rewrite INTVAL_MAX_64; simpl; lia | simpl; lia |].
  exists itp'. split; [exact E|]. split; [exact Hmem|]. split; [exact Hev|].
  split; [|exact Hperm].
  apply Hframe. intros Hin.
  repeat (apply elem_of_cons in Hin as [Hin|Hin]; [discriminate Hin|]).
  by apply elem_of_nil in Hin.
Defined.

(** Two bubble ups of the three integers give [1; 3; 2], and a third gives
    [3; 2; 1] back. *)
Lemma rotate_entries_cycle_witness :
  (∃ itp',
     (rotate_entries 64 8 10 3;; rotate_entries 64 8 10 3;; mret tt) three_ints
     = Returns tt itp'
     ∧ entry_at 64 8 103 0 itp' = Some (int_entry 1 STACK_CLEANUP_NULL)
     ∧ entry_at 64 8 103 1 itp' = Some (int_entry 3 7)
     ∧ entry_at 64 8 103 2 itp' = Some (int_entry 2 STACK_CLEANUP_NULL))
  ∧ (rotate_entries 64 8 10 3;; rotate_entries 64 8 10 3;;
     rotate_entries 64 8 10 3;; mret tt) three_ints
    = Returns tt three_ints.
Proof.
  destruct (rotate_entries_cycle 64 8 three_ints 10 103 [103; 102; 101] 100 3)
    as [Hk Hcycle];
    [lia | done | reflexivity | exact three_ints_chain | simpl; lia
    | rewrite INTVAL_MAX_64; simpl; lia | simpl; lia |].
  split; [|exact Hcycle].
  destruct (Hk 2 ltac:(lia)) as (itp' & E & Hentries).
  exists itp'. split; [exact E|].
  split; [exact (Hentries 0 ltac:(lia))|].
  split; [exact (Hentries 1 ltac:(lia)) | exact (Hentries 2 ltac:(lia))].
Defined.

Lemma stack_height_measures_chains_witness :
  (∃ fuel h itp', stack_height 64 fuel 103 three_ints = Returns h itp')
  ∧ stack_height 64 8 103 three_ints = Returns 3 three_ints.
Proof.
  destruct (stack_height_measures_chains 64 three_ints 103 ltac:(lia))
    as [Hiff Hh].
  split.
  - apply (proj2 Hiff). exists [103; 102; 101], 100. exact three_ints_chain.
  - exact (Hh [103; 102; 101] 100 8%nat three_ints_chain ltac:(simpl; lia)).
Defined.

(** On the user stack itself, of height [2]: depth [-1] is its oldest
    entry, in the chunk [201], and depth [-3] is no entry. *)
Lemma stack_entry_from_bottom_witness :
  stack_entry 64 8 202 (- 1) three_ints = Returns 201 three_ints
  ∧ stack_entry 64 8 202 (- 3) three_ints = Returns NULL three_ints.
Proof.
  split.
  - destruct (proj1 (stack_entry_from_bottom 64 8 three_ints 202 [202; 201] 200 1
                       ltac:(lia) eq_refl three_ints_user_chain
                       ltac:(simpl; lia)
                       ltac:(rewrite INTVAL_MAX_64; simpl; lia)
                       ltac:(rewrite INTVAL_MIN_64; lia))
                ltac:(simpl; lia))
      as (a & Ha & E & _).
    injection Ha as <-. exact E.
  - exact (proj2 (stack_entry_from_bottom 64 8 three_ints 202 [202; 201] 200 3
                    ltac:(lia) eq_refl three_ints_user_chain
                    ltac:(simpl; lia)
                    ltac:(rewrite INTVAL_MAX_64; simpl; lia)
                    ltac:(rewrite INTVAL_MIN_64; lia))
             ltac:(simpl; lia)).
Defined.

Lemma stack_push_no_type_witness :
  ∃ itp' s1,
    stack_push 10 20 NO_STACK_ENTRY_TYPE 5 three_ints
    = Raises ERROR_BAD_STACK_TYPE "Invalid Stack_Entry_type!" itp'
    ∧ memory itp' !! 10 = Some (Cell_ptr s1)
    ∧ stack_height 64 8 s1 itp' = Returns 4 itp'
    ∧ entry_at 64 8 s1 1 itp' = Some (int_entry 3 7)
    ∧ events itp' = [].
Proof.
  destruct (stack_push_no_type 64 8 three_ints 10 103 [103; 102; 101] 100 20 5)
    as (itp' & s1 & u & E & Hm & Hh & _ & Hbeneath & Hev);
    [lia | done | reflexivity | exact three_ints_chain | simpl; lia
    | rewrite INTVAL_MAX_64; simpl; lia |].
  exists itp', s1. split; [exact E|]. split; [exact Hm|]. split; [exact Hh|].
  split; [|exact Hev].
  exact (Hbeneath 0 ltac:(rewrite INTVAL_MAX_64; lia)).
Defined.

(** The top entry of the three integers has the cleanup routine [7]; the
    routines note in the cell [40] the entry they are handed. *)
Lemma stack_pop_shrinks_witness :
  ∃ itp',
    Routines.stack_pop noting_routine 10 30 STACK_ENTRY_INT three_ints
    = Returns 30 itp'
    ∧ chunks itp' = chunks three_ints
    ∧ memory itp' !! 10 = Some (Cell_ptr 102)
    ∧ memory itp' !! 40 = Some (Cell_ptr 103)
    ∧ events itp' = [Cleanup_call 7 103]
    ∧ stack_height 64 8 103 three_ints = Returns 3 three_ints
    ∧ stack_height 64 8 102 itp' = Returns 2 itp'
    ∧ entry_at 64 8 102 0 itp' = Some (int_entry 2 STACK_CLEANUP_NULL).
Proof.
  destruct (stack_pop_shrinks noting_routine 64 8 three_ints 10 103
              (mkChunk 102 (int_entry 3 7)) [102; 101] 100 30 STACK_ENTRY_INT
              (mkInterp (chunks three_ints)
                 (<[40 := Cell_ptr 103]>
                    (<[10 := Cell_ptr 102]> (memory three_ints)))
                 (user_stack_var three_ints) [Cleanup_call 7 103]))
    as (itp' & E & Hch & Hm & Hev & Hh & Hh' & Hd);
    [lia | done | reflexivity | reflexivity | done
    | exact three_ints_chain_beneath | simpl; lia
    | rewrite INTVAL_MAX_64; simpl; lia
    | right; repeat split; done
    | reflexivity | reflexivity | reflexivity |].
  assert (memory itp' !! 40 = Some (Cell_ptr 103)) as H40.
  { vm_compute in E. injection E as <-. reflexivity. }
  exists itp'. split; [exact E|]. split; [exact Hch|]. split; [exact Hm|].
  split; [exact H40|]. split; [exact Hev|].
  split; [exact Hh|]. split; [exact Hh'|].
  exact (Hd 0 ltac:(rewrite INTVAL_MAX_64; lia)).
Defined.

(** The integer [42] pushed with the cleanup routine [5]; the routines note
    in the cell [40] the entry they are handed. *)
Lemma stack_push_pop_restores_witness :
  ∃ itp2,
    (stack_push 10 20 STACK_ENTRY_INT 5;;
     Routines.stack_pop noting_routine 10 30 STACK_ENTRY_INT) three_ints
    = Returns 30 itp2
    ∧ memory itp2
      = <[30 := Cell_INTVAL 42]>
          (<[40 := Cell_ptr (new_chunk three_ints)]>
             (<[10 := Cell_ptr 103]>
                (<[10 := Cell_ptr (new_chunk three_ints)]> (memory three_ints))))
    ∧ memory itp2 !! 10 = Some (Cell_ptr 103)
    ∧ stack_height 64 8 103 itp2 = Returns 3 itp2
    ∧ entry_at 64 8 103 0 itp2 = Some (int_entry 3 7).
Proof.
  destruct (stack_push_pop_restores noting_routine 64 8 three_ints 10 103
              [103; 102; 101] 100 20 STACK_ENTRY_INT 5 30 (U_int 42)
              (mkInterp
                 (chunks (pushed three_ints 10 103 (int_entry 42 5)))
                 (<[40 := Cell_ptr (new_chunk three_ints)]>
                    (<[10 := Cell_ptr 103]>
                       (<[10 := Cell_ptr (new_chunk three_ints)]>
                          (memory three_ints))))
                 (user_stack_var three_ints)
                 [Cleanup_call 5 (new_chunk three_ints)]))
    as (itp2 & E & Hm & Hp & _ & _ & _ & Hh & Hd);
    [lia | done | done | done | reflexivity | exact three_ints_chain
    | simpl; lia | rewrite INTVAL_MAX_64; simpl; lia | reflexivity
    | reflexivity | reflexivity | reflexivity |].
  exists itp2. split; [exact E|]. split; [exact Hm|]. split; [exact Hp|].
  split; [exact Hh|].
  exact (Hd 0 ltac:(rewrite INTVAL_MAX_64; lia)).
Defined.

Lemma stack_push_grows_witness :
  ∃ itp1 s1,
    stack_push 10 20 STACK_ENTRY_INT 5 three_ints = Returns tt itp1
    ∧ chunks three_ints !! s1 = None
    ∧ memory itp1 !! 10 = Some (Cell_ptr s1)
    ∧ memory itp1 !! 20 = Some (Cell_INTVAL 42)
    ∧ stack_height 64 8 103 three_ints = Returns 3 three_ints
    ∧ stack_height 64 8 s1 itp1 = Returns 4 itp1.
Proof.
  destruct (stack_push_grows 64 8 three_ints 10 103 [103; 102; 101] 100
              20 STACK_ENTRY_INT 5 (U_int 42))
    as (itp1 & s1 & E & _ & Hfr & _ & Hmem & Hm & _ & _ & Hh & Hh1);
    [lia | done | reflexivity | exact three_ints_chain | simpl; lia
    | rewrite INTVAL_MAX_64; simpl; lia | reflexivity |].
  exists itp1, s1. split; [exact E|]. split; [exact Hfr|]. split; [exact Hm|].
  split; [exact (Hmem 20 ltac:(done))|]. split; [exact Hh | exact Hh1].
Defined.

(** On the user stack: its base chunk is not peeked at; the chunk [201]
    holds a reference to the object [900]. *)
Lemma stack_peek_top_witness :
  stack_peek 64 bits_as_pointer bits_as_pointer 8 200 30 three_ints
  = Returns NULL three_ints
  ∧ ∃ itp',
      stack_peek 64 bits_as_pointer bits_as_pointer 8 201 30 three_ints
      = Returns 900 itp'
      ∧ chunks itp' = chunks three_ints
      ∧ memory itp'
        = <[30 := Cell_INTVAL (Stack_entry_type_value STACK_ENTRY_PMC)]>
            (memory three_ints)
      ∧ stack_peek 64 bits_as_pointer bits_as_pointer 8 201 NULL itp'
        = Returns 900 itp'.
Proof.
  split.
  - exact (proj1 (stack_peek_top 64 bits_as_pointer bits_as_pointer 8
                    three_ints 200
                    (mkChunk 200 uninitialized) 30 ltac:(lia) eq_refl)
             eq_refl).
  - destruct (proj2 (stack_peek_top 64 bits_as_pointer bits_as_pointer 8
                       three_ints 201
                       (mkChunk 200 (mkEntry (U_pmc 900) STACK_ENTRY_PMC
                                       STACK_CLEANUP_NULL))
                       30 ltac:(lia) eq_refl)
                900 ltac:(done) eq_refl)
      as (itp' & E & _ & Hch & _ & _ & Hm & Hagain).
    exists itp'. split; [exact E|]. split; [exact Hch|].
    split; [exact (Hm ltac:(done)) | exact Hagain].
Defined.

(** On the three integers: the top entry holds the integer [3], which
    [stack_peek] answers as a pointer, with the tag stored through
    [type]. *)
Lemma stack_peek_frame_witness :
  ∃ itp',
    stack_peek 64 bits_as_pointer bits_as_pointer 8 103 30 three_ints
    = Returns 3 itp'
    ∧ memory itp' !! 30
      = Some (Cell_INTVAL (Stack_entry_type_value STACK_ENTRY_INT))
    ∧ chunks itp' = chunks three_ints
    ∧ events itp' = [].
Proof.
  destruct (stack_peek_frame 64 bits_as_pointer bits_as_pointer 8 103 30)
    as (_ & Hframe & Hreturns).
  destruct (Hreturns three_ints (mkChunk 102 (int_entry 3 7))
              ltac:(lia) eq_refl ltac:(done))
    as (p & itp' & E & Htag & _ & Hpmc).
  pose proof (Hpmc ltac:(done) ltac:(done)) as Hp. simpl in Hp. subst p.
  destruct (Hframe _ _ _ E) as (Hch & Hev & _).
  exists itp'. split; [exact E|]. split; [exact (Htag ltac:(done))|].
  split; [exact Hch | exact Hev].
Defined.

Lemma stack_push_peek_witness :
  ∃ itp2,
    (stack_push 10 900 STACK_ENTRY_PMC STACK_CLEANUP_NULL;;
     top ← load_ptr 10;
     stack_peek 64 bits_as_pointer bits_as_pointer 8 top 30) three_ints = Returns 900 itp2
    ∧ memory itp2 !! 30
      = Some (Cell_INTVAL (Stack_entry_type_value STACK_ENTRY_PMC))
    ∧ events itp2 = [].
Proof.
  destruct (stack_push_peek 64 bits_as_pointer bits_as_pointer 8 three_ints 10 103 [103; 102; 101] 100
              900 STACK_ENTRY_PMC STACK_CLEANUP_NULL 30)
    as (itp2 & E & Hm & Hev & _);
    [lia | done | done | reflexivity | exact three_ints_chain
    | by left |].
  exists itp2. split; [exact E|]. split; [exact Hm | exact Hev].
Defined.

Lemma get_entry_type_pushed_witness :
  ∃ itp1,
    stack_push 10 20 STACK_ENTRY_INT 5 three_ints = Returns tt itp1
    ∧ (top ← load_ptr 10;
       e ← stack_entry 64 8 top 0;
       get_entry_type e) itp1 = Returns STACK_ENTRY_INT itp1.
Proof.
  exact (get_entry_type_pushed 64 8 three_ints 10 103 [103; 102; 101] 100
           20 STACK_ENTRY_INT 5 (U_int 42)
           ltac:(lia) ltac:(done) eq_refl three_ints_chain eq_refl).
Defined.

(** With the three integers as the dynamic environment, the top entry is no
    destination; with a destination pushed on them, it comes back.  The
    routines note in the cell [40] the entry they are handed. *)
Lemma pop_dest_cases_witness :
  (∃ msg itp',
     Routines.pop_dest noting_routine 10 30 three_ints
     = Raises ERROR_BAD_STACK_TYPE msg itp'
     ∧ memory itp' !! 10 = Some (Cell_ptr 102)
     ∧ memory itp' !! 30 = None
     ∧ events itp' = [])
  ∧ ∃ itp',
      Routines.pop_dest noting_routine 10 30
        (pushed three_ints 10 103 (mkEntry (U_ptr 77) STACK_ENTRY_DESTINATION 5))
      = Returns 77 itp'
      ∧ memory itp' !! 10 = Some (Cell_ptr 103)
      ∧ memory itp' !! 40 = Some (Cell_ptr (new_chunk three_ints))
      ∧ events itp' = [Cleanup_call 5 (new_chunk three_ints)].
Proof.
  split.
  - exact (proj1 (pop_dest_cases noting_routine three_ints 10 30 103
                    (mkChunk 102 (int_entry 3 7))
                    ltac:(done) ltac:(done) ltac:(done) eq_refl eq_refl
                    ltac:(done))
             ltac:(done)).
  - pose proof (proj2 (pop_dest_cases noting_routine
                         (pushed three_ints 10 103
                            (mkEntry (U_ptr 77) STACK_ENTRY_DESTINATION 5))
                         10 30 (new_chunk three_ints)
                         (mkChunk 103 (mkEntry (U_ptr 77) STACK_ENTRY_DESTINATION 5))
                         ltac:(done) ltac:(done) ltac:(done) eq_refl
                         ltac:(vm_compute; reflexivity)
                         ltac:(vm_compute; discriminate))
                  _ (mkChunk 103 (mkEntry (U_ptr 77) STACK_ENTRY_DESTINATION 5))
                  77 eq_refl
                  ltac:(vm_compute; reflexivity)
                  ltac:(vm_compute; reflexivity) eq_refl) as E.
    eexists. split; [exact E|].
    split; [reflexivity|]. split; reflexivity.
Defined.

Lemma stack_push_pop_dest_witness :
  ∃ itp2,
    (stack_push 10 77 STACK_ENTRY_DESTINATION 5;;
     Routines.pop_dest noting_routine 10 30) three_ints
    = Returns 77 itp2
    ∧ memory itp2 !! 10 = Some (Cell_ptr 103)
    ∧ memory itp2 !! 40 = Some (Cell_ptr (new_chunk three_ints))
    ∧ stack_height 64 8 103 itp2 = Returns 3 itp2
    ∧ events itp2 = [Cleanup_call 5 (new_chunk three_ints)].
Proof.
  destruct (stack_push_pop_dest noting_routine 64 8 three_ints 10 30 103
              [103; 102; 101] 100 77 5
              (mkInterp
                 (chunks (pushed three_ints 10 103
                            (mkEntry (U_ptr 77) STACK_ENTRY_DESTINATION 5)))
                 (<[40 := Cell_ptr (new_chunk three_ints)]>
                    (<[10 := Cell_ptr 103]>
                       (<[10 := Cell_ptr (new_chunk three_ints)]>
                          (memory three_ints))))
                 (user_stack_var three_ints)
                 [Cleanup_call 5 (new_chunk three_ints)]))
    as (itp2 & E & Hitp2 & Hm & _ & Hh);
    [lia | done | done | done | reflexivity | exact three_ints_chain
    | simpl; lia | rewrite INTVAL_MAX_64; simpl; lia
    | reflexivity | reflexivity | reflexivity |].
  exists itp2. split; [exact E|]. split; [exact Hm|].
  split; [by rewrite Hitp2|]. split; [exact Hh | by rewrite Hitp2].
Defined.

(** On the user stack, with its two entries exchanged. *)
Lemma mark_stack_rotate_entries_witness :
  ∃ itp' evs evs',
    rotate_entries 64 8 11 2 three_ints = Returns tt itp'
    ∧ mark_stack 8 202 three_ints = Returns tt (with_events three_ints evs)
    ∧ mark_stack 8 202 itp' = Returns tt (with_events itp' evs')
    ∧ evs' ≡ₚ evs.
Proof.
  exact (mark_stack_rotate_entries 64 8 three_ints 11 202 [202; 201] 200 2
           ltac:(lia) ltac:(done) eq_refl three_ints_user_chain
           ltac:(simpl; lia) ltac:(rewrite INTVAL_MAX_64; simpl; lia)
           ltac:(simpl; lia) three_ints_user_tags).
Defined.

Lemma three_ints_user_dumpable a c :
  a ∈ [202; 201] → chunk_at (chunks three_ints) a = Some c →
  dumpable (data c) = true.
Proof.
  intros Ha Hc.
  apply elem_of_cons in Ha as [->|Ha]; [by injection Hc as <-|].
  apply elem_of_cons in Ha as [->|Ha]; [by injection Hc as <-|].
  by apply elem_of_nil in Ha.
Defined.

(** The dump of the user stack: the line of the null string, the two lines
    of the object [900], and the line of the base. *)
Lemma Parrot_dump_dynamic_environment_lines_witness :
  Parrot_dump_dynamic_environment 64 32 8 202 three_ints
  = Dumped [Dump_entry 2 202 202 STACK_ENTRY_STRING STACK_CLEANUP_NULL;
            Dump_entry 1 201 201 STACK_ENTRY_PMC STACK_CLEANUP_NULL;
            Dump_PMC 900;
            Dump_base 0 200].
Proof.
  exact (Parrot_dump_dynamic_environment_lines 64 32 8 three_ints
           202 [202; 201] 200
           ltac:(lia) ltac:(lia) three_ints_user_chain ltac:(simpl; lia)
           ltac:(simpl; lia) ltac:(unfold INT_MAX; simpl; lia)
           three_ints_user_dumpable).
Defined.

Lemma Parrot_dump_dynamic_environment_never_damaged_witness :
  Parrot_dump_dynamic_environment 64 32 8 103 three_ints
  ≠ Control_stack_damaged [].
Proof.
  exact (Parrot_dump_dynamic_environment_never_damaged 64 32 ltac:(lia)
           8%nat 103 three_ints []).
Defined.
